(** * The memory scheduler of nncase: a shallow embedding

    The scheduler ([src/schedule/scheduler.cpp]) turns a typed dataflow graph
    into a schedule: logical buffers with lifetimes, alias analysis of
    bitcast and concat nodes, resolution of concat offsets, closing of
    lifetimes over alias roots, the compute sequence, physical buffers and
    the per-output allocation records.

    Conventions of the embedding.
    - A node is named by its index in the graph, an output connector by the
      pair (node, position among the node's outputs); the C++ code names
      both by address.
    - [logical_buffers_] is an [unordered_map] from connector to buffer;
      it is a [gmap] here, and [.at()] is lookup with [out_of_range].
      A [logical_buffer*] into that map is the key of the entry.
    - The order in which a range-for walks an [unordered_map] is not fixed
      by the language; the passes that walk the map take the order as an
      argument.
    - [size_t] quantities (ages, extents, byte offsets) are numbers in [N]:
      the development is about runs in which no such quantity reaches
      2^64, so that no sum or product wraps around.  The one sum the code
      keeps in an [int], the offset of a concat inside its parent, is
      modelled with its conversions ([accumulate]).
    - Exceptions and undefined behaviour are values of [result]. *)

From stdpp Require Import gmap list strings.
From Stdlib Require Import NArith ZArith Lia.

Local Open Scope N_scope.

(** ** Errors *)

Inductive error :=
| runtime_error (msg : string)
| out_of_range
| undefined_behaviour
| out_of_fuel.

Inductive result (A : Type) :=
| Ok (a : A)
| Err (e : error).
Arguments Ok {A} a.
Arguments Err {A} e.

Definition rbind {A B} (m : result A) (k : A → result B) : result B :=
  match m with
  | Ok a => k a
  | Err e => Err e
  end.

Notation "'let*' x := m 'in' k" := (rbind m (fun x => k))
  (at level 10, x name, m at level 100, k at level 200).
Notation "'let*' ' p := m 'in' k" := (rbind m (fun x => match x with p => k end))
  (at level 10, p pattern, m at level 100, k at level 200).

Definition of_option {A} (e : error) (o : option A) : result A :=
  match o with
  | Some a => Ok a
  | None => Err e
  end.

Fixpoint foldM {A S} (f : S → A → result S) (s : S) (l : list A) : result S :=
  match l with
  | [] => Ok s
  | x :: l' => let* s' := f s x in foldM f s' l'
  end.

(** ** Graph entities *)

Abbreviation node_id := nat (only parsing).
Abbreviation connector := (nat * nat)%type (only parsing).
Abbreviation shape_t := (list N) (only parsing).
Abbreviation datatype_t := nat (only parsing).

(** Modelled from the spec: the classes of the IR ([ir/node.h],
    [ir/connectors.h], [ir/opcode.h]) are declared in headers that are not
    among the sources.  A node has an opcode, an attributes bitmask, "an
    ordered list of input connectors and an ordered list of output
    connectors"; only the opcodes the scheduler tells apart are named. *)
Inductive node_opcode :=
| op_input_node
| op_output_node
| op_constant
| op_bitcast
| op_concat
| op_slice
| op_other (code : nat).

Global Instance node_opcode_eq_dec : EqDecision node_opcode.
Proof. solve_decision. Defined.

(** Modelled from the spec: [memory_location_t] is declared in a header
    that is not among the sources; the tags are input, output, rdata
    and data. *)
Inductive memory_location_t :=
| mem_input
| mem_output
| mem_rdata
| mem_data.

Global Instance memory_location_eq_dec : EqDecision memory_location_t.
Proof. solve_decision. Defined.

(** Modelled from the spec: [ir::input_connector] is declared in a header
    that is not among the sources; an input "references exactly one
    producing output_connector", and the scheduler tests [connection()]
    for null, which is [None] here. *)
Record input_connector := {
  in_shape : shape_t;
  connection : option connector
}.

(** Modelled from the spec: [ir::output_connector] is declared in a header
    that is not among the sources; an output has a shape, a type and a set
    of consumer inputs, each given here by its owning node and its position
    among that node's inputs. *)
Record output_connector := {
  out_shape : shape_t;
  out_type : datatype_t;
  connections : list (node_id * nat)
}.

(** Modelled from the spec: [ir::node] and [ir::concat] are declared in
    headers that are not among the sources.  [axis] and [concat_dims] are
    the accessors of a concat node; other nodes do not use them. *)
Record node := {
  runtime_opcode : node_opcode;
  attributes : N;
  inputs : list input_connector;
  outputs : list output_connector;
  axis : nat;
  concat_dims : list N
}.

Abbreviation graph := (list node) (only parsing).

(** Modelled from the spec: [node_attr_action] is declared in [ir/node.h],
    which is not among the sources; the attributes are a bitmask in which
    action means "must execute at runtime".  The bit is taken to be the
    lowest one; no proof below depends on which bit it is. *)
Definition node_attr_action : N := 1.

Definition has_action (nd : node) : bool :=
  negb (N.land (attributes nd) node_attr_action =? 0).

(** [n.attributes(n.attributes() & ~node_attr_action)] *)
Definition clear_action (nd : node) : node :=
  {| runtime_opcode := runtime_opcode nd;
     attributes := N.ldiff (attributes nd) node_attr_action;
     inputs := inputs nd;
     outputs := outputs nd;
     axis := axis nd;
     concat_dims := concat_dims nd |}.

Definition get_node (g : graph) (n : node_id) : result node :=
  of_option undefined_behaviour (g !! n).

Definition get_output (g : graph) (c : connector) : result output_connector :=
  let* nd := get_node g c.1 in
  of_option undefined_behaviour (outputs nd !! c.2).

Definition opcode_of (g : graph) (n : node_id) : result node_opcode :=
  let* nd := get_node g n in Ok (runtime_opcode nd).

(** The connectors of a node's outputs, in declaration order. *)
Definition output_refs (n : node_id) (nd : node) : list connector :=
  (λ k, (n, k)) <$> seq 0 (length (outputs nd)).

(** ** Scheduler entities *)

(** Modelled from the spec: [buffer_lifetime] is declared in a header that
    is not among the sources; its fields are birth, age and used_count. *)
Record buffer_lifetime := {
  birth : N;
  age : N;
  used_count : N
}.

(** Modelled from the spec: [buffer_lifetime::is_alive] and
    [buffer_lifetime::end] are declared in a header that is not among the
    sources; "is_alive iff used_count > 0" and "end = birth + age". *)
Definition is_alive (l : buffer_lifetime) : bool := 0 <? used_count l.
Definition lt_end (l : buffer_lifetime) : N := birth l + age l.

(** Modelled from the spec: the parent descriptor of a logical buffer is
    declared in a header that is not among the sources; "pointer to parent
    logical buffer" and begin, the offset coordinate.  A pointer to a
    logical buffer is the key of its entry in [logical_buffers_]. *)
Record parent_desc := {
  parent : connector;
  begin : shape_t
}.

(** Modelled from the spec: the class [logical_buffer] is declared in a
    header that is not among the sources; "id, owning connector,
    memory-location tag, shape, type, lifetime, optional parent-descriptor,
    physical pointer (late-bound)". *)
Record logical_buffer := {
  id : N;
  owner : connector;
  memory_location : memory_location_t;
  lb_shape : shape_t;
  lb_type : datatype_t;
  lifetime : buffer_lifetime;
  lb_parent : option parent_desc;
  physical : option nat
}.

Definition set_lifetime (l : buffer_lifetime) (b : logical_buffer) : logical_buffer :=
  {| id := id b; owner := owner b; memory_location := memory_location b;
     lb_shape := lb_shape b; lb_type := lb_type b;
     lifetime := l; lb_parent := lb_parent b; physical := physical b |}.

Definition set_memory_location (m : memory_location_t) (b : logical_buffer) : logical_buffer :=
  {| id := id b; owner := owner b; memory_location := m;
     lb_shape := lb_shape b; lb_type := lb_type b;
     lifetime := lifetime b; lb_parent := lb_parent b; physical := physical b |}.

Definition set_parent (p : option parent_desc) (b : logical_buffer) : logical_buffer :=
  {| id := id b; owner := owner b; memory_location := memory_location b;
     lb_shape := lb_shape b; lb_type := lb_type b;
     lifetime := lifetime b; lb_parent := p; physical := physical b |}.

Definition set_physical (p : option nat) (b : logical_buffer) : logical_buffer :=
  {| id := id b; owner := owner b; memory_location := memory_location b;
     lb_shape := lb_shape b; lb_type := lb_type b;
     lifetime := lifetime b; lb_parent := lb_parent b; physical := p |}.

Abbreviation buffer_map := (gmap connector logical_buffer).

(** [logical_buffers_.at(conn)] *)
Definition buf_at (bufs : buffer_map) (c : connector) : result logical_buffer :=
  of_option out_of_range (bufs !! c).

(** ** Lifetime builder *)

Fixpoint any_ofM {A} (f : A → result bool) (l : list A) : result bool :=
  match l with
  | [] => Ok false
  | x :: l' => let* b := f x in if b then Ok true else any_ofM f l'
  end.

(** [decide_memory_location] *)
Definition decide_memory_location (g : graph) (conn : connector) : result memory_location_t :=
  let* opcode := opcode_of g conn.1 in
  if decide (opcode = op_input_node) then Ok mem_input
  else if decide (opcode = op_constant) then Ok mem_rdata
  else
    let* oc := get_output g conn in
    let* to_output :=
      any_ofM (λ c, let* o := opcode_of g c.1 in Ok (bool_decide (o = op_output_node)))
              (connections oc) in
    if to_output then Ok mem_output else Ok mem_data.

Module lifetime_recorder.

Record t := {
  next_buffer_id : N;
  cnt_age : N;
  buffers : buffer_map
}.

Definition init (buffers : buffer_map) : t :=
  {| next_buffer_id := 0; cnt_age := 0; buffers := buffers |}.

Definition allocate (g : graph) (lr : t) (conn : connector) : result t :=
  match buffers lr !! conn with
  | Some _ => Ok lr
  | None =>
    let* loc := decide_memory_location g conn in
    let* oc := get_output g conn in
    let buffer :=
      {| id := next_buffer_id lr; owner := conn; memory_location := loc;
         lb_shape := out_shape oc; lb_type := out_type oc;
         lifetime := {| birth := cnt_age lr; age := 0;
                        used_count := N.of_nat (length (connections oc)) |};
         lb_parent := None; physical := None |} in
    Ok {| next_buffer_id := next_buffer_id lr + 1;
          cnt_age := cnt_age lr;
          buffers := <[conn := buffer]> (buffers lr) |}
  end.

Definition released_msg : string := "Trying to free a released buffer".

Definition release (lr : t) (conn : connector) : result t :=
  match buffers lr !! conn with
  | Some b =>
    let l := lifetime b in
    if negb (is_alive l)
    then Err (runtime_error released_msg)
    else
      let l' := {| birth := birth l; age := age l;
                   used_count := used_count l - 1 |} in
      Ok {| next_buffer_id := next_buffer_id lr;
            cnt_age := cnt_age lr;
            buffers := <[conn := set_lifetime l' b]> (buffers lr) |}
  | None => Ok lr
  end.

Definition grow (b : logical_buffer) : logical_buffer :=
  let l := lifetime b in
  if is_alive l
  then set_lifetime {| birth := birth l; age := age l + 1;
                       used_count := used_count l |} b
  else b.

Definition grow_age (lr : t) : t :=
  {| next_buffer_id := next_buffer_id lr;
     cnt_age := cnt_age lr + 1;
     buffers := grow <$> buffers lr |}.

End lifetime_recorder.

(** ** The graph visitor *)

(** Modelled from the spec: [make_relay_ir_visitor] and its [visit] are
    declared in [ir/visitor.h], which is not among the sources.  The spec
    describes "a post-order traversal rooted at the graph outputs" in which
    "each node is visited exactly once": a node is marked when it is entered, the
    producers of its inputs are traversed in declaration order, and then the
    node itself is handed to the callback.  The state is the set of marked
    nodes and the nodes handed over so far.  The callbacks of the scheduler
    change attribute bits and nothing else in the graph, and the traversal
    does not read those, so the order of the visit is computed first and a
    pass is a fold of its callback over that order. *)
Abbreviation visit_state := (gset nat * list nat)%type (only parsing).

Fixpoint visit_strategy (fuel : nat) (g : graph) (n : node_id) (st : visit_state)
  : result visit_state :=
  match fuel with
  | O => Err out_of_fuel
  | S fuel' =>
    if decide (n ∈ st.1) then Ok st
    else
      let* nd := get_node g n in
      let* st' := foldM (λ s i, match connection i with
                                | Some c => visit_strategy fuel' g c.1 s
                                | None => Ok s
                                end)
                        ({[n]} ∪ st.1, st.2) (inputs nd) in
      Ok (st'.1, st'.2 ++ [n])
  end.

(** The nodes in the order in which the visitor hands them to its callback.
    A nested call enters an unmarked node, so the depth of the recursion is
    at most the number of nodes. *)
Definition visit_order (g : graph) (outputs_ : list node_id) : result (list node_id) :=
  let* st := foldM (λ s n, visit_strategy (S (length g)) g n s) (∅, []) outputs_ in
  Ok st.2.

(** ** [scheduler::make_logical_buffers] *)

(** The body of the loop over the inputs: [assert(out)], then the release. *)
Definition release_input (lr : lifetime_recorder.t) (i : input_connector)
  : result lifetime_recorder.t :=
  let* out := of_option undefined_behaviour (connection i) in
  lifetime_recorder.release lr out.

Definition make_logical_buffers_node (g : graph) (lr : lifetime_recorder.t) (n : node_id)
  : result lifetime_recorder.t :=
  let* nd := get_node g n in
  let* lr1 := foldM (lifetime_recorder.allocate g) lr (output_refs n nd) in
  let lr2 := lifetime_recorder.grow_age lr1 in
  foldM release_input lr2 (inputs nd).

Definition make_logical_buffers (g : graph) (order : list node_id) (bufs : buffer_map)
  : result buffer_map :=
  let* lr := foldM (make_logical_buffers_node g) (lifetime_recorder.init bufs) order in
  Ok (lifetime_recorder.buffers lr).

(** ** [scheduler::analyze_buffer_alias] *)

Definition zeros (n : nat) : shape_t := replicate n 0.

(** The guard of the bitcast rule: the output is not a graph output, or
    the input is neither a model input nor a constant. *)
Definition may_alias (out_loc in_loc : memory_location_t) : bool :=
  bool_decide (out_loc ≠ mem_output)
  || (bool_decide (in_loc ≠ mem_input) && bool_decide (in_loc ≠ mem_rdata)).

Definition analyze_bitcast (g : graph) (bufs : buffer_map) (n : node_id) (b : node)
  : result (graph * buffer_map) :=
  let* ic := of_option undefined_behaviour (inputs b !! 0%nat) in
  let* input := of_option undefined_behaviour (connection ic) in
  let* in_buf := buf_at bufs input in
  let* out_buf := buf_at bufs (n, 0%nat) in
  let bufs1 :=
    if bool_decide (memory_location out_buf = mem_output)
       && bool_decide (memory_location in_buf = mem_data)
    then <[input := set_memory_location mem_output in_buf]> bufs
    else bufs in
  let* in_buf1 := buf_at bufs1 input in
  let* out_buf1 := buf_at bufs1 (n, 0%nat) in
  if may_alias (memory_location out_buf1) (memory_location in_buf1)
  then
    let* in_oc := get_output g input in
    let begin := zeros (length (out_shape in_oc)) in
    Ok (<[n := clear_action b]> g,
        <[(n, 0%nat) := set_parent (Some {| parent := input; begin := begin |}) out_buf1]> bufs1)
  else Ok (g, bufs1).

Fixpoint all_ofM {A} (f : A → result bool) (l : list A) : result bool :=
  match l with
  | [] => Ok true
  | x :: l' => let* b := f x in if b then all_ofM f l' else Ok false
  end.

Fixpoint count_ifM {A} (f : A → result bool) (l : list A) : result nat :=
  match l with
  | [] => Ok 0%nat
  | x :: l' =>
    let* b := f x in
    let* k := count_ifM f l' in
    Ok (if b then S k else k)
  end.

(** The first conjunct of the concat rule: [axis == 0] or the leading
    [axis] extents of [inputs[0]] are all one. *)
Definition concat_axis_ok (c : node) : result bool :=
  if decide (axis c = 0%nat) then Ok true
  else
    let* i0 := of_option undefined_behaviour (inputs c !! 0%nat) in
    if decide (axis c ≤ length (in_shape i0))%nat
    then Ok (forallb (λ dim, dim =? 1) (take (axis c) (in_shape i0)))
    else Err undefined_behaviour.

(** The second conjunct, for one input.  For an input that is not
    connected, [.at()] looks up the null pointer and throws. *)
Definition concat_input_ok (g : graph) (bufs : buffer_map) (i : input_connector)
  : result bool :=
  let* src := of_option out_of_range (connection i) in
  let* in_buf := buf_at bufs src in
  if bool_decide (memory_location in_buf ≠ mem_input)
     && bool_decide (memory_location in_buf ≠ mem_rdata)
  then let* o := opcode_of g src.1 in Ok (bool_decide (o ≠ op_slice))
  else Ok false.

(** The third conjunct: how many consumers are concats. *)
Definition concat_consumers (g : graph) (outs : list (node_id * nat)) : result nat :=
  count_ifM (λ i, let* o := opcode_of g i.1 in Ok (bool_decide (o = op_concat))) outs.

Definition analyze_concat (g : graph) (bufs : buffer_map) (n : node_id) (c : node)
  : result (graph * buffer_map) :=
  let* oc := of_option undefined_behaviour (outputs c !! 0%nat) in
  let* ok1 := concat_axis_ok c in
  if ok1 then
    let* ok2 := all_ofM (concat_input_ok g bufs) (inputs c) in
    if ok2 then
      let* cnt := concat_consumers g (connections oc) in
      if decide (cnt < 2)%nat
      then Ok (<[n := clear_action c]> g, bufs)
      else Ok (g, bufs)
    else Ok (g, bufs)
  else Ok (g, bufs).

Definition analyze_node (st : graph * buffer_map) (n : node_id)
  : result (graph * buffer_map) :=
  let* nd := get_node st.1 n in
  if decide (runtime_opcode nd = op_bitcast) then analyze_bitcast st.1 st.2 n nd
  else if decide (runtime_opcode nd = op_concat) then analyze_concat st.1 st.2 n nd
  else Ok st.

Definition analyze_buffer_alias (g : graph) (order : list node_id) (bufs : buffer_map)
  : result (graph * buffer_map) :=
  foldM analyze_node (g, bufs) order.

(** ** [scheduler::fix_concat_indices] *)

(** [s[axis] += v]; indexing past the end of the vector is undefined. *)
Definition shape_add_at (s : shape_t) (k : nat) (v : N) : result shape_t :=
  match s !! k with
  | Some x => Ok (<[k := x + v]> s)
  | None => Err undefined_behaviour
  end.

(** Modelled from the spec: [operator+=] on [shape_t] comes from a header
    that is not among the sources; the spec adds the partial sum "to each
    previously-recorded begin", coordinate by coordinate.  Vectors of
    different rank are rejected. *)
Definition shape_add (a b : shape_t) : result shape_t :=
  if decide (length a = length b) then Ok (zip_with N.add a b)
  else Err undefined_behaviour.

(** The value an [int] takes when a number is converted to it: the one
    value in [-2^31, 2^31) that is congruent modulo 2^32. *)
Definition to_int (z : Z) : Z := ((z + 2 ^ 31) mod 2 ^ 32 - 2 ^ 31)%Z.

(** The value a [size_t] takes when an [int] is converted to it. *)
Definition int_to_size_t (z : Z) : N := Z.to_N (z mod 2 ^ 64).

(** [std::accumulate(first, last, 0)]: the initial value is the literal
    [0], so the accumulator is an [int].  Each step [init = init + *first]
    adds in [size_t] and converts the sum back to [int]. *)
Definition accumulate_int (l : list N) : Z :=
  foldl (λ init x, to_int (init + Z.of_N x)) 0%Z l.

(** [std::accumulate(dims.begin(), dims.begin() + index, 0)], as the
    [size_t] that [child_begin[axis] += ...] adds: a sum below 2^31 is the
    sum, the sum 2^31 comes out as 2^64 - 2^31. *)
Definition accumulate (dims : list N) (index : nat) : result N :=
  if decide (index ≤ length dims)%nat
  then Ok (int_to_size_t (accumulate_int (take index dims)))
  else Err undefined_behaviour.

(** Modelled from the spec: [try_get_direct_child<concat>] comes from a
    header that is not among the sources.  The spec walks upward "if the
    concat's output itself has exactly one consumer and that consumer is
    also a view-concat"; here the consumer is tested for being a concat,
    and the caller tests its action bit. *)
Definition try_get_direct_child_concat (g : graph) (child : node_id)
  : result (option node_id) :=
  let* oc := get_output g (child, 0%nat) in
  match connections oc with
  | [consumer] =>
    let* o := opcode_of g consumer.1 in
    if decide (o = op_concat) then Ok (Some consumer.1) else Ok None
  | _ => Ok None
  end.

(** Modelled from the spec: [get_input_index] comes from a header that is
    not among the sources; it is the index of this concat among the
    inputs of the parent, the first input connected to the given output. *)
Definition get_input_index (nd : node) (c : connector) : result nat :=
  match list_find (λ i, connection i = Some c) (inputs nd) with
  | Some (k, _) => Ok k
  | None => Err out_of_range
  end.

(** Step 1 of the callback: the running offset over the inputs. *)
Definition init_index (out : connector) (k : nat)
    (st : buffer_map * shape_t) (i : input_connector)
  : result (buffer_map * shape_t) :=
  let* src := of_option out_of_range (connection i) in
  let* in_buf := buf_at st.1 src in
  let bufs' := <[src := set_parent (Some {| parent := out; begin := st.2 |}) in_buf]> st.1 in
  let* extent := of_option undefined_behaviour (in_shape i !! k) in
  let* cnt_begin := shape_add_at st.2 k extent in
  Ok (bufs', cnt_begin).

(** The inner loop of step 2: re-point one input of [c] at the parent's
    output and shift its begin. *)
Definition shift_index (out : connector) (child_begin : shape_t)
    (bufs : buffer_map) (i : input_connector) : result buffer_map :=
  let* src := of_option out_of_range (connection i) in
  let* in_buf := buf_at bufs src in
  let* desc := of_option undefined_behaviour (lb_parent in_buf) in
  let* b := shape_add (begin desc) child_begin in
  Ok (<[src := set_parent (Some {| parent := out; begin := b |}) in_buf]> bufs).

(** Step 2 of the callback: the [while (true)] loop over the parents. *)
Fixpoint iterate_parent (fuel : nat) (g : graph) (c : node) (child : node_id)
    (bufs : buffer_map) : result buffer_map :=
  match fuel with
  | O => Err out_of_fuel
  | S fuel' =>
    let* po := try_get_direct_child_concat g child in
    match po with
    | None => Ok bufs
    | Some p =>
      let* parent_node := get_node g p in
      if has_action parent_node then Ok bufs
      else
        let* index := get_input_index parent_node (child, 0%nat) in
        let* child_oc := get_output g (child, 0%nat) in
        let* offset := accumulate (concat_dims parent_node) index in
        let* child_begin :=
          shape_add_at (zeros (length (out_shape child_oc))) (axis parent_node) offset in
        let* in_buf := buf_at bufs (child, 0%nat) in
        let* _ := buf_at bufs (p, 0%nat) in
        let bufs1 :=
          <[(child, 0%nat) :=
              set_parent (Some {| parent := (p, 0%nat); begin := child_begin |}) in_buf]> bufs in
        let* bufs2 := foldM (shift_index (p, 0%nat) child_begin) bufs1 (inputs c) in
        iterate_parent fuel' g c p bufs2
    end
  end.

(** The callback of [fix_concat_indices].  A chain of parents never comes
    back to a node it left in an acyclic graph, so the loop runs at most
    once per node. *)
Definition fix_concat_node (g : graph) (bufs : buffer_map) (n : node_id)
  : result buffer_map :=
  let* c := get_node g n in
  if decide (runtime_opcode c = op_concat) then
    if has_action c then Ok bufs
    else
      let* _ := buf_at bufs (n, 0%nat) in
      let* i0 := of_option undefined_behaviour (inputs c !! 0%nat) in
      let* st := foldM (init_index (n, 0%nat) (axis c))
                       (bufs, zeros (length (in_shape i0))) (inputs c) in
      iterate_parent (length g) g c n st.1
  else Ok bufs.

Definition fix_concat_indices (g : graph) (order : list node_id) (bufs : buffer_map)
  : result buffer_map :=
  foldM (fix_concat_node g) bufs order.

(** ** [scheduler::fix_lifetime] *)

(** The first loop, for one map entry: [p] is a reference to the entry's
    optional parent descriptor, and [p = p->parent->parent()] stores the
    parent's descriptor in it. *)
Fixpoint assign_parent (fuel : nat) (bufs : buffer_map) (k : connector)
  : result buffer_map :=
  match fuel with
  | O => Err out_of_fuel
  | S fuel' =>
    let* b := buf_at bufs k in
    match lb_parent b with
    | None => Ok bufs
    | Some p =>
      let* pb := of_option undefined_behaviour (bufs !! parent p) in
      match lb_parent pb with
      | Some pp => assign_parent fuel' (<[k := set_parent (Some pp) b]> bufs) k
      | None => Ok bufs
      end
    end
  end.

(** The second loop, for one map entry. *)
Definition extend_lifetime (bufs : buffer_map) (k : connector) : result buffer_map :=
  let* b := buf_at bufs k in
  match lb_parent b with
  | None => Ok bufs
  | Some p =>
    let* pb := of_option undefined_behaviour (bufs !! parent p) in
    let l := lifetime b in
    let p_lifetime := lifetime pb in
    let birth' := N.min (birth l) (birth p_lifetime) in
    let end' := N.max (lt_end l) (lt_end p_lifetime) in
    Ok (<[parent p := set_lifetime {| birth := birth'; age := end' - birth';
                                      used_count := used_count p_lifetime |} pb]> bufs)
  end.

(** A parent chain without a cycle passes through each buffer at most
    once, which bounds the inner [while]. *)
Definition assign_parents (order : list connector) (bufs : buffer_map)
  : result buffer_map :=
  foldM (assign_parent (size bufs)) bufs order.

Definition fix_lifetime (order : list connector) (bufs : buffer_map)
  : result buffer_map :=
  let* bufs1 := assign_parents order bufs in
  foldM extend_lifetime bufs1 order.

(** ** [scheduler::generate_compute_sequence] *)

Definition generate_compute_sequence (g : graph) (order : list node_id)
  : result (list node_id) :=
  foldM (λ sequence n,
           let* nd := get_node g n in
           if has_action nd then Ok (sequence ++ [n]) else Ok sequence)
        [] order.

(** ** Physical buffers *)

(** Modelled from the spec: [memory_span] is declared in a header that is
    not among the sources; a start and a size, as the allocator contract
    has them. *)
Record memory_span := {
  span_start : N;
  span_size : N
}.

(** Modelled from the spec: the class [physical_buffer] is declared in a
    header that is not among the sources; it holds "id, owning logical
    buffer (the alias root), lifetime, allocation record", the lifetime
    being the owner's at the time of construction. *)
Record physical_buffer := {
  pb_id : N;
  pb_owner : connector;
  pb_lifetime : buffer_lifetime;
  pb_allocation : memory_span
}.

Definition set_allocation (a : memory_span) (b : physical_buffer) : physical_buffer :=
  {| pb_id := pb_id b; pb_owner := pb_owner b; pb_lifetime := pb_lifetime b;
     pb_allocation := a |}.

(** [std::unordered_map::emplace]: the entry is added only when the key is
    not yet present. *)
Definition emplace `{Countable K} {V} (k : K) (v : V) (m : gmap K V) : gmap K V :=
  match m !! k with
  | Some _ => m
  | None => <[k := v]> m
  end.

(** The first loop of [make_physical_buffers], for one map entry. *)
Definition make_physical (bufs : buffer_map)
    (st : gmap connector nat * list physical_buffer) (k : connector)
  : result (gmap connector nat * list physical_buffer) :=
  let* b := buf_at bufs k in
  match lb_parent b with
  | None =>
    let id := size st.1 in
    Ok (emplace k id st.1,
        st.2 ++ [{| pb_id := N.of_nat id; pb_owner := k; pb_lifetime := lifetime b;
                    pb_allocation := {| span_start := 0; span_size := 0 |} |}])
  | Some _ => Ok st
  end.

(** The second loop, for one map entry; a [physical_buffer*] is the index
    of the buffer in [physical_buffers_]. *)
Definition bind_physical (physical_ids : gmap connector nat)
    (physical_buffers : list physical_buffer) (bufs : buffer_map) (k : connector)
  : result buffer_map :=
  let* b := buf_at bufs k in
  let parent_buf := match lb_parent b with
                    | Some p => parent p
                    | None => k
                    end in
  let* id := of_option out_of_range (physical_ids !! parent_buf) in
  let* _ := of_option out_of_range (physical_buffers !! id) in
  Ok (<[k := set_physical (Some id) b]> bufs).

Definition make_physical_buffers (order : list connector) (bufs : buffer_map)
  : result (buffer_map * list physical_buffer) :=
  let* st := foldM (make_physical bufs) (∅, []) order in
  let* bufs' := foldM (bind_physical st.1 st.2) bufs order in
  Ok (bufs', st.2).

(** ** Allocation records *)

(** Modelled from the spec: [buffer_allocation] is declared in a header
    that is not among the sources; its fields are those [assign_allocations]
    writes. *)
Record buffer_allocation := {
  ba_memory_location : memory_location_t;
  ba_type : datatype_t;
  ba_size : N;
  ba_shape : shape_t;
  ba_parent_shape : shape_t;
  ba_strides : shape_t;
  ba_start : N
}.

Definition product (s : shape_t) : N := foldr N.mul 1 s.

(** Modelled from the spec: [xt::compute_strides] with
    [layout_type::row_major] belongs to a library outside the sources; the
    spec has "row-major strides": the stride of an axis is the product of
    the extents after it. *)
Fixpoint compute_strides_row_major (shape : shape_t) : shape_t :=
  match shape with
  | [] => []
  | _ :: rest => product rest :: compute_strides_row_major rest
  end.

(** [to_strides] *)
Definition to_strides (shape : shape_t) : shape_t :=
  compute_strides_row_major shape.

(** Modelled from the spec: [xt::element_offset] belongs to a library
    outside the sources; the spec has "dot(strides, parent.begin)". *)
Definition element_offset (strides index : shape_t) : N :=
  foldr N.add 0 (zip_with N.mul strides index).

Global Instance memory_location_countable : Countable memory_location_t.
Proof.
  refine (inj_countable'
    (λ m, match m with
          | mem_input => 0%nat | mem_output => 1%nat
          | mem_rdata => 2%nat | mem_data => 3%nat
          end)
    (λ k, match k with
          | 0%nat => mem_input | 1%nat => mem_output
          | 2%nat => mem_rdata | _ => mem_data
          end) _).
  by intros [].
Defined.

(** Modelled from the spec: [schedule_result] is declared in a header that
    is not among the sources; its fields are those [schedule] writes. *)
Record schedule_result := {
  compute_sequence : list node_id;
  allocations : gmap connector buffer_allocation;
  max_usages : gmap memory_location_t N
}.

Section scheduler.

(** Modelled from the spec: [ir::get_bytes] is declared in a header that
    is not among the sources; the size of an element of each type is a
    parameter, and the size of a tensor is
    "element_bytes(type) * product(shape)". *)
Variable element_bytes : datatype_t → N.

Definition get_bytes (type : datatype_t) (shape : shape_t) : N :=
  element_bytes type * product shape.

(** The target and its allocators ([targets/target.h],
    [schedule/buffer_allocator.h]) are not among the sources: the bank
    registered by the target and the four operations of an allocator are
    parameters, and so is the permutation [std::sort] produces. *)
Context {buffer_allocator : Type}.
Variable register_allocators : gmap memory_location_t buffer_allocator.
Variable mark : buffer_allocator → nat → physical_buffer → buffer_allocator.
Variable finish : buffer_allocator → buffer_allocator.
Variable max_usage : buffer_allocator → N.
Variable allocations_of : buffer_allocator → gmap nat memory_span.
Variable sort_by_birth : list (nat * physical_buffer) → list (nat * physical_buffer).

(** The unordered map is walked in some order of its keys. *)
Variable iteration : gset connector → list connector.

(** ** [scheduler::allocate_physical_buffers] *)

Definition owner_location (bufs : buffer_map) (b : physical_buffer)
  : result memory_location_t :=
  let* o := of_option undefined_behaviour (bufs !! pb_owner b) in
  Ok (memory_location o).

Definition allocate_physical_buffers (bufs : buffer_map)
    (physical_buffers : list physical_buffer)
  : result (list physical_buffer * gmap memory_location_t N) :=
  let orders := sort_by_birth (imap (λ i b, (i, b)) physical_buffers) in
  let* allocators :=
    foldM (λ allocators ib,
             let* loc := owner_location bufs ib.2 in
             let* a := of_option out_of_range (allocators !! loc) in
             Ok (<[loc := mark a ib.1 ib.2]> allocators))
          register_allocators orders in
  let allocators' := finish <$> allocators in
  let* placed :=
    foldM (λ acc ib,
             let* loc := owner_location bufs ib.2 in
             let* a := of_option out_of_range (allocators' !! loc) in
             let* span := of_option out_of_range (allocations_of a !! ib.1) in
             Ok (acc ++ [set_allocation span ib.2]))
          [] (imap (λ i b, (i, b)) physical_buffers) in
  Ok (placed, max_usage <$> allocators').

(** ** [scheduler::assign_allocations] *)

(** The record built for one output [out] of a node with the given
    opcode. *)
Definition make_allocation (bufs : buffer_map) (physical_buffers : list physical_buffer)
    (opcode : node_opcode) (out : connector) : result buffer_allocation :=
  let* lbuf := buf_at bufs out in
  let* pid := of_option undefined_behaviour (physical lbuf) in
  let* pbuf := of_option undefined_behaviour (physical_buffers !! pid) in
  let* owner_buf := of_option undefined_behaviour (bufs !! pb_owner pbuf) in
  let memory := pb_allocation pbuf in
  let parent_shape :=
    if bool_decide (is_Some (lb_parent lbuf)) && bool_decide (opcode ≠ op_bitcast)
    then lb_shape owner_buf
    else lb_shape lbuf in
  let strides := to_strides parent_shape in
  let start :=
    match lb_parent lbuf with
    | Some p => span_start memory
                + element_bytes (lb_type lbuf) * element_offset strides (begin p)
    | None => span_start memory
    end in
  Ok {| ba_memory_location := memory_location owner_buf;
        ba_type := lb_type lbuf;
        ba_size := get_bytes (lb_type lbuf) (lb_shape lbuf);
        ba_shape := lb_shape lbuf;
        ba_parent_shape := parent_shape;
        ba_strides := strides;
        ba_start := start |}.

Definition assign_node (g : graph) (bufs : buffer_map)
    (physical_buffers : list physical_buffer)
    (allocs : gmap connector buffer_allocation) (n : node_id)
  : result (gmap connector buffer_allocation) :=
  let* nd := get_node g n in
  foldM (λ allocs out,
           let* alloc := make_allocation bufs physical_buffers (runtime_opcode nd) out in
           Ok (emplace out alloc allocs))
        allocs (output_refs n nd).

Definition assign_allocations (g : graph) (order : list node_id) (bufs : buffer_map)
    (physical_buffers : list physical_buffer)
  : result (gmap connector buffer_allocation) :=
  foldM (assign_node g bufs physical_buffers) ∅ order.

(** ** [scheduler::schedule]

    Every pass starts its own traversal from [outputs_]; the graph comes
    back with the attribute bits the alias analyser cleared. *)
Definition schedule (g : graph) (outputs_ : list node_id)
  : result (schedule_result * graph) :=
  let* order := visit_order g outputs_ in
  let* bufs := make_logical_buffers g order ∅ in
  let* order := visit_order g outputs_ in
  let* gb := analyze_buffer_alias g order bufs in
  let g := gb.1 in
  let* order := visit_order g outputs_ in
  let* bufs := fix_concat_indices g order gb.2 in
  let* bufs := fix_lifetime (iteration (dom bufs)) bufs in
  let* order := visit_order g outputs_ in
  let* sequence := generate_compute_sequence g order in
  let* bp := make_physical_buffers (iteration (dom bufs)) bufs in
  let* pm := allocate_physical_buffers bp.1 bp.2 in
  let* order := visit_order g outputs_ in
  let* allocs := assign_allocations g order bp.1 pm.1 in
  Ok ({| compute_sequence := sequence; allocations := allocs; max_usages := pm.2 |}, g).

End scheduler.


(** * The rules of the specification, in its own words *)

Definition tagged (bufs : buffer_map) (c : connector) (m : memory_location_t) : Prop :=
  memory_location <$> bufs !! c = Some m.

Definition parent_of (bufs : buffer_map) (c : connector) : option (option parent_desc) :=
  lb_parent <$> bufs !! c.

Definition opcode_at (g : graph) (n : node_id) : option node_opcode :=
  runtime_opcode <$> g !! n.

Definition action_at (g : graph) (n : node_id) : option bool :=
  has_action <$> g !! n.

(** The bitcast rule: the case in which the input is promoted, and the
    case in which the bytes must be copied. *)
Definition bitcast_promotes (out_loc in_loc : memory_location_t) : Prop :=
  out_loc = mem_output ∧ in_loc = mem_data.

Definition bitcast_must_copy (out_loc in_loc : memory_location_t) : Prop :=
  out_loc = mem_output ∧ (in_loc = mem_input ∨ in_loc = mem_rdata).

(** The concat rule. *)
Definition leading_ones (k : nat) (s : shape_t) : Prop :=
  Forall (λ dim, dim = 1) (take k s).

Definition concat_input_rule (g : graph) (bufs : buffer_map) (i : input_connector) : Prop :=
  ∀ src, connection i = Some src →
    ¬ tagged bufs src mem_input ∧ ¬ tagged bufs src mem_rdata
    ∧ opcode_at g src.1 ≠ Some op_slice.

Definition concat_view_rule (g : graph) (bufs : buffer_map) (c : node)
    (oc : output_connector) : Prop :=
  (axis c = 0%nat ∨ Forall (λ i, leading_ones (axis c) (in_shape i)) (inputs c))
  ∧ Forall (concat_input_rule g bufs) (inputs c)
  ∧ (length (filter (λ consumer, opcode_at g consumer.1 = Some op_concat)
                    (connections oc)) < 2)%nat.

(** What the constructor of a concat node guarantees about its inputs:
    there is at least one, the axis lies inside every input shape, and the
    shapes agree before the axis. *)
Definition concat_shapes_agree (c : node) : Prop :=
  ∃ i0, inputs c !! 0%nat = Some i0
        ∧ Forall (λ i, (axis c < length (in_shape i))%nat
                       ∧ take (axis c) (in_shape i) = take (axis c) (in_shape i0))
                 (inputs c).

(** Every pointer the analyser follows from a node leads somewhere: the
    inputs are connected to outputs that have a buffer and an owner in the
    graph. *)
Definition input_resolves (g : graph) (bufs : buffer_map) (i : input_connector) : Prop :=
  ∃ src, connection i = Some src ∧ is_Some (bufs !! src) ∧ is_Some (g !! src.1).

(** ** Parent chains *)

(** [ancestor bufs x n a]: [a] is reached from [x] by following [n] parent
    pointers. *)
Inductive ancestor (bufs : buffer_map) : connector → nat → connector → Prop :=
| ancestor_self x : ancestor bufs x 0 x
| ancestor_up x lb d n a :
    bufs !! x = Some lb →
    lb_parent lb = Some d →
    ancestor bufs (parent d) n a →
    ancestor bufs x (S n) a.

Definition is_root (bufs : buffer_map) (r : connector) : Prop :=
  ∃ lb, bufs !! r = Some lb ∧ lb_parent lb = None.

(** [chain_top bufs x t n]: [n] parent pointers above [x] sits the buffer
    whose descriptor [t] points at a buffer without a parent, the alias
    root of [x]. *)
Inductive chain_top (bufs : buffer_map) : connector → parent_desc → nat → Prop :=
| chain_top_here x lb t :
    bufs !! x = Some lb →
    lb_parent lb = Some t →
    is_root bufs (parent t) →
    chain_top bufs x t 0
| chain_top_up x lb d t n :
    bufs !! x = Some lb →
    lb_parent lb = Some d →
    chain_top bufs (parent d) t n →
    chain_top bufs x t (S n).

(** Every parent pointer leads, after finitely many steps, to a buffer
    without a parent. *)
Definition chains_end (bufs : buffer_map) : Prop :=
  ∀ x lb, bufs !! x = Some lb → is_Some (lb_parent lb) → ∃ t n, chain_top bufs x t n.

(** The keys of the map, as the range-for enumerates them. *)
Definition enumerates (order : list connector) (bufs : buffer_map) : Prop :=
  ∀ k, k ∈ order ↔ is_Some (bufs !! k).

(** [b] has its parent descriptor, and that parent is [r]. *)
Definition child_of (bufs : buffer_map) (r b : connector) : Prop :=
  ∃ lb t, bufs !! b = Some lb ∧ lb_parent lb = Some t ∧ parent t = r.

(** What the first pass leaves alone: everything but parent descriptors,
    and whether a buffer has one. *)
Definition same_but_parents (bufs bufs' : buffer_map) : Prop :=
  ∀ x, set_parent None <$> bufs' !! x = set_parent None <$> bufs !! x
       ∧ (lb_parent <$> bufs' !! x = Some None ↔ lb_parent <$> bufs !! x = Some None).

(** ** Lifetimes of aliases *)

(** The interval of [r] contains the interval of [l]. *)
Definition covers (r l : buffer_lifetime) : Prop :=
  birth r ≤ birth l ∧ lt_end l ≤ lt_end r.

(** Every parent pointer leads to a buffer without a parent. *)
Definition flat (bufs : buffer_map) : Prop :=
  ∀ x lb t, bufs !! x = Some lb → lb_parent lb = Some t → is_root bufs (parent t).

(** [c], with buffer [lc], is an alias of [r]. *)
Definition alias_of (bufs : buffer_map) (r c : connector) (lc : logical_buffer) : Prop :=
  bufs !! c = Some lc ∧ ∃ t, lb_parent lc = Some t ∧ parent t = r.

(** The state of the second loop of [fix_lifetime] after the entries
    [seen]: [F] is the map the loop started from, [cur] the map now.  The
    aliases are as they were; a root covers its old interval and the
    intervals of its aliases among [seen], and its birth and end are the
    old ones or those of such an alias. *)
Definition closed_over (F : buffer_map) (seen : list connector) (cur : buffer_map) : Prop :=
  (∀ x lb, F !! x = Some lb → is_Some (lb_parent lb) → cur !! x = Some lb)
  ∧ ∀ r lr, F !! r = Some lr → lb_parent lr = None →
      ∃ lr', cur !! r = Some lr' ∧ lb_parent lr' = None
        ∧ covers (lifetime lr') (lifetime lr)
        ∧ (∀ c lc, c ∈ seen → alias_of F r c lc → covers (lifetime lr') (lifetime lc))
        ∧ (birth (lifetime lr') = birth (lifetime lr)
           ∨ ∃ c lc, c ∈ seen ∧ alias_of F r c lc
                     ∧ birth (lifetime lr') = birth (lifetime lc))
        ∧ (lt_end (lifetime lr') = lt_end (lifetime lr)
           ∨ ∃ c lc, c ∈ seen ∧ alias_of F r c lc
                     ∧ lt_end (lifetime lr') = lt_end (lifetime lc)).

(** ** Physical pool *)

(** The buffer has no parent. *)
Definition rootb (bufs : buffer_map) (k : connector) : bool :=
  match bufs !! k with
  | Some lb => match lb_parent lb with
               | Some _ => false
               | None => true
               end
  | None => false
  end.

(** The buffer whose storage [k] uses once the chains are flat. *)
Definition root_of (k : connector) (lb : logical_buffer) : connector :=
  match lb_parent lb with
  | Some p => parent p
  | None => k
  end.

(** [physical_ids] and [physical_buffers_] in step: the map sends an owner
    to the position of its physical buffer, and ids count from zero. *)
Definition ids_match (ids : gmap connector nat) (phys : list physical_buffer) : Prop :=
  size ids = length phys
  ∧ (∀ k i, ids !! k = Some i ↔ ∃ pb, phys !! i = Some pb ∧ pb_owner pb = k)
  ∧ (∀ i pb, phys !! i = Some pb → pb_id pb = N.of_nat i).

(** ** Allocation records *)

(** The output [out] has a logical buffer [lbuf], bound to the physical
    buffer [pbuf], whose owner is the root [rbuf] of [lbuf]: the state
    [make_physical_buffers] leaves behind. *)
Definition bound_to_root (bufs : buffer_map) (phys : list physical_buffer)
    (out : connector) (lbuf : logical_buffer) (pbuf : physical_buffer)
    (rbuf : logical_buffer) : Prop :=
  bufs !! out = Some lbuf
  ∧ (∃ i, physical lbuf = Some i ∧ phys !! i = Some pbuf)
  ∧ pb_owner pbuf = root_of out lbuf
  ∧ bufs !! root_of out lbuf = Some rbuf.

(** The parent shape the spec asks for. *)
Definition spec_parent_shape (opcode : node_opcode) (lbuf rbuf : logical_buffer) : shape_t :=
  match lb_parent lbuf with
  | Some _ => if decide (opcode = op_bitcast) then lb_shape lbuf else lb_shape rbuf
  | None => lb_shape lbuf
  end.

(** Row-major strides, position by position: the stride of axis [i] is the
    product of the extents after [i]. *)
Definition row_major (shape strides : shape_t) : Prop :=
  length strides = length shape
  ∧ ∀ i, (i < length shape)%nat → strides !! i = Some (product (drop (S i) shape)).

(** The dot product of two coordinate vectors of the same rank. *)
Fixpoint dot (a b : shape_t) : N :=
  match a, b with
  | x :: a', y :: b' => x * y + dot a' b'
  | _, _ => 0
  end.

(** ** Order of the traversal *)

(** [p] produces an input of [n]. *)
Definition feeds (g : graph) (p n : node_id) : Prop :=
  ∃ nd i k, g !! n = Some nd ∧ i ∈ inputs nd ∧ connection i = Some (p, k).

(** The connections lead to nodes of the graph, and there is no cycle: the
    nodes can be numbered below the number of nodes so that producers come
    first. *)
Definition acyclic (g : graph) : Prop :=
  ∃ rk : node_id → nat,
    (∀ n, (n < length g)%nat → (rk n < length g)%nat)
    ∧ ∀ p n, feeds g p n → (p < length g)%nat ∧ (rk p < rk n)%nat.

(** The nodes the traversal can reach from the outputs. *)
Inductive reachable (g : graph) (outputs_ : list node_id) : node_id → Prop :=
| reachable_output o : o ∈ outputs_ → reachable g outputs_ o
| reachable_producer p n : reachable g outputs_ n → feeds g p n → reachable g outputs_ p.

(** [p] stands before [n] in the list. *)
Definition before (l : list node_id) (p n : node_id) : Prop :=
  ∃ l1 l2 l3, l = l1 ++ p :: l2 ++ n :: l3.

(** Each node of the list stands after the producers of its inputs. *)
Definition producers_first (g : graph) (l : list node_id) : Prop :=
  ∀ i n, l !! i = Some n → ∀ p, feeds g p n → ∃ j, (j < i)%nat ∧ l !! j = Some p.

(** The state of the traversal is sound: handed-over nodes stand after
    their producers, are marked, reachable, and handed over once. *)
Definition visit_sound (g : graph) (outputs_ : list node_id) (st : visit_state) : Prop :=
  producers_first g st.2 ∧ NoDup st.2
  ∧ (∀ m, m ∈ st.2 → m ∈ st.1)
  ∧ (∀ m, m ∈ st.2 → reachable g outputs_ m).

(** How a sound state [st'] continues [st]: everything handed over stays
    in place, marks stay, and what is newly marked has been handed over and
    was not marked before. *)
Definition visit_extends (st st' : visit_state) : Prop :=
  st.2 `prefix_of` st'.2
  ∧ st.1 ⊆ st'.1
  ∧ (∀ m, m ∈ st'.1 → m ∈ st.1 ∨ m ∈ st'.2)
  ∧ (∀ m, m ∈ st'.2 → m ∈ st.2 ∨ m ∉ st.1).

(** ** Offsets inside chains of view concats *)

(** Coordinate-wise sum, and the vector that is [v] at axis [k] and zero
    elsewhere. *)
Definition vadd (a b : shape_t) : shape_t := zip_with N.add a b.

Definition unit_at (rank k : nat) (v : N) : shape_t := <[k := v]> (zeros rank).

(** The extent of an input along axis [k], and the sum over some inputs. *)
Definition extent (k : nat) (i : input_connector) : N := default 0 (in_shape i !! k).

Definition extent_sum (k : nat) (ins : list input_connector) : N :=
  foldr N.add 0 (extent k <$> ins).

(** The begin of input number [i] of a concat inside the concat's own
    output: the extents of the inputs before it, along the axis. *)
Definition own_begin (rank : nat) (c : node) (i : nat) : shape_t :=
  unit_at rank (axis c) (extent_sum (axis c) (take i (inputs c))).

(** A concat that the alias analyser turned into a view. *)
Definition view_concat (g : graph) (n : node_id) (c : node) : Prop :=
  g !! n = Some c ∧ runtime_opcode c = op_concat ∧ has_action c = false.

(** The output of [child] has exactly one consumer, the view concat [p]. *)
Definition view_parent (g : graph) (child p : node_id) : Prop :=
  try_get_direct_child_concat g child = Ok (Some p) ∧ ∃ pn, view_concat g p pn.

(** [rises_to g rank c top off]: walking upward from [c] through view
    concats ends at [top], and the output of [c] begins at [off] inside the
    output of [top]. *)
Inductive rises_to (g : graph) (rank : nat) : node_id → node_id → shape_t → Prop :=
| rises_stop c :
    (∀ p, ¬ view_parent g c p) →
    rises_to g rank c c (zeros rank)
| rises_step c p pn idx top off :
    try_get_direct_child_concat g c = Ok (Some p) →
    view_concat g p pn →
    get_input_index pn (c, 0%nat) = Ok idx →
    rises_to g rank p top off →
    rises_to g rank c top (vadd (own_begin rank pn idx) off).

(** [m] lies on the way up from [child] and is not the end of it. *)
Inductive below_top (g : graph) : node_id → node_id → Prop :=
| below_top_here child p : view_parent g child p → below_top g child child
| below_top_up child p m : view_parent g child p → below_top g p m → below_top g child m.

(** Both ends of a connection know of each other. *)
Definition connected (g : graph) : Prop :=
  (∀ src oc p k, get_output g src = Ok oc → (p, k) ∈ connections oc →
     ∃ pn ic, g !! p = Some pn ∧ inputs pn !! k = Some ic ∧ connection ic = Some src)
  ∧ (∀ n nd k ic src, g !! n = Some nd → inputs nd !! k = Some ic →
       connection ic = Some src →
       ∃ oc, get_output g src = Ok oc ∧ (n, k) ∈ connections oc).

(** No output is an input of two view concats, or twice of one. *)
Definition exclusive_inputs (g : graph) : Prop :=
  ∀ n c n' c' i i' ic ic' src,
    view_concat g n c → view_concat g n' c' →
    inputs c !! i = Some ic → inputs c' !! i' = Some ic' →
    connection ic = Some src → connection ic' = Some src →
    n = n' ∧ i = i'.

(** The extents of the inputs of a concat along its axis sum to less than
    2^31: the offsets the resolver adds up in an [int] fit. *)
Definition extents_fit_int (c : node) : Prop :=
  extent_sum (axis c) (inputs c) < 2 ^ 31.

(** What the constructor of a concat guarantees, and that the buffers are
    there: the node has an output with a buffer; the axis lies inside the
    output shape; every input has the rank of the output, is connected to
    an output of that rank that has a buffer; and [concat_dims] lists the
    extents of the inputs along the axis. *)
Definition concat_wf (g : graph) (bufs : buffer_map) (n : node_id) (c : node) : Prop :=
  ∃ oc,
    outputs c !! 0%nat = Some oc
    ∧ is_Some (bufs !! (n, 0%nat))
    ∧ inputs c ≠ []
    ∧ (axis c < length (out_shape oc))%nat
    ∧ Forall (λ i, length (in_shape i) = length (out_shape oc)
                   ∧ ∃ src soc, connection i = Some src ∧ is_Some (bufs !! src)
                                ∧ get_output g src = Ok soc
                                ∧ length (out_shape soc) = length (out_shape oc))
             (inputs c)
    ∧ concat_dims c = extent (axis c) <$> inputs c.

(** The rank of the output of a node. *)
Definition output_rank (c : node) : nat :=
  match outputs c !! 0%nat with
  | Some oc => length (out_shape oc)
  | None => 0
  end.

(** Two maps with the same keys, and the same buffers up to the parent
    descriptors. *)
Definition parents_changed (bufs bufs' : buffer_map) : Prop :=
  ∀ x, set_parent None <$> bufs' !! x = set_parent None <$> bufs !! x.

(** No two inputs of the list are connected to the same output. *)
Definition distinct_sources (ins : list input_connector) : Prop :=
  ∀ i i' ic ic' src,
    ins !! i = Some ic → ins !! i' = Some ic' →
    connection ic = Some src → connection ic' = Some src → i = i'.

(** [x] is not the source of any input of the list. *)
Definition not_a_source (ins : list input_connector) (x : connector) : Prop :=
  ∀ ic, ic ∈ ins → connection ic ≠ Some x.

(** The begin is zero off axis [k]. *)
Definition along_axis_only (k : nat) (b : shape_t) : Prop :=
  ∀ j x, b !! j = Some x → j ≠ k → x = 0.

(** ** Two runs on one graph *)

(** A node without its attribute bits, and graphs that differ in those bits
    only: a run of the scheduler changes nothing else in the graph. *)
Definition erase (nd : node) : node :=
  {| runtime_opcode := runtime_opcode nd; attributes := 0; inputs := inputs nd;
     outputs := outputs nd; axis := axis nd; concat_dims := concat_dims nd |}.

Definition same_shape (g g' : graph) : Prop := erase <$> g = erase <$> g'.

(** * What the passes keep, and where they stop *)

(** Two maps with the same keys whose buffers are related key by key. *)
Definition related (R : logical_buffer → logical_buffer → Prop)
    (bufs bufs' : buffer_map) : Prop :=
  ∀ c, match bufs !! c, bufs' !! c with
       | Some b, Some b' => R b b'
       | None, None => True
       | _, _ => False
       end.

(** ** The lifetime builder *)

(** [c] is an output of a node of the list that the graph has. *)
Definition output_of (g : graph) (l : list node_id) (c : connector) : Prop :=
  c.1 ∈ l ∧ ∃ nd, g !! c.1 = Some nd ∧ (c.2 < length (outputs nd))%nat.

(** The opcode of the node that owns a consumer. *)
Definition consumer_opcode (g : graph) (consumer : node_id * nat) : option node_opcode :=
  opcode_at g consumer.1.

(** The tag of an output, read off the graph: outputs of the input node
    and of constants first, then whether some consumer is an output node. *)
Definition location_rule (g : graph) (c : connector) (m : memory_location_t) : Prop :=
  ∃ nd, g !! c.1 = Some nd ∧
    match runtime_opcode nd with
    | op_input_node => m = mem_input
    | op_constant => m = mem_rdata
    | _ => ∃ oc, outputs nd !! c.2 = Some oc ∧
             ((Exists (λ k, consumer_opcode g k = Some op_output_node) (connections oc)
               ∧ m = mem_output)
              ∨ (Forall (λ k, consumer_opcode g k ≠ Some op_output_node) (connections oc)
                 ∧ m = mem_data))
    end.

(** What a fresh logical buffer says about its connector. *)
Definition describes (g : graph) (c : connector) (b : logical_buffer) : Prop :=
  owner b = c ∧ lb_parent b = None ∧ physical b = None
  ∧ location_rule g c (memory_location b)
  ∧ ∃ oc, get_output g c = Ok oc ∧ lb_shape b = out_shape oc ∧ lb_type b = out_type oc.

(** The ids of the buffers count from zero without a gap: each is below
    the number of buffers, and no two buffers share one. *)
Definition ids_dense (bufs : buffer_map) : Prop :=
  (∀ c b, bufs !! c = Some b → id b < N.of_nat (size bufs))
  ∧ ∀ c c' b b', bufs !! c = Some b → bufs !! c' = Some b' → id b = id b' → c = c'.

(** The clock of the builder bounds every interval, and the interval of a
    buffer that is still alive ends now. *)
Definition clocked (now : N) (bufs : buffer_map) : Prop :=
  ∀ c b, bufs !! c = Some b →
    lt_end (lifetime b) ≤ now
    ∧ (is_alive (lifetime b) = true → lt_end (lifetime b) = now).

(** A later state of the builder: the buffers are still there, born when
    they were, no younger and with no more uses left. *)
Definition aged (bufs bufs' : buffer_map) : Prop :=
  ∀ c b, bufs !! c = Some b →
    ∃ b', bufs' !! c = Some b'
      ∧ birth (lifetime b') = birth (lifetime b)
      ∧ age (lifetime b) ≤ age (lifetime b')
      ∧ used_count (lifetime b') ≤ used_count (lifetime b).

(** The inputs of node [n] that read [c], those of [ins] counted from
    position [k]. *)
Fixpoint reads (n : node_id) (c : connector) (k : nat) (ins : list input_connector)
  : list (node_id * nat) :=
  match ins with
  | [] => []
  | i :: ins' =>
    (if decide (connection i = Some c) then [(n, k)] else []) ++ reads n c (S k) ins'
  end.

(** The inputs of the nodes of [l] that read [c]. *)
Definition uses (g : graph) (l : list node_id) (c : connector) : list (node_id * nat) :=
  l ≫= (λ n, match g !! n with
             | Some nd => reads n c 0 (inputs nd)
             | None => []
             end).

(** Every node of the list is in the graph, with all its inputs connected. *)
Definition wired (g : graph) (l : list node_id) : Prop :=
  ∀ n, n ∈ l → ∃ nd, g !! n = Some nd ∧ ∀ i, i ∈ inputs nd → is_Some (connection i).

(** The uses a buffer has left are the consumers not yet visited. *)
Definition accounted (g : graph) (l : list node_id) (bufs : buffer_map) : Prop :=
  ∀ c b, bufs !! c = Some b →
    ∃ oc, get_output g c = Ok oc
      ∧ used_count (lifetime b) + N.of_nat (length (uses g l c))
        = N.of_nat (length (connections oc)).

(** The node visited at position [j] reads [c]. *)
Definition reads_at (g : graph) (order : list node_id) (j : nat) (c : connector) : Prop :=
  ∃ n nd inp, order !! j = Some n ∧ g !! n = Some nd
              ∧ inp ∈ inputs nd ∧ connection inp = Some c.

(** A buffer without uses left never lived, or its interval ends right
    after the visit of a node that reads it. *)
Definition ended (g : graph) (order : list node_id) (bufs : buffer_map) : Prop :=
  ∀ c b, bufs !! c = Some b → used_count (lifetime b) = 0 →
    age (lifetime b) = 0
    ∨ ∃ j, reads_at g order j c ∧ lt_end (lifetime b) = N.of_nat j + 1.

(** ** The alias analyser *)

(** What the analyser may do to the graph: clear the action bit of a
    visited bitcast or concat. *)
Definition cleared_only (order : list node_id) (g g' : graph) : Prop :=
  length g' = length g
  ∧ ∀ m nd, g !! m = Some nd →
      g' !! m = Some nd
      ∨ (g' !! m = Some (clear_action nd) ∧ m ∈ order
         ∧ (runtime_opcode nd = op_bitcast ∨ runtime_opcode nd = op_concat)).

(** What the analyser may do to a buffer besides giving it a parent: move
    its tag from data to output. *)
Definition retagged (b b' : logical_buffer) : Prop :=
  id b' = id b ∧ owner b' = owner b ∧ lb_shape b' = lb_shape b ∧ lb_type b' = lb_type b
  ∧ lifetime b' = lifetime b ∧ physical b' = physical b
  ∧ (memory_location b' = memory_location b
     ∨ (memory_location b = mem_data ∧ memory_location b' = mem_output)).


(** The descriptor [d] of the buffer of [c] is the one the bitcast rule
    writes: [c] is the output of a visited bitcast without its action bit,
    the parent is what the bitcast reads, and the begin is zero. *)
Definition bitcast_alias (g : graph) (order : list node_id) (c : connector)
    (d : parent_desc) : Prop :=
  ∃ n nd ic in_oc,
    c = (n, 0%nat) ∧ n ∈ order ∧ g !! n = Some nd
    ∧ runtime_opcode nd = op_bitcast ∧ has_action nd = false
    ∧ inputs nd !! 0%nat = Some ic ∧ connection ic = Some (parent d)
    ∧ get_output g (parent d) = Ok in_oc
    ∧ begin d = zeros (length (out_shape in_oc)).

(** ** The concat pass *)

(** What the concat pass may do: change parent descriptors, and only of
    buffers that some view concat reads. *)
Definition concat_frame (g : graph) (bufs bufs' : buffer_map) : Prop :=
  parents_changed bufs bufs'
  ∧ ∀ x, (∀ n c, view_concat g n c → not_a_source (inputs c) x) → bufs' !! x = bufs !! x.

(** ** Closing the lifetimes *)

(** What [fix_lifetime] may do to a buffer: change its parent descriptor,
    its birth and its age. *)
Definition relifed (b b' : logical_buffer) : Prop :=
  id b' = id b ∧ owner b' = owner b ∧ memory_location b' = memory_location b
  ∧ lb_shape b' = lb_shape b ∧ lb_type b' = lb_type b ∧ physical b' = physical b
  ∧ used_count (lifetime b') = used_count (lifetime b)
  ∧ (is_Some (lb_parent b') ↔ is_Some (lb_parent b)).

(** The chains are flat and every root covers its aliases: the state
    [fix_lifetime] leaves. *)
Definition settled (bufs : buffer_map) : Prop :=
  ∀ c lc t, bufs !! c = Some lc → lb_parent lc = Some t →
    ∃ r, bufs !! parent t = Some r ∧ lb_parent r = None
         ∧ covers (lifetime r) (lifetime lc).

(** ** Placing the physical buffers *)

(** The tag of the logical buffer that owns a physical buffer. *)
Definition owner_tag (bufs : buffer_map) (b : physical_buffer) : option memory_location_t :=
  memory_location <$> bufs !! pb_owner b.

(** The allocator of the region [loc] after it has been shown, in order,
    the buffers of the list whose owner carries the tag [loc]. *)
Definition marked {A} (mark : A → nat → physical_buffer → A) (bufs : buffer_map)
    (loc : memory_location_t) (orders : list (nat * physical_buffer)) (a0 : A) : A :=
  foldl (λ a ib, mark a ib.1 ib.2) a0
        (filter (λ ib, owner_tag bufs ib.2 = Some loc) orders).

(** A physical buffer with its position in [physical_buffers_]. *)
Definition indexed (physical_buffers : list physical_buffer) : list (nat * physical_buffer) :=
  imap (λ i b, (i, b)) physical_buffers.

(** ** Allocation records *)

(** A block of shape [s] at coordinate [b] lies inside a tensor of shape
    [p], and no extent of the block is zero. *)
Definition fits (b s p : shape_t) : Prop :=
  Forall3 (λ bi si pi, bi + si ≤ pi ∧ 0 < si) b s p.

(** ** The ONNX importer: the bias of an LSTM node *)

(** What the importer's [convert_op_LSTM] can end in before it builds a
    node: a value, [std::invalid_argument], or undefined behaviour. *)
Inductive imported (A : Type) :=
| Imported (a : A)
| invalid_argument (msg : string)
| undefined.
Arguments Imported {A} a.
Arguments invalid_argument {A} msg.
Arguments undefined {A}.

Definition bidirectional_msg : string := "Not support bidirectional lstm.".

(** [convert_op_LSTM], from the test of the direction count to the two
    bias vectors.  [W_shape] is the shape of the weight tensor and [bias]
    the constant value of the tensor [B], as [get_shape] and
    [get_constant_value] hand them over; the importer, the ONNX messages
    and the nodes the function goes on to build are not among the sources.
    [W_shape[0]] and [W_shape[1]] index a vector without a check, and
    [bias.begin() + W_shape[1]] must not pass [bias.end()].  The result is
    [W_bias_vec] and [R_bias_vec]. *)
Definition convert_op_LSTM_bias {T} (W_shape : shape_t) (bias : list T)
  : imported (list T * list T) :=
  match W_shape !! 0%nat with
  | None => undefined
  | Some directions =>
    if directions =? 2 then invalid_argument bidirectional_msg
    else
      match W_shape !! 1%nat with
      | None => undefined
      | Some n =>
        if decide (N.to_nat n ≤ length bias)%nat
        then Imported (take (N.to_nat n) bias, drop (N.to_nat n) bias)
        else undefined
      end
  end.
(** * Sample graphs and buffers *)

(** Concrete data for C9: a producer whose output lists no consumer, read
    by an output node. *)
Definition plain_node (op : node_opcode) (ins : list input_connector)
    (outs : list output_connector) : node :=
  {| runtime_opcode := op; attributes := 1; inputs := ins; outputs := outs;
     axis := 0; concat_dims := [] |}.

Definition orphan_graph : graph :=
  [ plain_node (op_other 0) []
      [{| out_shape := [2]; out_type := 0%nat; connections := [] |}];
    plain_node op_output_node
      [{| in_shape := [2]; connection := Some (0, 0)%nat |}] [] ].

Definition sample_buffer (uses : N) : logical_buffer :=
  {| id := 0; owner := (0, 0)%nat; memory_location := mem_data;
     lb_shape := [2]; lb_type := 0%nat;
     lifetime := {| birth := 0; age := 0; used_count := uses |};
     lb_parent := None; physical := None |}.

Definition sample_recorder (next age : N) (uses : N) : lifetime_recorder.t :=
  {| lifetime_recorder.next_buffer_id := next;
     lifetime_recorder.cnt_age := age;
     lifetime_recorder.buffers := {[ (0, 0)%nat := sample_buffer uses ]} |}.


(** A reshape on the way to the graph output: producer, bitcast, output
    node. *)
Definition reshape_graph : graph :=
  [ plain_node (op_other 0) []
      [{| out_shape := [2; 3]; out_type := 0%nat; connections := [(1, 0)%nat] |}];
    plain_node op_bitcast
      [{| in_shape := [2; 3]; connection := Some (0, 0)%nat |}]
      [{| out_shape := [6]; out_type := 0%nat; connections := [(2, 0)%nat] |}];
    plain_node op_output_node
      [{| in_shape := [6]; connection := Some (1, 0)%nat |}] [] ].

Definition tensor_buffer (k : N) (c : connector) (m : memory_location_t)
    (s : shape_t) : logical_buffer :=
  {| id := k; owner := c; memory_location := m; lb_shape := s; lb_type := 0%nat;
     lifetime := {| birth := k; age := 1; used_count := 0 |};
     lb_parent := None; physical := None |}.

Definition reshape_buffers : buffer_map :=
  {[ (0, 0)%nat := tensor_buffer 0 (0, 0)%nat mem_data [2; 3];
     (1, 0)%nat := tensor_buffer 1 (1, 0)%nat mem_output [6] ]}.

(** Two tensors joined along axis 0 on the way to the graph output. *)
Definition concat_node (k : nat) (dims : list N) (ins : list input_connector)
    (outs : list output_connector) : node :=
  {| runtime_opcode := op_concat; attributes := 1; inputs := ins; outputs := outs;
     axis := k; concat_dims := dims |}.

Definition concat_inputs : list input_connector :=
  [ {| in_shape := [2; 4]; connection := Some (0, 0)%nat |};
    {| in_shape := [3; 4]; connection := Some (1, 0)%nat |} ].

Definition concat_output : output_connector :=
  {| out_shape := [5; 4]; out_type := 0%nat; connections := [(3, 0)%nat] |}.

Definition concat_graph : graph :=
  [ plain_node (op_other 0) []
      [{| out_shape := [2; 4]; out_type := 0%nat; connections := [(2, 0)%nat] |}];
    plain_node (op_other 1) []
      [{| out_shape := [3; 4]; out_type := 0%nat; connections := [(2, 1)%nat] |}];
    concat_node 0 [2; 3] concat_inputs [concat_output];
    plain_node op_output_node
      [{| in_shape := [5; 4]; connection := Some (2, 0)%nat |}] [] ].

Definition concat_buffers : buffer_map :=
  {[ (0, 0)%nat := tensor_buffer 0 (0, 0)%nat mem_data [2; 4];
     (1, 0)%nat := tensor_buffer 1 (1, 0)%nat mem_data [3; 4];
     (2, 0)%nat := tensor_buffer 2 (2, 0)%nat mem_output [5; 4] ]}.

(** Three buffers in a row: [(2, 0)] lies at offset 1 of [(1, 0)], which
    lies at offset 2 of [(0, 0)]. *)
Definition with_parent (p : connector) (beg : shape_t) (b : logical_buffer)
  : logical_buffer :=
  set_parent (Some {| parent := p; begin := beg |}) b.

Definition chain_buffers : buffer_map :=
  <[ (2, 0)%nat := with_parent (1, 0)%nat [1] (tensor_buffer 2 (2, 0)%nat mem_data [2]) ]>
  (<[ (1, 0)%nat := with_parent (0, 0)%nat [2] (tensor_buffer 1 (1, 0)%nat mem_data [4]) ]>
   {[ (0, 0)%nat := tensor_buffer 0 (0, 0)%nat mem_data [8] ]}).

(** Two aliases of [(0, 0)] and a buffer of its own, [(3, 0)]. *)
Definition alias_buffers : buffer_map :=
  <[ (3, 0)%nat := tensor_buffer 3 (3, 0)%nat mem_data [4] ]>
  (<[ (2, 0)%nat := with_parent (0, 0)%nat [6] (tensor_buffer 2 (2, 0)%nat mem_data [2]) ]>
   (<[ (1, 0)%nat := with_parent (0, 0)%nat [2] (tensor_buffer 1 (1, 0)%nat mem_data [4]) ]>
    {[ (0, 0)%nat := tensor_buffer 0 (0, 0)%nat mem_data [8] ]})).

(** The concat of [concat_graph] as a view: both inputs live inside the
    output's buffer, which is placed at offset 0 of its region. *)
Definition placed (i : nat) (b : logical_buffer) : logical_buffer :=
  set_physical (Some i) b.

Definition placed_buffers : buffer_map :=
  {[ (0, 0)%nat := placed 0 (with_parent (2, 0)%nat [0; 0]
                               (tensor_buffer 0 (0, 0)%nat mem_data [2; 4]));
     (1, 0)%nat := placed 0 (with_parent (2, 0)%nat [2; 0]
                               (tensor_buffer 1 (1, 0)%nat mem_data [3; 4]));
     (2, 0)%nat := placed 0 (tensor_buffer 2 (2, 0)%nat mem_output [5; 4]) ]}.

Definition placed_physical : list physical_buffer :=
  [ {| pb_id := 0; pb_owner := (2, 0)%nat;
       pb_lifetime := {| birth := 0; age := 3; used_count := 0 |};
       pb_allocation := {| span_start := 0; span_size := 80 |} |} ].

(** Two concats in a row along different axes: [x] (1x2) and [y] (1x3)
    are joined along axis 1, and the result (1x5) is put below [z] (2x5)
    along axis 0.  [attrs] is the attribute mask of both concats. *)
Definition producer (code : nat) (s : shape_t) (consumer : nat * nat) : node :=
  plain_node (op_other code) []
    [{| out_shape := s; out_type := 0%nat; connections := [consumer] |}].

Definition joined (attrs : N) (k : nat) (dims : list N) (ins : list input_connector)
    (s : shape_t) (consumer : nat * nat) : node :=
  {| runtime_opcode := op_concat; attributes := attrs; inputs := ins;
     outputs := [{| out_shape := s; out_type := 0%nat; connections := [consumer] |}];
     axis := k; concat_dims := dims |}.

Definition inner_concat (attrs : N) : node :=
  joined attrs 1 [2; 3]
    [ {| in_shape := [1; 2]; connection := Some (0, 0)%nat |};
      {| in_shape := [1; 3]; connection := Some (1, 0)%nat |} ]
    [1; 5] (4, 1)%nat.

Definition outer_concat (attrs : N) : node :=
  joined attrs 0 [2; 1]
    [ {| in_shape := [2; 5]; connection := Some (2, 0)%nat |};
      {| in_shape := [1; 5]; connection := Some (3, 0)%nat |} ]
    [3; 5] (5, 0)%nat.

Definition mixed_graph (attrs : N) : graph :=
  [ producer 0 [1; 2] (3, 0)%nat;
    producer 1 [1; 3] (3, 1)%nat;
    producer 2 [2; 5] (4, 0)%nat;
    inner_concat attrs;
    outer_concat attrs;
    plain_node op_output_node
      [{| in_shape := [3; 5]; connection := Some (4, 0)%nat |}] [] ].

Definition mixed_order : list node_id := [2; 0; 1; 3; 4; 5]%nat.

Definition mixed_buffers : buffer_map :=
  {[ (0, 0)%nat := tensor_buffer 1 (0, 0)%nat mem_data [1; 2];
     (1, 0)%nat := tensor_buffer 2 (1, 0)%nat mem_data [1; 3];
     (2, 0)%nat := tensor_buffer 0 (2, 0)%nat mem_data [2; 5];
     (3, 0)%nat := tensor_buffer 3 (3, 0)%nat mem_data [1; 5];
     (4, 0)%nat := tensor_buffer 4 (4, 0)%nat mem_output [3; 5] ]}.

(** A target for the examples: every region has a bump allocator that
    gives each physical buffer the next 128 bytes. *)
Definition bump := (N * gmap nat memory_span)%type.

Definition bump_mark (a : bump) (i : nat) (b : physical_buffer) : bump :=
  (a.1 + 128, <[i := {| span_start := a.1; span_size := 128 |}]> a.2).

Definition bump_bank : gmap memory_location_t bump :=
  {[ mem_input := (0, ∅); mem_output := (0, ∅); mem_rdata := (0, ∅); mem_data := (0, ∅) ]}.

Definition bump_schedule (g : graph) (outputs_ : list node_id)
  : result (schedule_result * graph) :=
  schedule (λ _, 4) bump_bank bump_mark (λ a, a) fst snd (λ l, l) elements g outputs_.




(** Two walks of the buffer map: the keys in the order [elements] lists
    them, and in the opposite order. *)
Definition walk_listed (keys : gset connector) : list connector := elements keys.

Definition walk_reversed (keys : gset connector) : list connector := reverse (elements keys).


(** [x] (2x4) is joined with itself along axis 0, and the result (4x4) is
    put below [z] (1x4) along axis 0. *)
Definition doubled_graph : graph :=
  [ plain_node (op_other 0) []
      [{| out_shape := [2; 4]; out_type := 0%nat;
          connections := [(2, 0)%nat; (2, 1)%nat] |}];
    producer 1 [1; 4] (3, 0)%nat;
    joined 1 0 [2; 2]
      [ {| in_shape := [2; 4]; connection := Some (0, 0)%nat |};
        {| in_shape := [2; 4]; connection := Some (0, 0)%nat |} ]
      [4; 4] (3, 1)%nat;
    joined 1 0 [1; 4]
      [ {| in_shape := [1; 4]; connection := Some (1, 0)%nat |};
        {| in_shape := [4; 4]; connection := Some (2, 0)%nat |} ]
      [5; 4] (4, 0)%nat;
    plain_node op_output_node
      [{| in_shape := [5; 4]; connection := Some (3, 0)%nat |}] [] ].

(** The order in which the traversal hands over the nodes of
    [concat_graph] and of [reshape_graph]. *)
Definition concat_order : list node_id := [0; 1; 2; 3]%nat.

Definition reshape_order : list node_id := [0; 1; 2]%nat.
(** * Properties *)

(** ** The error monad *)

Lemma rbind_ok {A B} (m : result A) (k : A → result B) (b : B) :
  rbind m k = Ok b ↔ ∃ a, m = Ok a ∧ k a = Ok b.
Proof.
  destruct m as [a|e]; simpl; split.
  - intros H. by exists a.
  - by intros (a' & [= <-] & H).
  - intros [=].
  - by intros (a' & [=] & _).
Qed.

Lemma of_option_ok {A} (e : error) (o : option A) (a : A) :
  of_option e o = Ok a ↔ o = Some a.
Proof. destruct o; simpl; split; congruence. Qed.

Lemma foldM_app {A S} (f : S → A → result S) (s : S) (l1 l2 : list A) :
  foldM f s (l1 ++ l2) = let* s' := foldM f s l1 in foldM f s' l2.
Proof.
  revert s. induction l1 as [|x l1 IH]; intros s; simpl; [done|].
  destruct (f s x) as [s'|e]; simpl; [apply IH | done].
Qed.

Lemma foldM_abort {A S} (f : S → A → result S) (s s1 : S) (l1 l2 : list A) (x : A) (e : error) :
  foldM f s l1 = Ok s1 → f s1 x = Err e → foldM f s (l1 ++ x :: l2) = Err e.
Proof. intros H1 H2. rewrite foldM_app, H1. simpl. by rewrite H2. Qed.

(** ** Lifetime builder: releasing a buffer *)

(** C9.  A release of a buffer whose [used_count] is zero throws the
    runtime error, and the error leaves [make_logical_buffers] and
    [schedule] at once; a release of a buffer with a positive [used_count]
    takes exactly one off that count, changes nothing else and throws
    nothing. *)
Theorem release_counts_down_or_aborts
    (lr : lifetime_recorder.t) (conn : connector) (b : logical_buffer) :
  lifetime_recorder.buffers lr !! conn = Some b →
  (used_count (lifetime b) = 0 →
     lifetime_recorder.release lr conn = Err (runtime_error lifetime_recorder.released_msg)
     ∧ ∀ (element_bytes : datatype_t → N) (A : Type)
         (bank : gmap memory_location_t A) (mark : A → nat → physical_buffer → A)
         (finish : A → A) (max_usage : A → N) (allocations_of : A → gmap nat memory_span)
         (sort : list (nat * physical_buffer) → list (nat * physical_buffer))
         (iteration : gset connector → list connector)
         (g : graph) (outputs_ : list node_id) (before after : list node_id)
         (n : node_id) (nd : node) (lr0 lr1 : lifetime_recorder.t)
         (ins_before ins_after : list input_connector) (i : input_connector),
         visit_order g outputs_ = Ok (before ++ n :: after) →
         foldM (make_logical_buffers_node g) (lifetime_recorder.init ∅) before = Ok lr0 →
         get_node g n = Ok nd →
         foldM (lifetime_recorder.allocate g) lr0 (output_refs n nd) = Ok lr1 →
         inputs nd = ins_before ++ i :: ins_after →
         foldM release_input (lifetime_recorder.grow_age lr1) ins_before = Ok lr →
         connection i = Some conn →
         schedule element_bytes bank mark finish max_usage allocations_of sort iteration
                  g outputs_
         = Err (runtime_error lifetime_recorder.released_msg))
  ∧ (0 < used_count (lifetime b) →
     lifetime_recorder.release lr conn =
       Ok {| lifetime_recorder.next_buffer_id := lifetime_recorder.next_buffer_id lr;
             lifetime_recorder.cnt_age := lifetime_recorder.cnt_age lr;
             lifetime_recorder.buffers :=
               <[conn := set_lifetime {| birth := birth (lifetime b);
                                         age := age (lifetime b);
                                         used_count := used_count (lifetime b) - 1 |} b]>
                 (lifetime_recorder.buffers lr) |}).
Proof.
  intros Hb. split.
  - intros Hz.
    assert (Hrel : lifetime_recorder.release lr conn = Err (runtime_error lifetime_recorder.released_msg)).
    { unfold lifetime_recorder.release. rewrite Hb. unfold is_alive. by rewrite Hz. }
    split; [done|].
    intros eb A bank mark finish mu allocs sort iter g outs before after n nd lr0 lr1
           ib ia i Hvis Hpre Hnd Halloc Hins Hrels Hconn.
    unfold schedule. rewrite Hvis. simpl.
    unfold make_logical_buffers.
    erewrite foldM_abort; [done | exact Hpre |].
    unfold make_logical_buffers_node. rewrite Hnd. simpl. rewrite Halloc. simpl.
    rewrite Hins.
    apply (foldM_abort _ _ lr); [exact Hrels|].
    unfold release_input. by rewrite Hconn.
  - intros Hpos. unfold lifetime_recorder.release. rewrite Hb.
    unfold is_alive. by destruct (N.ltb_spec 0 (used_count (lifetime b))); [|lia].
Qed.

Lemma release_counts_down_or_aborts_witness :
  (lifetime_recorder.release (sample_recorder 1 2 0) (0, 0)%nat
     = Err (runtime_error lifetime_recorder.released_msg)
   ∧ schedule (λ _, 4) (∅ : gmap memory_location_t unit) (λ a _ _, a) (λ a, a)
       (λ _, 0) (λ _, ∅) (λ l, l) elements orphan_graph [1%nat]
     = Err (runtime_error lifetime_recorder.released_msg))
  ∧ lifetime_recorder.release (sample_recorder 1 2 2) (0, 0)%nat
     = Ok (sample_recorder 1 2 1).
Proof.
  split.
  - destruct (release_counts_down_or_aborts (sample_recorder 1 2 0) (0, 0)%nat
                (sample_buffer 0) eq_refl) as [Hdead _].
    destruct (Hdead eq_refl) as [Hrel Habort].
    split; [exact Hrel|].
    apply (Habort _ _ _ _ _ _ _ _ _ orphan_graph [1%nat] [0%nat] [] 1%nat
             (plain_node op_output_node
                [{| in_shape := [2]; connection := Some (0, 0)%nat |}] [])
             (sample_recorder 1 1 0) (sample_recorder 1 1 0) [] []
             {| in_shape := [2]; connection := Some (0, 0)%nat |});
      vm_compute; reflexivity.
  - destruct (release_counts_down_or_aborts (sample_recorder 1 2 2) (0, 0)%nat
                (sample_buffer 2) eq_refl) as [_ Halive].
    rewrite Halive; [vm_compute; reflexivity | vm_compute; reflexivity].
Defined.

(** ** Alias analyser *)

Lemma has_action_clear (nd : node) : has_action (clear_action nd) = false.
Proof.
  unfold has_action, clear_action; simpl.
  replace (N.land (N.ldiff (attributes nd) node_attr_action) node_attr_action) with 0;
    [done|].
  symmetry. apply N.bits_inj. intros k.
  rewrite N.land_spec, N.ldiff_spec, N.bits_0.
  by destruct (N.testbit (attributes nd) k), (N.testbit node_attr_action k).
Qed.

Lemma get_node_ok (g : graph) (n : node_id) (nd : node) :
  get_node g n = Ok nd ↔ g !! n = Some nd.
Proof. apply of_option_ok. Qed.

Lemma may_alias_spec (o i : memory_location_t) :
  may_alias o i = false ↔ bitcast_must_copy o i.
Proof.
  unfold may_alias, bitcast_must_copy.
  destruct o, i; simpl; split; try done; try (by intros [? [?|?]]);
    intros _; split; auto.
Qed.


(** C3.  The bitcast rule.  With [in_buf] the buffer of the input and
    [out_buf] the buffer of the output: the input's tag becomes [output]
    when the output is tagged [output] and the input [data], and stays what
    it was otherwise; unless the output is tagged [output] and the input
    [input] or [rdata], the output's parent becomes (input, zeros of the
    input's rank) and the action bit of the node is cleared; in the
    excluded case the graph is left as it is and the output's parent is
    what it was. *)
Theorem bitcast_rule (g : graph) (bufs : buffer_map) (n : node_id) (b : node)
    (ic : input_connector) (input : connector) (in_oc : output_connector)
    (in_buf out_buf : logical_buffer) :
  g !! n = Some b →
  runtime_opcode b = op_bitcast →
  inputs b !! 0%nat = Some ic →
  connection ic = Some input →
  get_output g input = Ok in_oc →
  bufs !! input = Some in_buf →
  bufs !! (n, 0%nat) = Some out_buf →
  ∃ g' bufs',
    analyze_node (g, bufs) n = Ok (g', bufs')
    ∧ (bitcast_promotes (memory_location out_buf) (memory_location in_buf) →
         tagged bufs' input mem_output)
    ∧ (¬ bitcast_promotes (memory_location out_buf) (memory_location in_buf) →
         tagged bufs' input (memory_location in_buf))
    ∧ (¬ bitcast_must_copy (memory_location out_buf) (memory_location in_buf) →
         parent_of bufs' (n, 0%nat)
           = Some (Some {| parent := input; begin := zeros (length (out_shape in_oc)) |})
         ∧ action_at g' n = Some false)
    ∧ (bitcast_must_copy (memory_location out_buf) (memory_location in_buf) →
         g' = g ∧ parent_of bufs' (n, 0%nat) = Some (lb_parent out_buf)).
Proof.
  intros Hn Hop Hic Hconn Hoc Hin Hout.
  unfold analyze_node; simpl.
  rewrite (proj2 (get_node_ok _ _ _) Hn); simpl.
  rewrite decide_True by done.
  unfold analyze_bitcast. rewrite Hic; simpl. rewrite Hconn; simpl.
  unfold buf_at. rewrite Hin; simpl. rewrite Hout; simpl.
  assert (Hact : ∀ g0 : graph, g0 !! n = Some b →
            action_at (<[n := clear_action b]> g0) n = Some false).
  { intros g0 H0. unfold action_at.
    rewrite list_lookup_insert_eq by (by eapply lookup_lt_Some).
    simpl. by rewrite has_action_clear. }
  unfold bitcast_promotes, tagged, parent_of.
  destruct (decide (memory_location out_buf = mem_output
                    ∧ memory_location in_buf = mem_data)) as [[Eo Ei]|Hnp].
  - (* the input is promoted *)
    rewrite Eo, Ei; simpl.
    assert (Hne : input ≠ (n, 0%nat)).
    { intros ->. rewrite Hin in Hout. injection Hout as ->. congruence. }
    rewrite lookup_insert_eq; simpl. rewrite lookup_insert_ne, Hout by done; simpl.
    rewrite Eo; simpl. rewrite Hoc; simpl.
    eexists _, _; split; [reflexivity|].
    rewrite lookup_insert_ne, lookup_insert_eq, lookup_insert_eq by done; simpl.
    repeat split; try done; try tauto; try (by apply Hact);
      try (by match goal with H : bitcast_must_copy _ _ |- _ => destruct H as [_ [?|?]] end).
  - (* no promotion *)
    replace (bool_decide (memory_location out_buf = mem_output)
             && bool_decide (memory_location in_buf = mem_data)) with false.
    2:{ symmetry. apply andb_false_iff.
        destruct (decide (memory_location out_buf = mem_output)) as [?|?];
          [right|left]; apply bool_decide_eq_false; tauto. }
    rewrite Hin; simpl. rewrite Hout; simpl.
    destruct (may_alias (memory_location out_buf) (memory_location in_buf)) eqn:Ema.
    + assert (Hnc : ¬ bitcast_must_copy (memory_location out_buf) (memory_location in_buf)).
      { rewrite <- may_alias_spec. congruence. }
      rewrite Hoc; simpl.
      eexists _, _; split; [reflexivity|].
      rewrite lookup_insert_eq; simpl.
      repeat split; try done; try tauto.
      * destruct (decide (input = (n, 0%nat))) as [->|Hne].
        -- rewrite lookup_insert_eq. simpl. congruence.
        -- rewrite lookup_insert_ne, Hin by done. done.
      * by apply Hact.
    + apply may_alias_spec in Ema.
      eexists _, _; split; [reflexivity|].
      rewrite Hin, Hout; simpl.
      repeat split; try done; try tauto.
Qed.

Lemma bitcast_rule_witness :
  ∃ g' bufs',
    analyze_node (reshape_graph, reshape_buffers) 1%nat = Ok (g', bufs')
    ∧ tagged bufs' (0, 0)%nat mem_output
    ∧ parent_of bufs' (1, 0)%nat = Some (Some {| parent := (0, 0)%nat; begin := [0; 0] |})
    ∧ action_at g' 1%nat = Some false.
Proof.
  destruct (bitcast_rule reshape_graph reshape_buffers 1%nat
              (plain_node op_bitcast
                 [{| in_shape := [2; 3]; connection := Some (0, 0)%nat |}]
                 [{| out_shape := [6]; out_type := 0%nat; connections := [(2, 0)%nat] |}])
              {| in_shape := [2; 3]; connection := Some (0, 0)%nat |}
              (0, 0)%nat
              {| out_shape := [2; 3]; out_type := 0%nat; connections := [(1, 0)%nat] |}
              (tensor_buffer 0 (0, 0)%nat mem_data [2; 3])
              (tensor_buffer 1 (1, 0)%nat mem_output [6])
              eq_refl eq_refl eq_refl eq_refl eq_refl eq_refl eq_refl)
    as (g' & bufs' & Hrun & Hpromote & _ & Hparent & _).
  exists g', bufs'. split; [exact Hrun|].
  split; [apply Hpromote; by split|].
  apply Hparent. by intros [_ [?|?]].
Defined.
Lemma all_ofM_spec {A} (f : A → result bool) (P : A → Prop) (l : list A) :
  Forall (λ x, ∃ b, f x = Ok b ∧ (b = true ↔ P x)) l →
  ∃ r, all_ofM f l = Ok r ∧ (r = true ↔ Forall P l).
Proof.
  induction 1 as [|x l (b & Hf & Hb) _ (r & Hr & IH)]; simpl.
  - exists true. by split.
  - rewrite Hf; simpl. destruct b.
    + exists r. split; [done|]. rewrite IH, Forall_cons.
      destruct Hb as [Hb _]. split; [intros ?; split; auto | by intros [_ ?]].
    + exists false. split; [done|]. rewrite Forall_cons.
      destruct Hb as [_ Hb]. split; [done | intros [Hx _]; by apply Hb].
Qed.

Lemma count_ifM_spec {A} (f : A → result bool) (P : A → Prop)
    `{!∀ x, Decision (P x)} (l : list A) :
  Forall (λ x, f x = Ok (bool_decide (P x))) l →
  count_ifM f l = Ok (length (filter P l)).
Proof.
  induction 1 as [|x l Hf _ IH]; simpl; [done|].
  rewrite Hf, IH; simpl. rewrite filter_cons.
  by destruct (decide (P x)); [rewrite bool_decide_eq_true_2|rewrite bool_decide_eq_false_2].
Qed.

Lemma forallb_leading_ones (k : nat) (s : shape_t) :
  forallb (λ dim, dim =? 1) (take k s) = true ↔ leading_ones k s.
Proof.
  unfold leading_ones. rewrite forallb_forall, Forall_forall.
  split; intros H x Hx.
  - apply N.eqb_eq, H. by apply list_elem_of_In.
  - apply N.eqb_eq, H. by apply list_elem_of_In.
Qed.

Lemma concat_axis_ok_spec (c : node) :
  concat_shapes_agree c →
  ∃ r, concat_axis_ok c = Ok r
       ∧ (r = true ↔
          axis c = 0%nat ∨ Forall (λ i, leading_ones (axis c) (in_shape i)) (inputs c)).
Proof.
  intros (i0 & Hi0 & Hall). unfold concat_axis_ok.
  destruct (decide (axis c = 0%nat)) as [Hz|Hnz].
  - exists true. split; [done|]. split; auto.
  - rewrite Hi0; simpl.
    assert (Hin0 : i0 ∈ inputs c) by (by eapply list_elem_of_lookup_2).
    rewrite Forall_forall in Hall.
    destruct (Hall _ Hin0) as [Hlt _].
    rewrite decide_True by lia.
    eexists; split; [reflexivity|].
    rewrite forallb_leading_ones. split.
    + intros H0. right. apply Forall_forall. intros i Hi.
      destruct (Hall _ Hi) as [_ Heq]. unfold leading_ones in *. by rewrite Heq.
    + intros [?|H]; [done|]. rewrite Forall_forall in H. by apply H.
Qed.

Lemma opcode_of_ok (g : graph) (n : node_id) (nd : node) :
  g !! n = Some nd → opcode_of g n = Ok (runtime_opcode nd).
Proof. intros H. unfold opcode_of, get_node. by rewrite H. Qed.

Lemma concat_input_ok_spec (g : graph) (bufs : buffer_map) (i : input_connector) :
  input_resolves g bufs i →
  ∃ b, concat_input_ok g bufs i = Ok b ∧ (b = true ↔ concat_input_rule g bufs i).
Proof.
  intros (src & Hsrc & [buf Hbuf] & [nd Hnd]).
  unfold concat_input_ok, concat_input_rule, tagged, opcode_at, buf_at.
  rewrite Hsrc; simpl. rewrite Hbuf; simpl.
  destruct (decide (memory_location buf = mem_input)) as [Ei|Ei].
  { exists false. rewrite bool_decide_eq_false_2 by (by intros ?). simpl.
    split; [done|]. split; [done|]. intros H. destruct (H _ eq_refl) as (H1 & _).
    rewrite Hbuf in H1. simpl in H1. congruence. }
  destruct (decide (memory_location buf = mem_rdata)) as [Er|Er].
  { exists false. rewrite (bool_decide_eq_false_2 (_ ≠ mem_rdata)) by (by intros ?).
    rewrite andb_false_r.
    split; [done|]. split; [done|]. intros H. destruct (H _ eq_refl) as (_ & H1 & _).
    rewrite Hbuf in H1. simpl in H1. congruence. }
  rewrite !bool_decide_eq_true_2 by done. simpl.
  rewrite (opcode_of_ok _ _ _ Hnd); simpl.
  eexists; split; [reflexivity|].
  rewrite bool_decide_eq_true. split.
  - intros Hop src' [= <-]. rewrite Hbuf, Hnd; simpl.
    repeat split; congruence.
  - intros H. destruct (H _ eq_refl) as (_ & _ & H3). rewrite Hnd in H3. simpl in H3.
    congruence.
Qed.

Lemma concat_consumers_spec (g : graph) (outs : list (node_id * nat)) :
  Forall (λ consumer, is_Some (g !! consumer.1)) outs →
  concat_consumers g outs
  = Ok (length (filter (λ consumer, opcode_at g consumer.1 = Some op_concat) outs)).
Proof.
  intros H. unfold concat_consumers. apply count_ifM_spec.
  eapply Forall_impl; [exact H|]. intros [p k] [nd Hnd]; simpl in *.
  rewrite (opcode_of_ok _ _ _ Hnd); simpl. f_equal.
  unfold opcode_at. rewrite Hnd; simpl.
  apply bool_decide_ext. split; congruence.
Qed.

(** C4.  The concat rule.  For a concat node that still has its action
    bit, whose input shapes agree before the axis and whose pointers lead
    somewhere, the analyser leaves the buffers alone, and the action bit is
    clear afterwards if and only if: the axis is 0 or every dimension before
    the axis is one in the input shapes; no input buffer is tagged [input] or
    [rdata] or produced by a slice; and fewer than two consumers of the
    output are concats. *)
Theorem concat_rule (g : graph) (bufs : buffer_map) (n : node_id) (c : node)
    (oc : output_connector) :
  g !! n = Some c →
  runtime_opcode c = op_concat →
  has_action c = true →
  outputs c !! 0%nat = Some oc →
  concat_shapes_agree c →
  Forall (input_resolves g bufs) (inputs c) →
  Forall (λ consumer, is_Some (g !! consumer.1)) (connections oc) →
  ∃ g', analyze_node (g, bufs) n = Ok (g', bufs)
        ∧ (action_at g' n = Some false ↔ concat_view_rule g bufs c oc).
Proof.
  intros Hn Hop Hact Hoc Hshapes Hins Houts.
  unfold analyze_node; simpl.
  rewrite (proj2 (get_node_ok _ _ _) Hn); simpl.
  rewrite decide_False by congruence. rewrite decide_True by done.
  unfold analyze_concat. rewrite Hoc; simpl.
  destruct (concat_axis_ok_spec c Hshapes) as (r1 & -> & H1); simpl.
  destruct (all_ofM_spec (concat_input_ok g bufs) (concat_input_rule g bufs) (inputs c))
    as (r2 & Hr2 & H2).
  { eapply Forall_impl; [exact Hins|]. apply concat_input_ok_spec. }
  assert (Hkeep : action_at g n ≠ Some false).
  { unfold action_at. rewrite Hn. simpl. congruence. }
  unfold concat_view_rule.
  destruct r1.
  2:{ exists g. split; [done|]. split; [done|]. intros (H & _). apply H1 in H. done. }
  rewrite Hr2; simpl. destruct r2.
  2:{ exists g. split; [done|]. split; [done|]. intros (_ & H & _). apply H2 in H. done. }
  rewrite (concat_consumers_spec _ _ Houts); simpl.
  case_decide as Hcnt.
  - eexists; split; [reflexivity|]. split.
    + intros _. repeat split; [by apply H1 | by apply H2 | done].
    + intros _. unfold action_at.
      rewrite list_lookup_insert_eq by (by eapply lookup_lt_Some).
      simpl. by rewrite has_action_clear.
  - exists g. split; [done|]. split; [done|]. intros (_ & _ & H). done.
Qed.

Lemma concat_rule_witness :
  ∃ g', analyze_node (concat_graph, concat_buffers) 2%nat = Ok (g', concat_buffers)
        ∧ action_at g' 2%nat = Some false.
Proof.
  destruct (concat_rule concat_graph concat_buffers 2%nat
              (concat_node 0 [2; 3] concat_inputs [concat_output]) concat_output
              eq_refl eq_refl eq_refl eq_refl) as (g' & Hrun & Hiff).
  - exists {| in_shape := [2; 4]; connection := Some (0, 0)%nat |}.
    split; [reflexivity|]. repeat constructor.
  - repeat constructor; eexists; (split; [reflexivity|]); split; vm_compute; eauto.
  - repeat constructor; vm_compute; eauto.
  - exists g'. split; [exact Hrun|]. apply Hiff. split; [by left|]. split.
    + repeat (first [apply Forall_nil_2 | apply Forall_cons_2]);
        intros src [= <-]; vm_compute; repeat split; congruence.
    + vm_compute. lia.
Defined.
Lemma set_parent_same (b : logical_buffer) : set_parent (lb_parent b) b = b.
Proof. by destruct b. Qed.

Lemma chain_top_has_parent bufs x t n :
  chain_top bufs x t n → ∃ lb d, bufs !! x = Some lb ∧ lb_parent lb = Some d.
Proof. destruct 1; eauto. Qed.

Lemma chain_top_fun bufs x t n t' n' :
  chain_top bufs x t n → chain_top bufs x t' n' → t = t' ∧ n = n'.
Proof.
  intros H. revert t' n'. induction H as [x lb t Hx Hp (r & Hr & Hrp)|x lb d t n Hx Hp H IH];
    intros t' n' H'; inversion H' as [? lb' ? Hx' Hp' Hroot'|? lb' d' ? m Hx' Hp' H'']; subst.
  - split; congruence.
  - assert (d' = t) as -> by congruence.
    destruct (chain_top_has_parent _ _ _ _ H'') as (? & ? & ? & ?). congruence.
  - assert (d = t') as -> by congruence.
    destruct Hroot' as (r & Hr & Hrp).
    destruct (chain_top_has_parent _ _ _ _ H) as (? & ? & ? & ?). congruence.
  - assert (d' = d) as -> by congruence.
    destruct (IH _ _ H'') as [-> ->]. done.
Qed.

(** One iteration of the inner loop of the first pass. *)
Lemma chain_top_step bufs k b pd pb pp :
  bufs !! k = Some b → lb_parent b = Some pd →
  bufs !! parent pd = Some pb → lb_parent pb = Some pp →
  ∀ x t n, chain_top bufs x t n →
    ∃ n', chain_top (<[k := set_parent (Some pp) b]> bufs) x t n'
          ∧ (n' ≤ n)%nat ∧ (x = k → (n' < n)%nat).
Proof.
  intros Hk Hb Hpb Hpp x t n H.
  induction H as [x lb t Hx Hp (r & Hr & Hrp)|x lb d t n Hx Hp H (n' & IH & Hle & Hlt)].
  - assert (x ≠ k) by (intros ->; congruence).
    assert (parent t ≠ k) by (intros E; rewrite E in Hr; congruence).
    exists 0%nat. split; [|split; [lia|done]].
    eapply chain_top_here; [by rewrite lookup_insert_ne|done|].
    exists r. by rewrite lookup_insert_ne.
  - destruct (decide (x = k)) as [->|Hne].
    + assert (lb = b) as -> by congruence. assert (d = pd) as -> by congruence.
      destruct (decide (parent pd = k)) as [E|E].
      * rewrite E in Hpb. assert (pb = b) as -> by congruence.
        assert (pp = pd) as -> by congruence.
        rewrite E in IH. exists n'. split; [done|]. split; lia.
      * inversion IH as [? lb' ? Hx' Hp' Hroot'|? lb' d' ? m Hx' Hp' H'']; subst;
          rewrite lookup_insert_ne in Hx' by done;
          assert (lb' = pb) as -> by congruence.
        -- assert (t = pp) as -> by congruence.
           exists 0%nat. split; [|split; lia].
           eapply chain_top_here; [by rewrite lookup_insert_eq|done|done].
        -- assert (d' = pp) as -> by congruence.
           exists (S m). split; [|split; lia].
           eapply chain_top_up; [by rewrite lookup_insert_eq|done|done].
    + exists (S n'). split; [|split; [lia|done]].
      eapply chain_top_up; [by rewrite lookup_insert_ne|done|done].
Qed.

Lemma same_but_parents_refl bufs : same_but_parents bufs bufs.
Proof. by intros x. Qed.

Lemma same_but_parents_trans b1 b2 b3 :
  same_but_parents b1 b2 → same_but_parents b2 b3 → same_but_parents b1 b3.
Proof.
  intros H12 H23 x. destruct (H12 x) as [E1 I1], (H23 x) as [E2 I2].
  split; [congruence|tauto].
Qed.

Lemma same_but_parents_insert bufs k b p :
  bufs !! k = Some b → is_Some (lb_parent b) →
  same_but_parents bufs (<[k := set_parent (Some p) b]> bufs).
Proof.
  intros Hk [d Hd] x. destruct (decide (x = k)) as [->|Hne].
  - rewrite lookup_insert_eq, Hk. simpl. rewrite Hd. split; [done|]. split; intros [=].
  - by rewrite lookup_insert_ne.
Qed.

Lemma same_but_parents_lookup bufs bufs' x lb :
  same_but_parents bufs bufs' → bufs !! x = Some lb →
  ∃ lb', bufs' !! x = Some lb' ∧ set_parent None lb' = set_parent None lb
         ∧ (lb_parent lb' = None ↔ lb_parent lb = None).
Proof.
  intros H Hx. destruct (H x) as [E I]. rewrite Hx in E, I. simpl in *.
  destruct (bufs' !! x) as [lb'|]; [|done]. simpl in *.
  exists lb'. split; [done|]. split; [congruence|].
  split; intros Hn.
  - assert (Some (lb_parent lb') = Some None) as Hs by congruence.
    apply I in Hs. congruence.
  - assert (Some (lb_parent lb) = Some None) as Hs by congruence.
    apply I in Hs. congruence.
Qed.

Lemma same_but_parents_sym bufs bufs' :
  same_but_parents bufs bufs' → same_but_parents bufs' bufs.
Proof. intros H x. destruct (H x) as [E I]. split; [done|tauto]. Qed.

Lemma assign_parent_root fuel bufs k b :
  bufs !! k = Some b → lb_parent b = None →
  assign_parent (S fuel) bufs k = Ok bufs.
Proof. intros Hk Hb. simpl. unfold buf_at. rewrite Hk. simpl. by rewrite Hb. Qed.

Lemma assign_parent_flattens n : ∀ fuel bufs k t,
  chain_top bufs k t n → (n < fuel)%nat →
  ∃ bufs', assign_parent fuel bufs k = Ok bufs'
    ∧ chain_top bufs' k t 0
    ∧ same_but_parents bufs bufs'
    ∧ ∀ x t' m, chain_top bufs x t' m → ∃ m', chain_top bufs' x t' m' ∧ (m' ≤ m)%nat.
Proof.
  induction n as [n IH] using lt_wf_ind. intros fuel bufs k t H Hfuel.
  destruct fuel as [|fuel]; [lia|].
  inversion H as [? lb ? Hk Hp (r & Hr & Hrp)|? lb d ? m Hk Hp H']; subst; simpl;
    unfold buf_at; rewrite Hk; simpl; rewrite Hp.
  - rewrite Hr; simpl. rewrite Hrp. exists bufs.
    split; [done|]. split; [done|]. split; [apply same_but_parents_refl|].
    intros x t' m Hx. exists m. by split.
  - destruct (chain_top_has_parent _ _ _ _ H') as (pb & pp & Hpb & Hpp).
    rewrite Hpb; simpl. rewrite Hpp.
    destruct (chain_top_step bufs k lb d pb pp Hk Hp Hpb Hpp k t (S m) H)
      as (n' & Hn' & Hle & Hlt).
    specialize (Hlt eq_refl).
    destruct (IH n' ltac:(lia) fuel _ k t Hn' ltac:(lia)) as (bufs' & Hrun & Htop & Hsame & Hpres).
    exists bufs'. split; [done|]. split; [done|]. split.
    + eapply same_but_parents_trans; [|exact Hsame].
      apply same_but_parents_insert; eauto.
    + intros x t' m0 Hx.
      destruct (chain_top_step bufs k lb d pb pp Hk Hp Hpb Hpp x t' m0 Hx) as (m1 & H1 & Hle1 & _).
      destruct (Hpres _ _ _ H1) as (m2 & H2 & Hle2).
      exists m2. split; [done|lia].
Qed.

Lemma assign_parents_fold fuel : ∀ order bufs,
  chains_end bufs →
  (∀ k, k ∈ order → is_Some (bufs !! k)) →
  (∀ x t n, chain_top bufs x t n → (n < fuel)%nat) →
  (0 < fuel)%nat →
  ∃ bufs', foldM (assign_parent fuel) bufs order = Ok bufs'
    ∧ same_but_parents bufs bufs'
    ∧ ∀ x t m, chain_top bufs x t m →
        ∃ m', chain_top bufs' x t m' ∧ (m' ≤ m)%nat ∧ (x ∈ order → m' = 0%nat).
Proof.
  induction order as [|k order IH]; intros bufs Hend Hkeys Hbound Hfuel; simpl.
  - exists bufs. split; [done|]. split; [apply same_but_parents_refl|].
    intros x t m H. exists m. split; [done|]. split; [lia|]. by intros ?%elem_of_nil.
  - destruct (Hkeys k ltac:(left)) as [b Hk].
    assert (Hstep : ∃ bufs1, assign_parent fuel bufs k = Ok bufs1
              ∧ same_but_parents bufs bufs1
              ∧ (∀ x t m, chain_top bufs x t m →
                   ∃ m', chain_top bufs1 x t m' ∧ (m' ≤ m)%nat ∧ (x = k → m' = 0%nat))).
    { destruct (lb_parent b) as [d|] eqn:Hp.
      - destruct (Hend k b Hk ltac:(by rewrite Hp)) as (t & n & Hc).
        destruct (assign_parent_flattens n fuel bufs k t Hc (Hbound _ _ _ Hc))
          as (bufs1 & Hrun & Htop & Hsame & Hpres).
        exists bufs1. split; [done|]. split; [done|].
        intros x t' m Hx. destruct (Hpres _ _ _ Hx) as (m' & Hm' & Hle).
        exists m'. split; [done|]. split; [done|]. intros ->.
        destruct (chain_top_fun _ _ _ _ _ _ Hx Hc) as [-> ->].
        by destruct (chain_top_fun _ _ _ _ _ _ Hm' Htop) as [_ ->].
      - destruct fuel as [|fuel]; [lia|].
        exists bufs. split; [by eapply assign_parent_root|].
        split; [apply same_but_parents_refl|].
        intros x t m Hx. exists m. split; [done|]. split; [lia|]. intros ->.
        destruct (chain_top_has_parent _ _ _ _ Hx) as (? & ? & ? & ?). congruence. }
    destruct Hstep as (bufs1 & Hrun & Hsame & Hpres). rewrite Hrun; simpl.
    assert (Hlift : ∀ x t1 n1, chain_top bufs1 x t1 n1 →
              ∃ n, chain_top bufs x t1 n ∧ (n1 ≤ n)%nat).
    { intros x t1 n1 H1.
      destruct (chain_top_has_parent _ _ _ _ H1) as (lb1 & d1 & Hx1 & Hd1).
      destruct (same_but_parents_lookup _ _ _ _ (same_but_parents_sym _ _ Hsame) Hx1)
        as (lb & Hx & _ & Hiff).
      destruct (Hend x lb Hx) as (t & n & Hc).
      { destruct (lb_parent lb); [done|]. destruct Hiff as [Hiff _].
        rewrite Hiff in Hd1 by done. done. }
      destruct (Hpres _ _ _ Hc) as (m' & Hm' & Hle & _).
      destruct (chain_top_fun _ _ _ _ _ _ H1 Hm') as [-> ->]. eauto. }
    destruct (IH bufs1) as (bufs' & Hrun' & Hsame' & Hpres'); [| | |done|].
    + intros x lb1 Hx1 Hp1.
      destruct (same_but_parents_lookup _ _ _ _ (same_but_parents_sym _ _ Hsame) Hx1)
        as (lb & Hx & _ & Hiff).
      destruct (Hend x lb Hx) as (t & n & Hc).
      { destruct (lb_parent lb); [done|]. destruct Hiff as [Hiff _].
        rewrite Hiff in Hp1 by done. by destruct Hp1. }
      destruct (Hpres _ _ _ Hc) as (m' & Hm' & _). eauto.
    + intros k' Hk'. destruct (Hkeys k' ltac:(by right)) as [b' Hb'].
      destruct (same_but_parents_lookup _ _ _ _ Hsame Hb') as (? & ? & _). eauto.
    + intros x t1 n1 H1. destruct (Hlift _ _ _ H1) as (n & Hc & Hle).
      specialize (Hbound _ _ _ Hc). lia.
    + exists bufs'. split; [done|]. split; [by eapply same_but_parents_trans|].
      intros x t m Hx. destruct (Hpres _ _ _ Hx) as (m1 & H1 & Hle1 & Hz1).
      destruct (Hpres' _ _ _ H1) as (m2 & H2 & Hle2 & Hz2).
      exists m2. split; [done|]. split; [lia|].
      intros [->|Hin]%elem_of_cons; [specialize (Hz1 eq_refl); lia | auto].
Qed.
Lemma chain_top_root bufs x t n : chain_top bufs x t n → is_root bufs (parent t).
Proof. induction 1; auto. Qed.

Lemma chain_top_keys bufs x t n :
  chain_top bufs x t n →
  ∃ l : list (nat * nat),
    length l = S (S n) ∧ NoDup l
    ∧ ∀ y, y ∈ l → is_Some (bufs !! y)
                   ∧ (y = parent t ∨ ∃ m, (m ≤ n)%nat ∧ chain_top bufs y t m).
Proof.
  induction 1 as [x lb t Hx Hp (r & Hr & Hrp)|x lb d t n Hx Hp H (l & Hlen & Hnd & Hl)].
  - exists [x; parent t]. split; [done|]. split.
    + apply NoDup_cons. split; [|apply NoDup_singleton].
      intros Hy. apply list_elem_of_singleton in Hy as ->. congruence.
    + intros y [->|Hy]%elem_of_cons.
      * split; [eauto|]. right. exists 0%nat. split; [lia|].
        eapply chain_top_here; eauto. by exists r.
      * apply list_elem_of_singleton in Hy as ->. split; [eauto|]. by left.
  - exists (x :: l). split; [simpl; lia|]. split.
    + apply NoDup_cons. split; [|done]. intros Hin.
      destruct (Hl _ Hin) as [_ [->|(m & Hm & Hc)]].
      * destruct (chain_top_root _ _ _ _ H) as (r & Hr & Hrp). congruence.
      * assert (Hc' : chain_top bufs x t (S n)) by (eapply chain_top_up; eauto).
        destruct (chain_top_fun _ _ _ _ _ _ Hc Hc') as [_ ->]. lia.
    + intros y [->|Hin]%elem_of_cons.
      * split; [eauto|]. right. exists (S n). split; [lia|]. eapply chain_top_up; eauto.
      * destruct (Hl _ Hin) as [Hs [->|(m & Hm & Hc)]]; (split; [done|]); [by left|].
        right. exists m. split; [lia|done].
Qed.

Lemma chain_top_bound (bufs : buffer_map) x t n :
  chain_top bufs x t n → (S n < size bufs)%nat.
Proof.
  intros H. destruct (chain_top_keys _ _ _ _ H) as (l & Hlen & Hnd & Hl).
  assert (Hsub : (list_to_set l : gset (nat * nat)) ⊆ dom bufs).
  { intros y Hy. apply elem_of_list_to_set in Hy. apply elem_of_dom. by apply Hl. }
  apply subseteq_size in Hsub.
  rewrite size_list_to_set, size_dom in Hsub by done. lia.
Qed.

Lemma chain_top_ancestor bufs x t n :
  chain_top bufs x t n →
  ∃ a la, ancestor bufs x n a ∧ bufs !! a = Some la ∧ lb_parent la = Some t.
Proof.
  induction 1 as [x lb t Hx Hp Hr|x lb d t n Hx Hp H (a & la & Ha & Hla & Hpa)].
  - exists x, lb. split; [constructor|done].
  - exists a, la. split; [|done]. eapply ancestor_up; eauto.
Qed.

Lemma assign_parents_ok (order : list connector) (bufs : buffer_map) :
  chains_end bufs →
  (∀ k, k ∈ order → is_Some (bufs !! k)) →
  ∃ bufs', assign_parents order bufs = Ok bufs'
    ∧ same_but_parents bufs bufs'
    ∧ ∀ x t m, chain_top bufs x t m →
        ∃ m', chain_top bufs' x t m' ∧ (m' ≤ m)%nat ∧ (x ∈ order → m' = 0%nat).
Proof.
  intros Hend Hkeys. unfold assign_parents.
  destruct order as [|k order].
  { exists bufs. split; [done|]. split; [apply same_but_parents_refl|].
    intros x t m H. exists m. split; [done|]. split; [lia|]. by intros ?%elem_of_nil. }
  apply assign_parents_fold; [done|done| |].
  - intros x t n H. apply chain_top_bound in H. lia.
  - destruct (Hkeys k ltac:(left)) as [b Hb].
    destruct (decide (size bufs = 0%nat)) as [E|E]; [|lia].
    apply map_size_empty_iff in E. subst. by rewrite lookup_empty in Hb.
Qed.
(** Changing the begin of a buffer that is not directly below a root
    changes no chain. *)
Lemma chain_top_begin_irrelevant bufs b lb d pb d1 beg :
  bufs !! b = Some lb → lb_parent lb = Some d →
  bufs !! parent d = Some pb → lb_parent pb = Some d1 →
  ∀ x t n, chain_top bufs x t n →
    chain_top (<[b := set_parent (Some {| parent := parent d; begin := beg |}) lb]> bufs) x t n.
Proof.
  intros Hb Hd Hpb Hd1 x t n H.
  induction H as [x lx t Hx Hp (r & Hr & Hrp)|x lx dx t n Hx Hp H IH].
  - assert (x ≠ b).
    { intros ->. assert (lx = lb) as -> by congruence.
      assert (t = d) as -> by congruence. congruence. }
    assert (parent t ≠ b) by (intros E; rewrite E in Hr; congruence).
    eapply chain_top_here; [by rewrite lookup_insert_ne|done|].
    exists r. by rewrite lookup_insert_ne.
  - destruct (decide (x = b)) as [->|Hne].
    + assert (lx = lb) as -> by congruence. assert (dx = d) as -> by congruence.
      eapply chain_top_up; [by rewrite lookup_insert_eq|done|done].
    + eapply chain_top_up; [by rewrite lookup_insert_ne|done|done].
Qed.

(** C10.  Root promotion overwrites the whole descriptor of a buffer whose
    parent has a parent: afterwards the descriptor (pointer and begin) is
    the one stored, before the pass, on the ancestor [a] that sits directly
    below the alias root; whatever begin the buffer itself carried has no
    influence on the outcome. *)
Theorem root_promotion_copies_ancestor (order : list connector) (bufs : buffer_map)
    (b : connector) (lb : logical_buffer) (d : parent_desc)
    (pb : logical_buffer) (d1 : parent_desc) :
  chains_end bufs →
  enumerates order bufs →
  bufs !! b = Some lb → lb_parent lb = Some d →
  bufs !! parent d = Some pb → lb_parent pb = Some d1 →
  ∃ bufs' n a la t,
    assign_parents order bufs = Ok bufs'
    ∧ ancestor bufs (parent d) n a
    ∧ bufs !! a = Some la ∧ lb_parent la = Some t
    ∧ is_root bufs (parent t)
    ∧ parent_of bufs' b = Some (Some t)
    ∧ ∀ beg, ∃ bufs'',
        assign_parents order
          (<[b := set_parent (Some {| parent := parent d; begin := beg |}) lb]> bufs)
        = Ok bufs''
        ∧ parent_of bufs'' b = Some (Some t).
Proof.
  intros Hend Henum Hb Hd Hpb Hd1.
  destruct (Hend _ _ Hpb ltac:(by rewrite Hd1)) as (t & n & Hc).
  assert (Hcb : chain_top bufs b t (S n)) by (eapply chain_top_up; eauto).
  destruct (assign_parents_ok order bufs Hend) as (bufs' & Hrun & _ & Hpres).
  { intros k Hk. by apply Henum. }
  destruct (chain_top_ancestor _ _ _ _ Hc) as (a & la & Ha & Hla & Hpa).
  assert (Hin : b ∈ order) by (apply Henum; eauto).
  assert (Hread : ∀ m : buffer_map, chain_top m b t 0 → parent_of m b = Some (Some t)).
  { intros m Hm. inversion Hm as [? lm ? Hx Hp _|]; subst.
    unfold parent_of. rewrite Hx. simpl. by rewrite Hp. }
  exists bufs', n, a, la, t. split; [done|]. split; [done|]. split; [done|].
  split; [done|]. split; [by eapply chain_top_root|]. split.
  - destruct (Hpres _ _ _ Hcb) as (m' & Hm' & _ & Hz). rewrite (Hz Hin) in Hm'. auto.
  - intros beg.
    set (bufs2 := <[b := set_parent (Some {| parent := parent d; begin := beg |}) lb]> bufs).
    assert (Hlift : ∀ x t' m, chain_top bufs x t' m → chain_top bufs2 x t' m).
    { by eapply chain_top_begin_irrelevant. }
    destruct (assign_parents_ok order bufs2) as (bufs'' & Hrun2 & _ & Hpres2).
    + intros x lx Hx Hp. destruct (decide (x = b)) as [->|Hne].
      * exists t, (S n). by apply Hlift.
      * unfold bufs2 in Hx. rewrite lookup_insert_ne in Hx by done.
        destruct (Hend _ _ Hx Hp) as (t' & m & Hc'). exists t', m. by apply Hlift.
    + intros k Hk. apply Henum in Hk. unfold bufs2.
      destruct (decide (k = b)) as [->|Hne];
        [rewrite lookup_insert_eq; eauto | by rewrite lookup_insert_ne].
    + exists bufs''. split; [done|].
      destruct (Hpres2 _ _ _ (Hlift _ _ _ Hcb)) as (m' & Hm' & _ & Hz).
      rewrite (Hz Hin) in Hm'. auto.
Qed.
Lemma enumerates_elements (bufs : buffer_map) : enumerates (elements (dom bufs)) bufs.
Proof. intros k. by rewrite elem_of_elements, elem_of_dom. Qed.

Lemma chain_buffers_end : chains_end chain_buffers.
Proof.
  assert (H0 : is_root chain_buffers (0, 0)%nat) by (eexists; split; reflexivity).
  assert (H1 : chain_top chain_buffers (1, 0)%nat {| parent := (0, 0)%nat; begin := [2] |} 0).
  { eapply chain_top_here; [reflexivity|reflexivity|exact H0]. }
  assert (H2 : chain_top chain_buffers (2, 0)%nat {| parent := (0, 0)%nat; begin := [2] |} 1).
  { eapply chain_top_up; [reflexivity|reflexivity|exact H1]. }
  intros x lb Hx Hp. unfold chain_buffers in Hx.
  rewrite !lookup_insert in Hx.
  repeat case_decide; subst; eauto.
  apply lookup_singleton_Some in Hx as [<- <-]. by destruct Hp.
Qed.

Lemma root_promotion_copies_ancestor_witness :
  ∃ bufs',
    assign_parents (elements (dom chain_buffers)) chain_buffers = Ok bufs'
    ∧ parent_of bufs' (2, 0)%nat = Some (Some {| parent := (0, 0)%nat; begin := [2] |}).
Proof.
  destruct (root_promotion_copies_ancestor (elements (dom chain_buffers)) chain_buffers
              (2, 0)%nat
              (with_parent (1, 0)%nat [1] (tensor_buffer 2 (2, 0)%nat mem_data [2]))
              {| parent := (1, 0)%nat; begin := [1] |}
              (with_parent (0, 0)%nat [2] (tensor_buffer 1 (1, 0)%nat mem_data [4]))
              {| parent := (0, 0)%nat; begin := [2] |}
              chain_buffers_end (enumerates_elements _)
              eq_refl eq_refl eq_refl eq_refl)
    as (bufs' & n & a & la & t & Hrun & _ & _ & _ & _ & Hres & _).
  exists bufs'. split; [exact Hrun|].
  rewrite Hres. vm_compute in Hrun. injection Hrun as <-.
  vm_compute in Hres. by injection Hres as <-.
Defined.
Lemma closed_over_start (F : buffer_map) : closed_over F [] F.
Proof.
  split; [done|]. intros r lr Hr Hp. exists lr.
  split; [done|]. split; [done|]. split; [split; lia|].
  split; [by intros c lc ?%elem_of_nil|]. split; by left.
Qed.

Lemma extend_lifetime_step (F : buffer_map) (seen : list connector) (cur : buffer_map)
    (k : connector) :
  flat F → closed_over F seen cur → is_Some (F !! k) →
  ∃ cur', extend_lifetime cur k = Ok cur' ∧ closed_over F (seen ++ [k]) cur'.
Proof.
  intros Hflat [Ha Hb] [lk Hk]. unfold extend_lifetime, buf_at.
  destruct (lb_parent lk) as [t|] eqn:Hp.
  - (* an alias: its root takes the union *)
    rewrite (Ha _ _ Hk) by (by rewrite Hp). simpl. rewrite Hp.
    destruct (Hflat _ _ _ Hk Hp) as (lr & Hr & Hrp).
    destruct (Hb _ _ Hr Hrp) as (lr' & Hr' & Hrp' & [Hc1 Hc2] & Hseen & Hbirth & Hend).
    rewrite Hr'. simpl. eexists. split; [reflexivity|].
    set (nl := {| birth := N.min (birth (lifetime lk)) (birth (lifetime lr'));
                  age := N.max (lt_end (lifetime lk)) (lt_end (lifetime lr'))
                         - N.min (birth (lifetime lk)) (birth (lifetime lr'));
                  used_count := used_count (lifetime lr') |}).
    assert (Hnb : birth nl = N.min (birth (lifetime lk)) (birth (lifetime lr'))) by done.
    assert (Hne : lt_end nl = N.max (lt_end (lifetime lk)) (lt_end (lifetime lr'))).
    { unfold lt_end in *. simpl. lia. }
    split.
    + intros x lb Hx Hpx. rewrite lookup_insert_ne; [by apply Ha|].
      intros <-. rewrite Hr in Hx. injection Hx as <-. rewrite Hrp in Hpx. by destruct Hpx.
    + intros r lr0 Hr0 Hrp0. destruct (decide (r = parent t)) as [->|Hne'].
      * assert (lr0 = lr) as -> by congruence.
        rewrite lookup_insert_eq. eexists. split; [reflexivity|]. split; [done|].
        simpl. fold nl. unfold covers in *. rewrite Hnb, Hne.
        split; [lia|]. split; [|split].
        -- intros c lc [Hin|Hin]%elem_of_app Hal.
           ++ destruct (Hseen _ _ Hin Hal). lia.
           ++ apply list_elem_of_singleton in Hin as ->.
              destruct Hal as [Hc _]. assert (lc = lk) as -> by congruence. lia.
        -- destruct (N.min_spec (birth (lifetime lk)) (birth (lifetime lr'))) as [[_ ->]|[_ ->]].
           ++ right. exists k, lk. split; [apply elem_of_app; right; by left|].
              split; [|done]. split; [done|]. by exists t.
           ++ destruct Hbirth as [->|(c & lc & Hin & Hal & ->)]; [by left|].
              right. exists c, lc. split; [apply elem_of_app; by left|done].
        -- destruct (N.max_spec (lt_end (lifetime lk)) (lt_end (lifetime lr'))) as [[_ ->]|[_ ->]].
           ++ destruct Hend as [->|(c & lc & Hin & Hal & ->)]; [by left|].
              right. exists c, lc. split; [apply elem_of_app; by left|done].
           ++ right. exists k, lk. split; [apply elem_of_app; right; by left|].
              split; [|done]. split; [done|]. by exists t.
      * rewrite lookup_insert_ne by done.
        destruct (Hb _ _ Hr0 Hrp0) as (l0 & H0 & Hp0 & Hcov & Hseen0 & Hbirth0 & Hend0).
        exists l0. split; [done|]. split; [done|]. split; [done|]. split; [|split].
        -- intros c lc [Hin|Hin]%elem_of_app Hal; [by eapply Hseen0|].
           apply list_elem_of_singleton in Hin as ->.
           destruct Hal as [Hc (t' & Ht' & Hpt')]. congruence.
        -- destruct Hbirth0 as [->|(c & lc & Hin & Hal & ->)]; [by left|].
           right. exists c, lc. split; [apply elem_of_app; by left|done].
        -- destruct Hend0 as [->|(c & lc & Hin & Hal & ->)]; [by left|].
           right. exists c, lc. split; [apply elem_of_app; by left|done].
  - (* a root: nothing happens *)
    destruct (Hb _ _ Hk Hp) as (lr' & Hr' & Hrp' & _).
    rewrite Hr'. simpl. rewrite Hrp'. exists cur. split; [done|].
    split; [done|]. intros r lr0 Hr0 Hrp0.
    destruct (Hb _ _ Hr0 Hrp0) as (l0 & H0 & Hp0 & Hcov & Hseen0 & Hbirth0 & Hend0).
    exists l0. split; [done|]. split; [done|]. split; [done|]. split; [|split].
    + intros c lc [Hin|Hin]%elem_of_app Hal; [by eapply Hseen0|].
      apply list_elem_of_singleton in Hin as ->.
      destruct Hal as [Hc (t' & Ht' & _)]. congruence.
    + destruct Hbirth0 as [->|(c & lc & Hin & Hal & ->)]; [by left|].
      right. exists c, lc. split; [apply elem_of_app; by left|done].
    + destruct Hend0 as [->|(c & lc & Hin & Hal & ->)]; [by left|].
      right. exists c, lc. split; [apply elem_of_app; by left|done].
Qed.

Lemma extend_lifetime_fold (F : buffer_map) : ∀ (rest seen : list connector) (cur : buffer_map),
  flat F → closed_over F seen cur → (∀ k, k ∈ rest → is_Some (F !! k)) →
  ∃ fin, foldM extend_lifetime cur rest = Ok fin ∧ closed_over F (seen ++ rest) fin.
Proof.
  induction rest as [|k rest IH]; intros seen cur Hflat Hinv Hkeys; simpl.
  - exists cur. by rewrite app_nil_r.
  - destruct (extend_lifetime_step F seen cur k Hflat Hinv) as (cur' & Hrun & Hinv').
    { apply Hkeys. by left. }
    rewrite Hrun. simpl.
    destruct (IH (seen ++ [k]) cur' Hflat Hinv') as (fin & Hfin & Hclosed).
    { intros k' Hk'. apply Hkeys. by right. }
    exists fin. split; [done|]. by rewrite <- app_assoc in Hclosed.
Qed.
Lemma chain_top_ancestor_root bufs x t n :
  chain_top bufs x t n → ancestor bufs x (S n) (parent t).
Proof.
  induction 1 as [x lb t Hx Hp Hr|x lb d t n Hx Hp H IH].
  - eapply ancestor_up; [done|done|constructor].
  - eapply ancestor_up; eauto.
Qed.

Lemma same_but_parents_lifetime (lb lb' : logical_buffer) :
  set_parent None lb' = set_parent None lb → lifetime lb' = lifetime lb.
Proof. destruct lb, lb'. simpl. by intros [=]. Qed.

(** C5.  After [fix_lifetime], a buffer that had a parent points at the
    buffer at the end of its parent chain, which has no parent; its own
    lifetime is as before, and the root's interval contains it.  The
    interval of a root contains the root's old interval, and its birth and
    end are the old ones or those of one of its aliases: the interval is
    the union, no larger. *)
Theorem fix_lifetime_closes (order : list connector) (bufs : buffer_map) :
  chains_end bufs →
  enumerates order bufs →
  ∃ bufs',
    fix_lifetime order bufs = Ok bufs'
    ∧ (∀ b lb, bufs !! b = Some lb → is_Some (lb_parent lb) →
         ∃ lb' t r n,
           bufs' !! b = Some lb' ∧ lb_parent lb' = Some t
           ∧ ancestor bufs b (S n) (parent t) ∧ is_root bufs (parent t)
           ∧ bufs' !! parent t = Some r ∧ lb_parent r = None
           ∧ lifetime lb' = lifetime lb
           ∧ covers (lifetime r) (lifetime lb'))
    ∧ (∀ r lr, bufs !! r = Some lr → lb_parent lr = None →
         ∃ lr',
           bufs' !! r = Some lr' ∧ lb_parent lr' = None
           ∧ covers (lifetime lr') (lifetime lr)
           ∧ (birth (lifetime lr') = birth (lifetime lr)
              ∨ ∃ c lc, alias_of bufs' r c lc
                        ∧ birth (lifetime lr') = birth (lifetime lc))
           ∧ (lt_end (lifetime lr') = lt_end (lifetime lr)
              ∨ ∃ c lc, alias_of bufs' r c lc
                        ∧ lt_end (lifetime lr') = lt_end (lifetime lc))).
Proof.
  intros Hend Henum.
  destruct (assign_parents_ok order bufs Hend) as (bufs1 & Hrun1 & Hsame & Hpres).
  { intros k Hk. by apply Henum. }
  assert (Htop : ∀ x t m, chain_top bufs x t m → chain_top bufs1 x t 0).
  { intros x t m Hc. destruct (Hpres _ _ _ Hc) as (m' & Hm' & _ & Hz).
    rewrite Hz in Hm'; [done|]. apply Henum.
    destruct (chain_top_has_parent _ _ _ _ Hc) as (? & ? & ? & _). eauto. }
  assert (Hflat : flat bufs1).
  { intros x lb1 t1 Hx1 Hp1.
    destruct (same_but_parents_lookup _ _ _ _ (same_but_parents_sym _ _ Hsame) Hx1)
      as (lb & Hx & _ & Hiff).
    destruct (Hend x lb Hx) as (t & m & Hc).
    { destruct (lb_parent lb); [done|]. destruct Hiff as [Hiff _].
      rewrite Hiff in Hp1 by done. done. }
    specialize (Htop _ _ _ Hc).
    inversion Htop as [? l ? Hl Hlp Hroot|]; subst. congruence. }
  destruct (extend_lifetime_fold bufs1 order [] bufs1 Hflat (closed_over_start _))
    as (fin & Hrun2 & Hclosed_a & Hclosed_b).
  { intros k Hk. apply Henum in Hk as [lb Hk].
    destruct (same_but_parents_lookup _ _ _ _ Hsame Hk) as (? & ? & _). eauto. }
  simpl in Hclosed_a, Hclosed_b.
  exists fin. split; [unfold fix_lifetime; rewrite Hrun1; exact Hrun2|]. split.
  - intros b lb Hb Hp. destruct (Hend _ _ Hb Hp) as (t & n & Hc).
    specialize (Htop _ _ _ Hc).
    inversion Htop as [? lb1 ? Hb1 Hp1 (r1 & Hr1 & Hrp1)|]; subst.
    destruct (Hclosed_b _ _ Hr1 Hrp1) as (r & Hr & Hrp & _ & Hseen & _).
    destruct (same_but_parents_lookup _ _ _ _ Hsame Hb) as (lb1' & Hb1' & Heq & _).
    assert (lb1' = lb1) as -> by congruence.
    exists lb1, t, r, n.
    split; [apply Hclosed_a; [done|by rewrite Hp1]|]. split; [done|].
    split; [by apply chain_top_ancestor_root|]. split; [by eapply chain_top_root|].
    split; [done|]. split; [done|]. split; [by apply same_but_parents_lifetime|].
    apply (Hseen b lb1); [apply Henum; eauto|]. split; [done|]. by exists t.
  - intros r lr Hr Hrp.
    destruct (same_but_parents_lookup _ _ _ _ Hsame Hr) as (lr1 & Hr1 & Heq & Hiff).
    apply same_but_parents_lifetime in Heq.
    destruct (Hclosed_b _ _ Hr1 (proj2 Hiff Hrp)) as (lr' & Hr' & Hrp' & Hcov & _ & Hbirth & Hfin).
    rewrite Heq in Hcov, Hbirth, Hfin.
    assert (Halias : ∀ c lc, alias_of bufs1 r c lc → alias_of fin r c lc).
    { intros c lc [Hc (t & Ht & Hpt)]. split; [|by exists t].
      apply Hclosed_a; [done|by rewrite Ht]. }
    exists lr'. split; [done|]. split; [done|]. split; [done|]. split.
    + destruct Hbirth as [?|(c & lc & _ & Hal & ?)]; [by left|]. right. exists c, lc. auto.
    + destruct Hfin as [?|(c & lc & _ & Hal & ?)]; [by left|]. right. exists c, lc. auto.
Qed.

Lemma fix_lifetime_closes_witness :
  ∃ bufs' lb' r,
    fix_lifetime (elements (dom chain_buffers)) chain_buffers = Ok bufs'
    ∧ bufs' !! (2, 0)%nat = Some lb'
    ∧ parent <$> lb_parent lb' = Some (0, 0)%nat
    ∧ bufs' !! (0, 0)%nat = Some r
    ∧ lb_parent r = None
    ∧ covers (lifetime r) (lifetime lb').
Proof.
  destruct (fix_lifetime_closes (elements (dom chain_buffers)) chain_buffers
              chain_buffers_end (enumerates_elements _))
    as (bufs' & Hrun & Halias & _).
  destruct (Halias (2, 0)%nat
              (with_parent (1, 0)%nat [1] (tensor_buffer 2 (2, 0)%nat mem_data [2]))
              eq_refl ltac:(by eexists))
    as (lb' & t & r & n & Hb & Hp & _ & _ & Hr & Hrp & _ & Hcov).
  assert (Ht : parent t = (0, 0)%nat).
  { pose proof Hrun as Hrun'. vm_compute in Hrun'. injection Hrun' as <-.
    vm_compute in Hb. injection Hb as <-. vm_compute in Hp. by injection Hp as <-. }
  rewrite Ht in Hr.
  exists bufs', lb', r. rewrite Hp. simpl. rewrite Ht. done.
Defined.
Lemma rootb_is_root (bufs : buffer_map) (k : connector) :
  rootb bufs k = true ↔ is_root bufs k.
Proof.
  unfold rootb, is_root. split.
  - destruct (bufs !! k) as [lb|]; [|done].
    destruct (lb_parent lb) eqn:E; [done|]. eauto.
  - intros (lb & -> & ->). done.
Qed.

Lemma ids_match_push (ids : gmap connector nat) (phys : list physical_buffer)
    (k : connector) (l : buffer_lifetime) (a : memory_span) :
  ids !! k = None →
  ids_match ids phys →
  ids_match (<[k := size ids]> ids)
            (phys ++ [{| pb_id := N.of_nat (size ids); pb_owner := k;
                         pb_lifetime := l; pb_allocation := a |}]).
Proof.
  intros Hfresh (Hsize & Hiff & Hid). split; [|split].
  - rewrite map_size_insert_None, length_app by done. simpl. rewrite Hsize. lia.
  - intros k' i. rewrite lookup_insert. case_decide as Hkk.
    + subst k'. split.
      * intros [= <-]. eexists. split.
        -- rewrite Hsize, lookup_app_r, Nat.sub_diag by lia. reflexivity.
        -- reflexivity.
      * intros (pb & Hpb & Ho).
        destruct (decide (i < length phys)%nat) as [Hlt|Hge].
        -- rewrite lookup_app_l in Hpb by done.
           assert (ids !! k = Some i) as Hc by (apply Hiff; eauto).
           rewrite Hfresh in Hc. done.
        -- rewrite lookup_app_r in Hpb by lia.
           destruct (i - length phys)%nat as [|j] eqn:E; [|by destruct j].
           f_equal. lia.
    + rewrite Hiff. split; intros (pb & Hpb & Ho).
      * exists pb. split; [|done]. rewrite lookup_app_l; [done|].
        by eapply lookup_lt_Some.
      * exists pb. split; [|done].
        destruct (decide (i < length phys)%nat) as [Hlt|Hge].
        -- by rewrite lookup_app_l in Hpb.
        -- rewrite lookup_app_r in Hpb by lia.
           destruct (i - length phys)%nat as [|j]; [|by destruct j].
           simpl in Hpb. injection Hpb as <-. simpl in Ho. congruence.
  - intros i pb Hpb.
    destruct (decide (i < length phys)%nat) as [Hlt|Hge].
    + rewrite lookup_app_l in Hpb by done. by apply Hid.
    + rewrite lookup_app_r in Hpb by lia.
      destruct (i - length phys)%nat as [|j] eqn:E; [|by destruct j].
      simpl in Hpb. injection Hpb as <-. simpl. f_equal. lia.
Qed.

Lemma make_physical_fold (bufs : buffer_map) :
  ∀ (order : list connector) (ids : gmap connector nat) (phys : list physical_buffer),
  (∀ k, k ∈ order → is_Some (bufs !! k)) →
  NoDup order →
  (∀ k, k ∈ order → ids !! k = None) →
  ids_match ids phys →
  ∃ ids' phys',
    foldM (make_physical bufs) (ids, phys) order = Ok (ids', phys')
    ∧ pb_owner <$> phys' = (pb_owner <$> phys) ++ filter (λ k, rootb bufs k) order
    ∧ ids_match ids' phys'.
Proof.
  induction order as [|k order IH]; intros ids phys Hkeys Hnd Hfresh Hinv; simpl.
  - exists ids, phys. by rewrite app_nil_r.
  - destruct (Hkeys k ltac:(left)) as [lb Hk].
    apply NoDup_cons in Hnd as [Hnotin Hnd].
    unfold make_physical at 1, buf_at. rewrite Hk. simpl.
    destruct (lb_parent lb) as [p|] eqn:Hp; simpl.
    + rewrite filter_cons_False by (unfold rootb; rewrite Hk, Hp; by intros []).
      apply IH; [|done| |done]; intros k' Hk'; [apply Hkeys|apply Hfresh]; by right.
    + rewrite filter_cons_True by (unfold rootb; by rewrite Hk, Hp).
      unfold emplace. rewrite (Hfresh k) by (by left).
      destruct (IH (<[k := size ids]> ids)
                  (phys ++ [{| pb_id := N.of_nat (size ids); pb_owner := k;
                               pb_lifetime := lifetime lb;
                               pb_allocation := {| span_start := 0; span_size := 0 |} |}]))
        as (ids' & phys' & Hrun & Howners & Hinv').
      * intros k' Hk'. apply Hkeys. by right.
      * done.
      * intros k' Hk'. rewrite lookup_insert_ne; [apply Hfresh; by right|].
        intros ->. done.
      * apply ids_match_push; [apply Hfresh; by left|done].
      * exists ids', phys'. split; [exact Hrun|]. split; [|done].
        rewrite Howners, fmap_app. simpl. by rewrite <- app_assoc.
Qed.

Lemma bind_physical_fold (ids : gmap connector nat) (phys : list physical_buffer) :
  ∀ (order : list connector) (cur : buffer_map),
  NoDup order →
  (∀ k, k ∈ order → ∃ lb i, cur !! k = Some lb ∧ ids !! root_of k lb = Some i
                            ∧ is_Some (phys !! i)) →
  ∃ fin,
    foldM (bind_physical ids phys) cur order = Ok fin
    ∧ (∀ k, k ∉ order → fin !! k = cur !! k)
    ∧ (∀ k lb, k ∈ order → cur !! k = Some lb →
         ∃ i, ids !! root_of k lb = Some i ∧ fin !! k = Some (set_physical (Some i) lb)).
Proof.
  induction order as [|k order IH]; intros cur Hnd Hok; simpl.
  - exists cur. split; [done|]. split; [done|]. by intros k lb ?%elem_of_nil.
  - apply NoDup_cons in Hnd as [Hnotin Hnd].
    destruct (Hok k ltac:(left)) as (lb & i & Hk & Hi & [pb Hpb]).
    unfold bind_physical at 1, buf_at. rewrite Hk. simpl.
    fold (root_of k lb). rewrite Hi. simpl. rewrite Hpb. simpl.
    destruct (IH (<[k := set_physical (Some i) lb]> cur) Hnd) as (fin & Hrun & Hout & Hin).
    { intros k' Hk'. assert (k' ≠ k) by (by intros ->).
      rewrite lookup_insert_ne by done. apply Hok. by right. }
    exists fin. split; [done|]. split.
    + intros k' Hk'. apply not_elem_of_cons in Hk' as [Hne Hk'].
      by rewrite Hout, lookup_insert_ne.
    + intros k' lb' [->|Hk']%elem_of_cons Hcur.
      * assert (lb' = lb) as -> by congruence.
        exists i. split; [done|]. by rewrite Hout, lookup_insert_eq.
      * assert (k' ≠ k) by (by intros ->).
        apply Hin; [done|]. by rewrite lookup_insert_ne.
Qed.
(** C8.  On a map whose parent pointers all lead to parentless buffers,
    [make_physical_buffers] makes one physical buffer for each parentless
    logical buffer, in the order of the walk and with ids 0, 1, 2, ...;
    every logical buffer is bound to the physical buffer owned by its root;
    so two logical buffers share a physical buffer exactly when they have
    the same root. *)
Theorem make_physical_buffers_one_per_root (order : list connector) (bufs : buffer_map) :
  NoDup order →
  enumerates order bufs →
  flat bufs →
  ∃ bufs' phys,
    make_physical_buffers order bufs = Ok (bufs', phys)
    ∧ pb_owner <$> phys = filter (λ k, rootb bufs k) order
    ∧ (∀ i pb, phys !! i = Some pb → pb_id pb = N.of_nat i)
    ∧ (∀ b lb, bufs !! b = Some lb →
         ∃ i pb, bufs' !! b = Some (set_physical (Some i) lb)
                 ∧ phys !! i = Some pb ∧ pb_owner pb = root_of b lb)
    ∧ (∀ b1 lb1 b2 lb2, bufs !! b1 = Some lb1 → bufs !! b2 = Some lb2 →
         (physical <$> bufs' !! b1 = physical <$> bufs' !! b2
          ↔ root_of b1 lb1 = root_of b2 lb2)).
Proof.
  intros Hnd Henum Hflat.
  destruct (make_physical_fold bufs order ∅ []) as (ids & phys & Hrun1 & Howners & Hinv).
  { intros k Hk. by apply Henum. }
  { done. }
  { intros k _. apply lookup_empty. }
  { split; [done|]. split; [|by intros i pb ?].
    intros k i. rewrite lookup_empty. split; [done|]. by intros (pb & ? & _). }
  simpl in Howners. destruct Hinv as (Hsize & Hiff & Hid).
  assert (Hroot : ∀ k lb, bufs !! k = Some lb → is_root bufs (root_of k lb)).
  { intros k lb Hk. unfold root_of. destruct (lb_parent lb) as [p|] eqn:Hp.
    - by eapply Hflat.
    - by exists lb. }
  assert (Hhas : ∀ r, is_root bufs r →
            ∃ i pb, ids !! r = Some i ∧ phys !! i = Some pb ∧ pb_owner pb = r).
  { intros r Hr.
    assert (Hin : r ∈ pb_owner <$> phys).
    { rewrite Howners. apply list_elem_of_filter. split.
      - apply Is_true_true. by apply rootb_is_root.
      - apply Henum. destruct Hr as (lb & ? & _). eauto. }
    apply list_elem_of_fmap in Hin as (pb & -> & Hpb).
    apply list_elem_of_lookup in Hpb as [i Hi].
    exists i, pb. split; [|done]. apply Hiff. eauto. }
  destruct (bind_physical_fold ids phys order bufs Hnd) as (bufs' & Hrun2 & _ & Hbound).
  { intros k Hk. apply Henum in Hk as [lb Hk].
    destruct (Hhas _ (Hroot _ _ Hk)) as (i & pb & Hi & Hpb & _). eauto 6. }
  assert (Hbind : ∀ b lb, bufs !! b = Some lb →
            ∃ i pb, bufs' !! b = Some (set_physical (Some i) lb)
                    ∧ phys !! i = Some pb ∧ pb_owner pb = root_of b lb).
  { intros b lb Hb.
    destruct (Hbound b lb) as (i & Hi & Hb'); [apply Henum; eauto|done|].
    apply Hiff in Hi as (pb & Hpb & Ho). eauto 6. }
  exists bufs', phys. split.
  { unfold make_physical_buffers. rewrite Hrun1. simpl. by rewrite Hrun2. }
  split; [done|]. split; [done|]. split; [done|].
  intros b1 lb1 b2 lb2 Hb1 Hb2.
  destruct (Hbind _ _ Hb1) as (i1 & pb1 & -> & Hp1 & Ho1).
  destruct (Hbind _ _ Hb2) as (i2 & pb2 & -> & Hp2 & Ho2).
  simpl. split.
  - intros [= ->]. congruence.
  - intros Heq. do 2 f_equal.
    assert (ids !! root_of b1 lb1 = Some i1) as H1 by (apply Hiff; eauto).
    assert (ids !! root_of b2 lb2 = Some i2) as H2 by (apply Hiff; eauto).
    congruence.
Qed.

Lemma alias_buffers_flat : flat alias_buffers.
Proof.
  assert (H0 : is_root alias_buffers (0, 0)%nat) by (eexists; split; reflexivity).
  intros x lb t Hx Hp. unfold alias_buffers in Hx.
  apply lookup_insert_Some in Hx as [[<- <-]|[_ Hx]]; [done|].
  apply lookup_insert_Some in Hx as [[<- <-]|[_ Hx]]; [by injection Hp as <-|].
  apply lookup_insert_Some in Hx as [[<- <-]|[_ Hx]]; [by injection Hp as <-|].
  apply lookup_singleton_Some in Hx as [<- <-]. done.
Qed.

Lemma make_physical_buffers_one_per_root_witness :
  ∃ bufs' phys,
    make_physical_buffers (elements (dom alias_buffers)) alias_buffers = Ok (bufs', phys)
    ∧ length phys = 2%nat
    ∧ physical <$> bufs' !! (1, 0)%nat = physical <$> bufs' !! (2, 0)%nat.
Proof.
  destruct (make_physical_buffers_one_per_root (elements (dom alias_buffers)) alias_buffers
              (NoDup_elements _) (enumerates_elements _) alias_buffers_flat)
    as (bufs' & phys & Hrun & Howners & _ & _ & Hshare).
  exists bufs', phys. split; [exact Hrun|]. split.
  - rewrite <- (length_fmap pb_owner), Howners. by vm_compute.
  - by apply (Hshare (1, 0)%nat _ (2, 0)%nat _ eq_refl eq_refl).
Defined.
Lemma to_strides_row_major (shape : shape_t) : row_major shape (to_strides shape).
Proof.
  unfold to_strides. induction shape as [|d shape [IHl IH]]; simpl.
  - split; [done|]. intros i Hi. simpl in Hi. lia.
  - split; [simpl; by rewrite IHl|]. intros [|i] Hi; simpl in *.
    + by rewrite drop_0.
    + apply IH. lia.
Qed.

Lemma element_offset_dot (strides index : shape_t) :
  element_offset strides index = dot strides index.
Proof.
  unfold element_offset. revert index.
  induction strides as [|s strides IH]; intros [|i index]; simpl; try done.
  by rewrite IH.
Qed.

Lemma emplace_fresh `{Countable K} {V} (k : K) (v : V) (m : gmap K V) :
  m !! k = None → emplace k v m = <[k := v]> m.
Proof. intros E. unfold emplace. by rewrite E. Qed.

Lemma emplace_fold (f : connector → result buffer_allocation) :
  ∀ (outs : list connector) (allocs : gmap connector buffer_allocation),
  NoDup outs →
  (∀ o, o ∈ outs → allocs !! o = None) →
  (∀ o, o ∈ outs → ∃ a, f o = Ok a) →
  ∃ allocs',
    foldM (λ al o, let* a := f o in Ok (emplace o a al)) allocs outs = Ok allocs'
    ∧ (∀ o a, o ∈ outs → f o = Ok a → allocs' !! o = Some a)
    ∧ (∀ o, o ∉ outs → allocs' !! o = allocs !! o).
Proof.
  induction outs as [|o outs IH]; intros allocs Hnd Hfresh Hok; simpl.
  - exists allocs. split; [done|]. split; [|done]. by intros o a ?%elem_of_nil.
  - apply NoDup_cons in Hnd as [Hnotin Hnd].
    destruct (Hok o ltac:(left)) as [a Ha]. rewrite Ha. simpl.
    rewrite emplace_fresh by (apply Hfresh; by left).
    destruct (IH (<[o := a]> allocs) Hnd) as (allocs' & Hrun & Hin & Hout).
    { intros o' Ho'. rewrite lookup_insert_ne; [apply Hfresh; by right|]. by intros ->. }
    { intros o' Ho'. apply Hok. by right. }
    exists allocs'. split; [done|]. split.
    + intros o' a' [->|Ho']%elem_of_cons Hf.
      * rewrite Hout, lookup_insert_eq by done. congruence.
      * by apply Hin.
    + intros o' [Hne Ho']%not_elem_of_cons. by rewrite Hout, lookup_insert_ne.
Qed.

Lemma output_refs_elem (n : node_id) (nd : node) (c : connector) :
  c ∈ output_refs n nd ↔ c.1 = n ∧ (c.2 < length (outputs nd))%nat.
Proof.
  unfold output_refs. rewrite list_elem_of_fmap. split.
  - intros (k & -> & Hk). apply elem_of_seq in Hk. simpl. split; [done|lia].
  - intros [<- Hlt]. exists c.2. split; [by destruct c|]. apply elem_of_seq. lia.
Qed.

Lemma output_refs_NoDup (n : node_id) (nd : node) : NoDup (output_refs n nd).
Proof.
  unfold output_refs. apply NoDup_fmap_2; [|apply NoDup_seq].
  by intros k1 k2 [=].
Qed.
Lemma make_allocation_ok (element_bytes : datatype_t → N) (bufs : buffer_map)
    (phys : list physical_buffer) (opcode : node_opcode) (out : connector)
    (lbuf : logical_buffer) (pbuf : physical_buffer) (rbuf : logical_buffer) :
  bound_to_root bufs phys out lbuf pbuf rbuf →
  ∃ a, make_allocation element_bytes bufs phys opcode out = Ok a
    ∧ ba_memory_location a = memory_location rbuf
    ∧ ba_type a = lb_type lbuf
    ∧ ba_shape a = lb_shape lbuf
    ∧ ba_size a = element_bytes (lb_type lbuf) * product (lb_shape lbuf)
    ∧ ba_parent_shape a = spec_parent_shape opcode lbuf rbuf
    ∧ row_major (ba_parent_shape a) (ba_strides a)
    ∧ ba_start a = match lb_parent lbuf with
                   | Some p => span_start (pb_allocation pbuf)
                               + element_bytes (lb_type lbuf) * dot (ba_strides a) (begin p)
                   | None => span_start (pb_allocation pbuf)
                   end.
Proof.
  intros (Hout & (i & Hi & Hp) & Howner & Hroot).
  unfold make_allocation, buf_at. rewrite Hout. simpl. rewrite Hi. simpl.
  rewrite Hp. simpl. rewrite Howner, Hroot. simpl.
  eexists. split; [reflexivity|]. simpl.
  split; [done|]. split; [done|]. split; [done|]. split; [done|].
  assert (Hshape : (if bool_decide (is_Some (lb_parent lbuf)) && bool_decide (opcode ≠ op_bitcast)
                    then lb_shape rbuf else lb_shape lbuf)
                   = spec_parent_shape opcode lbuf rbuf).
  { unfold spec_parent_shape. destruct (lb_parent lbuf) as [p|].
    - rewrite bool_decide_eq_true_2 by eauto. simpl.
      destruct (decide (opcode = op_bitcast)) as [->|Hne].
      + by rewrite bool_decide_eq_false_2 by (by intros ?).
      + by rewrite bool_decide_eq_true_2.
    - by rewrite bool_decide_eq_false_2 by (by intros []). }
  rewrite Hshape. split; [done|]. split; [apply to_strides_row_major|].
  destruct (lb_parent lbuf); [|done]. by rewrite element_offset_dot.
Qed.

Lemma assign_allocations_fold (element_bytes : datatype_t → N) (g : graph)
    (bufs : buffer_map) (phys : list physical_buffer) :
  ∀ (order : list node_id) (allocs : gmap connector buffer_allocation),
  NoDup order →
  (∀ o : connector, o.1 ∈ order → allocs !! o = None) →
  (∀ n, n ∈ order → ∃ nd, g !! n = Some nd
     ∧ ∀ out, out ∈ output_refs n nd →
         ∃ a, make_allocation element_bytes bufs phys (runtime_opcode nd) out = Ok a) →
  ∃ allocs',
    foldM (assign_node element_bytes g bufs phys) allocs order = Ok allocs'
    ∧ (∀ o : connector, o.1 ∉ order → allocs' !! o = allocs !! o)
    ∧ (∀ n nd out a, n ∈ order → g !! n = Some nd → out ∈ output_refs n nd →
         make_allocation element_bytes bufs phys (runtime_opcode nd) out = Ok a →
         allocs' !! out = Some a).
Proof.
  induction order as [|n order IH]; intros allocs Hnd Hfresh Hok; simpl.
  - exists allocs. split; [done|]. split; [done|]. by intros n nd out a ?%elem_of_nil.
  - apply NoDup_cons in Hnd as [Hnotin Hnd].
    destruct (Hok n ltac:(left)) as (nd & Hn & Houts).
    unfold assign_node at 1. rewrite (proj2 (get_node_ok _ _ _) Hn). simpl.
    destruct (emplace_fold (make_allocation element_bytes bufs phys (runtime_opcode nd))
                (output_refs n nd) allocs (output_refs_NoDup _ _))
      as (allocs1 & Hrun1 & Hin1 & Hout1); [|done|].
    { intros o Ho. apply Hfresh. apply output_refs_elem in Ho as [-> _]. by left. }
    rewrite Hrun1. simpl.
    destruct (IH allocs1 Hnd) as (allocs' & Hrun & Hout & Hin).
    { intros o Ho. rewrite Hout1.
      - apply Hfresh. by right.
      - intros [E _]%output_refs_elem. congruence. }
    { intros n' Hn'. apply Hok. by right. }
    exists allocs'. split; [done|]. split.
    + intros o [Hne Ho]%not_elem_of_cons. rewrite Hout by done.
      apply Hout1. intros [E _]%output_refs_elem. done.
    + intros n' nd' out a [->|Hn']%elem_of_cons Hg Hout' Ha.
      * assert (nd' = nd) as -> by congruence.
        rewrite Hout; [by apply Hin1|].
        apply output_refs_elem in Hout' as [-> _]. done.
      * by eapply Hin.
Qed.

(** C2.  When every output of every visited node has a logical buffer
    bound to the physical buffer of its root, [assign_allocations] records
    for each of them an allocation whose size is
    element_bytes(type) * product(shape); whose parent shape is the root's
    shape if the buffer has a parent and the node is not a bitcast, and the
    buffer's own shape otherwise; whose strides are the row-major strides of
    the parent shape; and whose start is the start of the root's physical
    allocation, plus element_bytes(type) * dot(strides, parent.begin) if the
    buffer has a parent. *)
Theorem assign_allocations_records (element_bytes : datatype_t → N) (g : graph)
    (order : list node_id) (bufs : buffer_map) (phys : list physical_buffer) :
  NoDup order →
  (∀ n, n ∈ order → ∃ nd, g !! n = Some nd
     ∧ ∀ out, out ∈ output_refs n nd →
         ∃ lbuf pbuf rbuf, bound_to_root bufs phys out lbuf pbuf rbuf) →
  ∃ allocs,
    assign_allocations element_bytes g order bufs phys = Ok allocs
    ∧ ∀ n nd out lbuf pbuf rbuf,
        n ∈ order → g !! n = Some nd → out ∈ output_refs n nd →
        bound_to_root bufs phys out lbuf pbuf rbuf →
        ∃ a, allocs !! out = Some a
          ∧ ba_memory_location a = memory_location rbuf
          ∧ ba_type a = lb_type lbuf
          ∧ ba_shape a = lb_shape lbuf
          ∧ ba_size a = element_bytes (lb_type lbuf) * product (lb_shape lbuf)
          ∧ ba_parent_shape a = spec_parent_shape (runtime_opcode nd) lbuf rbuf
          ∧ row_major (ba_parent_shape a) (ba_strides a)
          ∧ ba_start a = match lb_parent lbuf with
                         | Some p => span_start (pb_allocation pbuf)
                                     + element_bytes (lb_type lbuf)
                                       * dot (ba_strides a) (begin p)
                         | None => span_start (pb_allocation pbuf)
                         end.
Proof.
  intros Hnd Hok.
  destruct (assign_allocations_fold element_bytes g bufs phys order ∅ Hnd)
    as (allocs & Hrun & _ & Hin).
  { intros o _. apply lookup_empty. }
  { intros n Hn. destruct (Hok n Hn) as (nd & Hg & Houts). exists nd. split; [done|].
    intros out Hout. destruct (Houts out Hout) as (lbuf & pbuf & rbuf & Hb).
    destruct (make_allocation_ok element_bytes bufs phys (runtime_opcode nd) out _ _ _ Hb)
      as (a & Ha & _). eauto. }
  exists allocs. split; [exact Hrun|].
  intros n nd out lbuf pbuf rbuf Hn Hg Hout Hb.
  destruct (make_allocation_ok element_bytes bufs phys (runtime_opcode nd) out _ _ _ Hb)
    as (a & Ha & Hprops).
  exists a. split; [|exact Hprops]. by eapply Hin.
Qed.
Lemma assign_allocations_records_witness :
  ∃ allocs a,
    assign_allocations (λ _, 4) concat_graph [0; 1; 2; 3]%nat placed_buffers placed_physical
      = Ok allocs
    ∧ allocs !! (1, 0)%nat = Some a
    ∧ ba_size a = 48 ∧ ba_parent_shape a = [5; 4] ∧ ba_strides a = [4; 1]
    ∧ ba_start a = 32.
Proof.
  destruct (assign_allocations_records (λ _, 4) concat_graph [0; 1; 2; 3]%nat
              placed_buffers placed_physical) as (allocs & Hrun & Hrec).
  - compute_done.
  - intros n Hn.
    repeat (apply elem_of_cons in Hn as [->|Hn]); [| | | |by apply elem_of_nil in Hn];
      (eexists; split; [reflexivity|]); intros out Hout;
      apply output_refs_elem in Hout as [Hn Hk]; destruct out as [n' [|k]];
      simpl in *; try lia; subst n';
      do 3 eexists; (split; [reflexivity|]); (split; [by exists 0%nat|]);
      split; reflexivity.
  - assert (Hin : 1%nat ∈ [0; 1; 2; 3]%nat) by compute_done.
    assert (Hb : bound_to_root placed_buffers placed_physical (1, 0)%nat
              (placed 0 (with_parent (2, 0)%nat [2; 0]
                           (tensor_buffer 1 (1, 0)%nat mem_data [3; 4])))
              {| pb_id := 0; pb_owner := (2, 0)%nat;
                 pb_lifetime := {| birth := 0; age := 3; used_count := 0 |};
                 pb_allocation := {| span_start := 0; span_size := 80 |} |}
              (placed 0 (tensor_buffer 2 (2, 0)%nat mem_output [5; 4]))).
    { split; [reflexivity|]. split; [by exists 0%nat|]. split; reflexivity. }
    destruct (Hrec 1%nat _ (1, 0)%nat _ _ _ Hin eq_refl
                ltac:(apply output_refs_elem; simpl; split; [done|lia]) Hb)
      as (a & Ha & _ & _ & _ & Hsize & Hshape & [Hlen Hstr] & Hstart).
    exists allocs, a. split; [exact Hrun|]. split; [exact Ha|].
    rewrite Hshape in Hlen, Hstr.
    assert (Hs : ba_strides a = [4; 1]).
    { pose proof (Hstr 0%nat ltac:(simpl; lia)) as H0.
      pose proof (Hstr 1%nat ltac:(simpl; lia)) as H1.
      destruct (ba_strides a) as [|s0 [|s1 [|]]]; simpl in *; try discriminate.
      injection H0 as ->. injection H1 as ->. reflexivity. }
    rewrite Hs in Hstart. split; [exact Hsize|]. split; [exact Hshape|].
    split; [exact Hs|exact Hstart].
Defined.
Lemma compute_sequence_fold (g : graph) (order acc : list node_id) :
  (∀ n, n ∈ order → is_Some (g !! n)) →
  foldM (λ sequence n,
           let* nd := get_node g n in
           if has_action nd then Ok (sequence ++ [n]) else Ok sequence)
        acc order
  = Ok (acc ++ filter (λ n, action_at g n = Some true) order).
Proof.
  revert acc. induction order as [|n order IH]; intros acc Hok; simpl.
  - by rewrite app_nil_r.
  - destruct (Hok n ltac:(left)) as [nd Hn].
    rewrite (proj2 (get_node_ok _ _ _) Hn). simpl.
    assert (Hact : action_at g n = Some (has_action nd)).
    { unfold action_at. by rewrite Hn. }
    destruct (has_action nd) eqn:E; simpl.
    + rewrite filter_cons_True by done. rewrite IH.
      * by rewrite <- app_assoc.
      * intros n' Hn'. apply Hok. by right.
    + rewrite filter_cons_False by (rewrite Hact; congruence). apply IH.
      intros n' Hn'. apply Hok. by right.
Qed.

Lemma generate_compute_sequence_filter (g : graph) (order : list node_id) :
  (∀ n, n ∈ order → is_Some (g !! n)) →
  generate_compute_sequence g order
  = Ok (filter (λ n, action_at g n = Some true) order).
Proof. intros Hok. unfold generate_compute_sequence. by rewrite compute_sequence_fold. Qed.

Lemma visit_extends_refl (st : visit_state) : visit_extends st st.
Proof. split; [done|]. split; [done|]. split; auto. Qed.

Lemma visit_extends_trans (s1 s2 s3 : visit_state) :
  (∀ m, m ∈ s1.2 → m ∈ s1.1) →
  visit_extends s1 s2 → visit_extends s2 s3 → visit_extends s1 s3.
Proof.
  intros Hm (P1 & S1 & N1 & F1) (P2 & S2 & N2 & F2).
  split; [by etrans|]. split; [by etrans|]. split.
  - intros m Hm3. destruct (N2 m Hm3) as [H2|H3]; [|by right].
    destruct (N1 m H2) as [?|H']; [by left|]. right.
    destruct P2 as [k ->]. apply elem_of_app. by left.
  - intros m Hm3. destruct (F2 m Hm3) as [H2|H2].
    + apply F1, H2.
    + right. intros H1. apply H2, S1, H1.
Qed.
Section traversal.

Variable g : graph.
Variable outputs_ : list node_id.
Variable rk : node_id → nat.
Hypothesis rk_bound : ∀ n, (n < length g)%nat → (rk n < length g)%nat.
Hypothesis rk_feeds : ∀ p n, feeds g p n → (p < length g)%nat ∧ (rk p < rk n)%nat.

Lemma producers_first_snoc (l : list node_id) (n : node_id) :
  producers_first g l →
  (∀ p, feeds g p n → p ∈ l) →
  producers_first g (l ++ [n]).
Proof.
  intros Hl Hn i m Hi p Hp.
  destruct (decide (i < length l)%nat) as [Hlt|Hge].
  - rewrite lookup_app_l in Hi by done.
    destruct (Hl i m Hi p Hp) as (j & Hj & Hjp).
    exists j. split; [done|]. rewrite lookup_app_l by lia. done.
  - rewrite lookup_app_r in Hi by lia.
    destruct (i - length l)%nat as [|k] eqn:E; [|by destruct k].
    injection Hi as <-.
    destruct (proj1 (list_elem_of_lookup _ _) (Hn p Hp)) as [j Hj].
    exists j. split; [apply lookup_lt_Some in Hj; lia|].
    rewrite lookup_app_l; [done|]. by eapply lookup_lt_Some.
Qed.

Lemma producers_first_prefix (l l' : list node_id) :
  l `prefix_of` l' → ∀ m, m ∈ l → m ∈ l'.
Proof. intros [k ->] m Hm. apply elem_of_app. by left. Qed.

Lemma visit_strategy_sound : ∀ (fuel : nat) (n : node_id) (st : visit_state),
  (rk n < fuel)%nat → (n < length g)%nat →
  reachable g outputs_ n →
  visit_sound g outputs_ st →
  (∀ m, m ∈ st.1 → m ∈ st.2 ∨ (rk n < rk m)%nat) →
  ∃ st', visit_strategy fuel g n st = Ok st'
         ∧ visit_sound g outputs_ st' ∧ visit_extends st st' ∧ n ∈ st'.2.
Proof.
  induction fuel as [|fuel IH]; intros n st Hfuel Hn Hreach Hsound Hpre; [lia|].
  simpl. destruct (decide (n ∈ st.1)) as [Hin|Hnin].
  { exists st. split; [done|]. split; [done|]. split; [apply visit_extends_refl|].
    destruct (Hpre n Hin); [done|lia]. }
  destruct (lookup_lt_is_Some_2 g n Hn) as [nd Hnd].
  rewrite (proj2 (get_node_ok _ _ _) Hnd). simpl.
  destruct Hsound as (Htopo & Hnd' & Hmark & Hre).
  assert (Hnotemitted : n ∉ st.2) by (intros H; by apply Hnin, Hmark).
  assert (Hfold : ∀ (ins : list input_connector) (s : visit_state),
            (∀ i, i ∈ ins → i ∈ inputs nd) →
            visit_sound g outputs_ s → n ∈ s.1 → n ∉ s.2 →
            (∀ m, m ∈ s.1 → m ∈ s.2 ∨ m = n ∨ (rk n < rk m)%nat) →
            ∃ s', foldM (λ s i, match connection i with
                                | Some c => visit_strategy fuel g c.1 s
                                | None => Ok s
                                end) s ins = Ok s'
                  ∧ visit_sound g outputs_ s' ∧ visit_extends s s'
                  ∧ (n ∈ s'.1) ∧ (n ∉ s'.2)
                  ∧ (∀ m, m ∈ s'.1 → m ∈ s'.2 ∨ m = n ∨ (rk n < rk m)%nat)
                  ∧ (∀ i p k, i ∈ ins → connection i = Some (p, k) → p ∈ s'.2)).
  { induction ins as [|i ins IHins]; intros s Hsub Hs Hns1 Hns2 Hs1; simpl.
    - exists s. split; [done|]. split; [done|]. split; [apply visit_extends_refl|].
      split; [done|]. split; [done|]. split; [done|]. by intros i p k ?%elem_of_nil.
    - assert (Hstep : ∃ s1, match connection i with
                            | Some c => visit_strategy fuel g c.1 s
                            | None => Ok s
                            end = Ok s1
                ∧ visit_sound g outputs_ s1 ∧ visit_extends s s1
                ∧ (∀ p k, connection i = Some (p, k) → p ∈ s1.2)).
      { destruct (connection i) as [[p k]|] eqn:Hc.
        - assert (Hf : feeds g p n).
          { exists nd, i, k. split; [done|]. split; [apply Hsub; by left|done]. }
          destruct (rk_feeds _ _ Hf) as (Hp & Hlt).
          destruct (IH p s) as (s1 & Hrun & Hs1' & Hext & Hp1); [lia|done| |done| |].
          + by eapply reachable_producer.
          + intros m Hm. destruct (Hs1 m Hm) as [?|[->|?]]; [by left| |]; right; lia.
          + exists s1. split; [done|]. split; [done|]. split; [done|].
            by intros p' k' [= <- <-].
        - exists s. split; [done|]. split; [done|]. split; [apply visit_extends_refl|].
          by intros p k. }
      destruct Hstep as (s1 & Hrun & Hsound1 & Hext1 & Hp1). rewrite Hrun. simpl.
      destruct Hext1 as (P1 & S1 & N1 & F1).
      destruct (IHins s1) as (s' & Hrun' & Hsound' & Hext' & Hn1 & Hn2 & Hm' & Hps).
      + intros i' Hi'. apply Hsub. by right.
      + done.
      + by apply S1.
      + intros H. destruct (F1 n H); done.
      + intros m Hm. destruct (N1 m Hm) as [H|H]; [|by left].
        destruct (Hs1 m H) as [H'|[->|H']]; [left|right; by left|right; by right].
        by eapply producers_first_prefix.
      + exists s'. split; [done|]. split; [done|]. split.
        * eapply visit_extends_trans; [|done|done]. by destruct Hs as (_ & _ & ? & _).
        * split; [done|]. split; [done|]. split; [done|].
          intros i' p k [->|Hi']%elem_of_cons Hc; [|by eapply Hps].
          destruct Hext' as (P' & _). eapply producers_first_prefix; [done|].
          by eapply Hp1. }
  destruct (Hfold (inputs nd) ({[n]} ∪ st.1, st.2))
    as (s' & Hrun & (Htopo' & Hnd'' & Hmark' & Hre') & (P' & S' & N' & F') & Hn1 & Hn2 & _ & Hps).
  - done.
  - split; [done|]. split; [done|]. split; [|done]. intros m Hm. simpl.
    apply elem_of_union. right. by apply Hmark.
  - simpl. apply elem_of_union. left. by apply elem_of_singleton.
  - done.
  - simpl. intros m [->%elem_of_singleton|Hm]%elem_of_union; [right; by left|].
    destruct (Hpre m Hm); [by left|right; by right].
  - rewrite Hrun. simpl. eexists. split; [reflexivity|]. simpl in *. split; [|split].
    + split; [|split; [|split]]; simpl.
      * apply producers_first_snoc; [done|].
        intros p (nd0 & i & k & Hg & Hi & Hc).
        assert (nd0 = nd) as -> by congruence. by eapply Hps.
      * apply NoDup_app. split; [done|]. split; [|apply NoDup_singleton].
        intros m Hm ->%list_elem_of_singleton. done.
      * intros m [Hm| ->%list_elem_of_singleton]%elem_of_app; auto.
      * intros m [Hm| ->%list_elem_of_singleton]%elem_of_app; auto.
    + split; [|split; [|split]]; simpl.
      * destruct P' as [k ->]. exists (k ++ [n]). by rewrite app_assoc.
      * intros m Hm. apply S', elem_of_union. by right.
      * intros m Hm. destruct (N' m Hm) as [[->%elem_of_singleton|H]%elem_of_union|H].
        -- right. apply elem_of_app. right. by left.
        -- by left.
        -- right. apply elem_of_app. by left.
      * intros m [Hm| ->%list_elem_of_singleton]%elem_of_app; [|by right].
        destruct (F' m Hm) as [?|H]; [by left|]. right.
        intros Hm'. apply H, elem_of_union. by right.
    + apply elem_of_app. right. by left.
Qed.

Lemma visit_outputs_sound : ∀ (outs : list node_id) (st : visit_state),
  (∀ o, o ∈ outs → o ∈ outputs_ ∧ (o < length g)%nat) →
  visit_sound g outputs_ st →
  (∀ m, m ∈ st.1 → m ∈ st.2) →
  ∃ st', foldM (λ s n, visit_strategy (S (length g)) g n s) st outs = Ok st'
         ∧ visit_sound g outputs_ st'
         ∧ (∀ m, m ∈ st'.1 → m ∈ st'.2)
         ∧ st.2 `prefix_of` st'.2
         ∧ (∀ o, o ∈ outs → o ∈ st'.2).
Proof.
  induction outs as [|o outs IH]; intros st Houts Hsound Hdone; cbn [foldM].
  - exists st. split; [done|]. split; [done|]. split; [done|]. split; [done|].
    by intros o ?%elem_of_nil.
  - destruct (Houts o ltac:(left)) as [Ho Hlt].
    destruct (visit_strategy_sound (S (length g)) o st) as (s1 & Hrun & Hs1 & Hext & Ho1).
    + specialize (rk_bound o Hlt). lia.
    + done.
    + by constructor.
    + done.
    + intros m Hm. left. by apply Hdone.
    + rewrite Hrun. cbn [rbind]. destruct Hext as (P1 & S1 & N1 & F1).
      destruct (IH s1) as (st' & Hrun' & Hs' & Hdone' & Hpre & Houts').
      * intros o' Ho'. apply Houts. by right.
      * done.
      * intros m Hm. destruct (N1 m Hm) as [H|H]; [|done].
        eapply producers_first_prefix; [done|]. by apply Hdone.
      * exists st'. split; [done|]. split; [done|]. split; [done|].
        split; [by etrans|].
        intros o' [->|Ho']%elem_of_cons; [|by apply Houts'].
        by eapply producers_first_prefix.
Qed.

End traversal.
Lemma before_lookup (l : list node_id) (i j : nat) (p n : node_id) :
  l !! j = Some p → l !! i = Some n → (j < i)%nat → before l p n.
Proof.
  intros Hj Hi Hlt.
  exists (take j l), (take (i - S j) (drop (S j) l)), (drop (S i) l).
  rewrite <- (take_drop_middle l j p Hj) at 1. f_equal. f_equal.
  assert (Hi' : drop (S j) l !! (i - S j)%nat = Some n).
  { rewrite lookup_drop. rewrite <- Hi. f_equal. lia. }
  rewrite <- (take_drop_middle _ _ _ Hi') at 1. f_equal. f_equal.
  rewrite drop_drop. f_equal. lia.
Qed.

Lemma before_filter (P : node_id → Prop) `{!∀ x, Decision (P x)}
    (l : list node_id) (p n : node_id) :
  before l p n → P p → P n → before (filter P l) p n.
Proof.
  intros (l1 & l2 & l3 & ->) Hp Hn.
  exists (filter P l1), (filter P l2), (filter P l3).
  rewrite filter_app, filter_cons_True, filter_app, filter_cons_True by done. done.
Qed.

(** C7.  On an acyclic graph the traversal and the emitter return: the
    compute sequence holds each node once, a node is in it exactly when the
    traversal reaches it from the outputs and its action bit is set, and
    each node of the sequence stands after every producer of its inputs
    that is in the sequence too. *)
Theorem compute_sequence_topological (g : graph) (outputs_ : list node_id) :
  acyclic g →
  (∀ o, o ∈ outputs_ → (o < length g)%nat) →
  ∃ order sequence,
    visit_order g outputs_ = Ok order
    ∧ generate_compute_sequence g order = Ok sequence
    ∧ NoDup sequence
    ∧ (∀ n, n ∈ sequence ↔ reachable g outputs_ n ∧ action_at g n = Some true)
    ∧ (∀ p n, p ∈ sequence → n ∈ sequence → feeds g p n → before sequence p n).
Proof.
  intros (rk & Hbound & Hfeeds) Houts.
  destruct (visit_outputs_sound g outputs_ rk Hbound Hfeeds outputs_ (∅, []))
    as (st & Hrun & (Htopo & Hnd & Hmark & Hreach) & _ & _ & Hall).
  { intros o Ho. split; [done|]. by apply Houts. }
  { split; [by intros i n ?|]. split; [constructor|].
    split; by intros m ?%elem_of_nil. }
  { by intros m ?%elem_of_empty. }
  assert (Hin : ∀ n, reachable g outputs_ n → n ∈ st.2).
  { induction 1 as [o Ho|p n _ IH Hf]; [by apply Hall|].
    apply list_elem_of_lookup in IH as [i Hi].
    destruct (Htopo i n Hi p Hf) as (j & _ & Hj). by eapply list_elem_of_lookup_2. }
  assert (Hlt : ∀ n, reachable g outputs_ n → (n < length g)%nat).
  { induction 1 as [o Ho|p n _ _ Hf]; [by apply Houts|]. by apply Hfeeds in Hf as [? _]. }
  exists st.2, (filter (λ n, action_at g n = Some true) st.2).
  split; [unfold visit_order; by rewrite Hrun|].
  split.
  { apply generate_compute_sequence_filter. intros n Hn.
    apply lookup_lt_is_Some_2, Hlt, Hreach, Hn. }
  split; [by apply NoDup_filter|]. split.
  - intros n. rewrite list_elem_of_filter. split.
    + intros [Hact Hn]. split; [by apply Hreach|done].
    + intros [Hr Hact]. split; [done|by apply Hin].
  - intros p n [Hp Hpin]%list_elem_of_filter [Hn Hnin]%list_elem_of_filter Hf.
    apply before_filter; [|done|done].
    apply list_elem_of_lookup in Hnin as [i Hi].
    destruct (Htopo i n Hi p Hf) as (j & Hlt' & Hj).
    by eapply before_lookup.
Qed.

Lemma compute_sequence_topological_witness :
  ∃ order sequence,
    visit_order reshape_graph [2%nat] = Ok order
    ∧ generate_compute_sequence reshape_graph order = Ok sequence
    ∧ before sequence 0%nat 1%nat.
Proof.
  destruct (compute_sequence_topological reshape_graph [2%nat])
    as (order & sequence & Hrun & Hseq & _ & Hmem & Hbefore).
  - exists (λ n, n). split; [done|].
    intros p n (nd & i & k & Hg & Hi & Hc).
    destruct n as [|[|[|n]]]; simpl in Hg; simplify_eq; simpl in Hi;
      try (by apply elem_of_nil in Hi);
      apply list_elem_of_singleton in Hi as ->; simpl in Hc; simplify_eq; simpl; lia.
  - intros o ->%list_elem_of_singleton. simpl. lia.
  - exists order, sequence. split; [done|]. split; [done|].
    assert (H01 : feeds reshape_graph 0%nat 1%nat).
    { eexists _, _, 0%nat. split; [reflexivity|]. split; [by left|done]. }
    assert (H12 : feeds reshape_graph 1%nat 2%nat).
    { eexists _, _, 0%nat. split; [reflexivity|]. split; [by left|done]. }
    assert (R2 : reachable reshape_graph [2%nat] 2%nat) by (constructor; by left).
    assert (R1 : reachable reshape_graph [2%nat] 1%nat) by (by eapply reachable_producer).
    assert (R0 : reachable reshape_graph [2%nat] 0%nat) by (by eapply reachable_producer).
    apply Hbefore; [apply Hmem|apply Hmem|]; done.
Defined.
(** ** Concat index resolver *)

Lemma zeros_length (n : nat) : length (zeros n) = n.
Proof. apply length_replicate. Qed.

Lemma unit_at_length (rank k : nat) (v : N) : length (unit_at rank k v) = rank.
Proof. unfold unit_at. by rewrite length_insert, zeros_length. Qed.

Lemma vadd_length (a b : shape_t) :
  length a = length b → length (vadd a b) = length a.
Proof. intros H. unfold vadd. rewrite length_zip_with. lia. Qed.

Lemma vadd_zeros_r (a : shape_t) : vadd a (zeros (length a)) = a.
Proof.
  unfold vadd, zeros. induction a as [|x a IH]; simpl; [done|].
  rewrite IH. f_equal. lia.
Qed.

Lemma vadd_assoc (a b c : shape_t) : vadd (vadd a b) c = vadd a (vadd b c).
Proof.
  unfold vadd. revert b c. induction a as [|x a IH]; intros [|y b] [|z c]; simpl; try done.
  rewrite IH. f_equal. lia.
Qed.

Lemma shape_add_ok (a b : shape_t) :
  length a = length b → shape_add a b = Ok (vadd a b).
Proof. intros H. unfold shape_add. by rewrite decide_True. Qed.

Lemma shape_add_at_unit (rank k : nat) (s v : N) :
  (k < rank)%nat →
  shape_add_at (unit_at rank k s) k v = Ok (unit_at rank k (s + v)).
Proof.
  intros Hk. unfold shape_add_at, unit_at.
  rewrite list_lookup_insert_eq by (by rewrite zeros_length).
  by rewrite list_insert_insert_eq.
Qed.

Lemma unit_at_zero (rank k : nat) : (k < rank)%nat → unit_at rank k 0 = zeros rank.
Proof.
  intros Hk. unfold unit_at. apply list_insert_id.
  unfold zeros. by apply lookup_replicate_2.
Qed.

Lemma foldl_add_foldr (l : list N) (a : N) : foldl N.add a l = a + foldr N.add 0 l.
Proof.
  revert a. induction l as [|x l IH]; intros a; simpl; [lia|]. rewrite IH. lia.
Qed.

Lemma extent_sum_snoc (k : nat) (ins : list input_connector) (i : input_connector) :
  extent_sum k (ins ++ [i]) = extent_sum k ins + extent k i.
Proof.
  unfold extent_sum. rewrite fmap_app, foldr_app. simpl.
  generalize (extent k i). induction (extent k <$> ins) as [|x l IH]; intros e; simpl; [lia|].
  rewrite IH. lia.
Qed.

Lemma parents_changed_refl (bufs : buffer_map) : parents_changed bufs bufs.
Proof. by intros x. Qed.

Lemma parents_changed_trans (b1 b2 b3 : buffer_map) :
  parents_changed b1 b2 → parents_changed b2 b3 → parents_changed b1 b3.
Proof. intros H12 H23 x. by rewrite H23, H12. Qed.

Lemma parents_changed_insert (bufs : buffer_map) (x : connector) (b : logical_buffer)
    (p : option parent_desc) :
  bufs !! x = Some b → parents_changed bufs (<[x := set_parent p b]> bufs).
Proof.
  intros Hx y. destruct (decide (y = x)) as [->|Hne].
  - by rewrite lookup_insert_eq, Hx.
  - by rewrite lookup_insert_ne.
Qed.

Lemma parents_changed_is_Some (bufs bufs' : buffer_map) (x : connector) :
  parents_changed bufs bufs' → is_Some (bufs !! x) → is_Some (bufs' !! x).
Proof.
  intros H [b Hb]. specialize (H x). rewrite Hb in H.
  destruct (bufs' !! x); [eauto|done].
Qed.

Lemma distinct_sources_tail (i : input_connector) (ins : list input_connector) :
  distinct_sources (i :: ins) → distinct_sources ins.
Proof.
  intros H a b ia ib src Ha Hb Hca Hcb.
  assert (S a = S b) by (eapply H; eauto). lia.
Qed.

Lemma distinct_sources_head (i : input_connector) (ins : list input_connector)
    (src : connector) :
  distinct_sources (i :: ins) → connection i = Some src → not_a_source ins src.
Proof.
  intros H Hc ic Hic Hsrc. apply list_elem_of_lookup in Hic as [m Hm].
  assert (0%nat = S m) by (eapply (H 0%nat (S m)); eauto). lia.
Qed.

Lemma extent_sum_cons (k : nat) (i : input_connector) (ins : list input_connector) :
  extent_sum k (i :: ins) = extent k i + extent_sum k ins.
Proof. reflexivity. Qed.

Lemma init_index_fold (out : connector) (k R : nat) :
  (k < R)%nat →
  ∀ (ins : list input_connector) (bufs : buffer_map) (s : N),
  distinct_sources ins →
  Forall (λ i, length (in_shape i) = R
               ∧ ∃ src, connection i = Some src ∧ is_Some (bufs !! src)) ins →
  ∃ bufs',
    foldM (init_index out k) (bufs, unit_at R k s) ins
      = Ok (bufs', unit_at R k (s + extent_sum k ins))
    ∧ parents_changed bufs bufs'
    ∧ (∀ m ic src, ins !! m = Some ic → connection ic = Some src →
         parent_of bufs' src
         = Some (Some {| parent := out;
                         begin := unit_at R k (s + extent_sum k (take m ins)) |}))
    ∧ (∀ x, not_a_source ins x → bufs' !! x = bufs !! x).
Proof.
  intros Hk. induction ins as [|i ins IH]; intros bufs s Hdist Hall; simpl.
  - exists bufs. unfold extent_sum. simpl. rewrite N.add_0_r.
    split; [done|]. split; [apply parents_changed_refl|]. split; [|done].
    by intros m ic src ?.
  - apply Forall_cons in Hall as [(Hlen & src & Hc & [b Hb]) Hall].
    unfold init_index at 1. simpl. rewrite Hc. simpl. unfold buf_at. rewrite Hb. simpl.
    destruct (lookup_lt_is_Some_2 (in_shape i) k ltac:(lia)) as [e He].
    rewrite He. simpl. rewrite shape_add_at_unit by done. simpl.
    assert (Hext : extent k i = e) by (unfold extent; by rewrite He).
    pose proof (distinct_sources_head _ _ _ Hdist Hc) as Hhead.
    set (bufs1 := <[src := set_parent (Some {| parent := out; begin := unit_at R k s |}) b]> bufs).
    destruct (IH bufs1 (s + e) (distinct_sources_tail _ _ Hdist))
      as (bufs' & Hrun & Hsame & Hset & Hframe).
    { eapply Forall_impl; [exact Hall|]. intros i' (Hl & src' & Hc' & Hs').
      split; [done|]. exists src'. split; [done|].
      eapply parents_changed_is_Some; [|done]. by apply parents_changed_insert. }
    exists bufs'.
    assert (Hsum : ∀ l, s + extent_sum k (i :: l) = s + e + extent_sum k l).
    { intros l. rewrite extent_sum_cons, Hext. lia. }
    rewrite Hsum. split; [done|]. split.
    { eapply parents_changed_trans; [|done]. by apply parents_changed_insert. }
    split.
    + intros [|m] ic src' Hm Hc'; simpl in Hm.
      * injection Hm as <-. assert (src' = src) as -> by congruence.
        unfold parent_of. rewrite Hframe by done. unfold bufs1.
        rewrite lookup_insert_eq. simpl. do 4 f_equal.
        change (extent_sum k []) with 0. lia.
      * rewrite firstn_cons, Hsum. by eapply Hset.
    + intros x Hx. rewrite Hframe.
      * unfold bufs1. rewrite lookup_insert_ne; [done|]. intros <-.
        by eapply (Hx i); [left|].
      * intros ic Hic. apply Hx. by right.
Qed.

Lemma shift_index_fold (out : connector) (cb : shape_t) :
  ∀ (ins : list input_connector) (bufs : buffer_map),
  distinct_sources ins →
  Forall (λ i, ∃ src b d, connection i = Some src ∧ bufs !! src = Some b
                          ∧ lb_parent b = Some d ∧ length (begin d) = length cb) ins →
  ∃ bufs',
    foldM (shift_index out cb) bufs ins = Ok bufs'
    ∧ parents_changed bufs bufs'
    ∧ (∀ ic src b d, ic ∈ ins → connection ic = Some src →
         bufs !! src = Some b → lb_parent b = Some d →
         parent_of bufs' src = Some (Some {| parent := out; begin := vadd (begin d) cb |}))
    ∧ (∀ x, not_a_source ins x → bufs' !! x = bufs !! x).
Proof.
  induction ins as [|i ins IH]; intros bufs Hdist Hall; simpl.
  - exists bufs. split; [done|]. split; [apply parents_changed_refl|]. split; [|done].
    by intros ic src b d ?%elem_of_nil.
  - apply Forall_cons in Hall as [(src & b & d & Hc & Hb & Hd & Hlen) Hall].
    unfold shift_index at 1. rewrite Hc. simpl. unfold buf_at. rewrite Hb. simpl.
    rewrite Hd. simpl. rewrite shape_add_ok by done. simpl.
    pose proof (distinct_sources_head _ _ _ Hdist Hc) as Hhead.
    set (bufs1 := <[src := set_parent (Some {| parent := out; begin := vadd (begin d) cb |}) b]> bufs).
    destruct (IH bufs1 (distinct_sources_tail _ _ Hdist))
      as (bufs' & Hrun & Hsame & Hset & Hframe).
    { apply Forall_forall. intros i' Hi'.
      rewrite Forall_forall in Hall. destruct (Hall i' Hi') as (src' & b' & d' & Hc' & Hb' & Hd').
      exists src', b', d'. split; [done|]. split; [|done].
      unfold bufs1. rewrite lookup_insert_ne; [done|]. intros <-. by eapply Hhead. }
    exists bufs'. split; [done|]. split.
    { eapply parents_changed_trans; [|done]. by apply parents_changed_insert. }
    split.
    + intros ic src' b' d' [->|Hic]%elem_of_cons Hc' Hb' Hd'.
      * assert (src' = src) as -> by congruence.
        assert (b' = b) as -> by congruence. assert (d' = d) as -> by congruence.
        unfold parent_of. rewrite Hframe by done. unfold bufs1.
        by rewrite lookup_insert_eq.
      * eapply Hset; [done|done| |done]. unfold bufs1.
        rewrite lookup_insert_ne; [done|]. intros <-. by eapply Hhead.
    + intros x Hx. rewrite Hframe.
      * unfold bufs1. rewrite lookup_insert_ne; [done|]. intros <-.
        by eapply (Hx i); [left|].
      * intros ic Hic. apply Hx. by right.
Qed.
(** Below 2^31 the [int] of [std::accumulate] holds the sum. *)
Lemma to_int_small (z : Z) : (0 ≤ z < 2 ^ 31)%Z → to_int z = z.
Proof. intros H. unfold to_int. rewrite Z.mod_small; lia. Qed.

Lemma accumulate_int_from (l : list N) (init : Z) :
  (0 ≤ init)%Z → (init + Z.of_N (foldr N.add 0%N l) < 2 ^ 31)%Z →
  foldl (λ init x, to_int (init + Z.of_N x)) init l
  = (init + Z.of_N (foldr N.add 0%N l))%Z.
Proof.
  revert init. induction l as [|x l IH]; intros init H0 H; simpl in *; [lia|].
  rewrite to_int_small by lia. rewrite IH by lia. lia.
Qed.

Lemma accumulate_int_small (l : list N) :
  foldr N.add 0 l < 2 ^ 31 → accumulate_int l = Z.of_N (foldr N.add 0 l).
Proof.
  intros H. unfold accumulate_int. rewrite accumulate_int_from; lia.
Qed.

Lemma int_to_size_t_small (n : N) : n < 2 ^ 31 → int_to_size_t (Z.of_N n) = n.
Proof.
  intros H. unfold int_to_size_t. rewrite Z.mod_small by lia. apply N2Z.id.
Qed.

Lemma extent_sum_take (k : nat) (ins : list input_connector) (idx : nat) :
  extent_sum k (take idx ins) ≤ extent_sum k ins.
Proof.
  unfold extent_sum. revert idx.
  induction ins as [|i ins IH]; intros [|idx]; cbn [take fmap list_fmap foldr]; try lia.
  specialize (IH idx). lia.
Qed.

Section chains.

Variable g : graph.
Variable rk : node_id → nat.
Variable bufs0 : buffer_map.
Hypothesis rk_bound : ∀ n, (n < length g)%nat → (rk n < length g)%nat.
Hypothesis rk_feeds : ∀ p n, feeds g p n → (p < length g)%nat ∧ (rk p < rk n)%nat.
Hypothesis g_connected : connected g.
Hypothesis g_exclusive : exclusive_inputs g.
Hypothesis g_concats : ∀ n c, view_concat g n c → concat_wf g bufs0 n c.
Hypothesis g_small : ∀ n c, view_concat g n c → extents_fit_int c.

Lemma get_output_ok (c : connector) (nd : node) (oc : output_connector) :
  g !! c.1 = Some nd → outputs nd !! c.2 = Some oc → get_output g c = Ok oc.
Proof.
  intros Hn Ho. unfold get_output. rewrite (proj2 (get_node_ok _ _ _) Hn). simpl.
  by rewrite Ho.
Qed.

Lemma get_output_inv (c : connector) (oc : output_connector) :
  get_output g c = Ok oc → ∃ nd, g !! c.1 = Some nd ∧ outputs nd !! c.2 = Some oc.
Proof.
  unfold get_output, get_node. destruct (g !! c.1) as [nd|]; simpl; [|done].
  intros H%of_option_ok. eauto.
Qed.

Lemma direct_child_inv (child p : node_id) :
  try_get_direct_child_concat g child = Ok (Some p) →
  ∃ oc k, get_output g (child, 0%nat) = Ok oc ∧ connections oc = [(p, k)]
          ∧ opcode_at g p = Some op_concat.
Proof.
  unfold try_get_direct_child_concat.
  destruct (get_output g (child, 0%nat)) as [oc|] eqn:Hoc; simpl; [|done].
  destruct (connections oc) as [|[q k] [|]] eqn:E; try done. simpl.
  unfold opcode_of, get_node, opcode_at.
  destruct (g !! q) as [qn|] eqn:Hq; simpl; [|done].
  case_decide as Hop; [|done]. intros [= <-].
  exists oc, k. rewrite Hq. simpl. by rewrite Hop.
Qed.

Lemma view_parent_input (child p : node_id) :
  view_parent g child p →
  ∃ pn idx ic, view_concat g p pn
    ∧ get_input_index pn (child, 0%nat) = Ok idx
    ∧ inputs pn !! idx = Some ic ∧ connection ic = Some (child, 0%nat)
    ∧ feeds g child p.
Proof.
  intros [Hdc (pn & Hv)]. destruct (direct_child_inv _ _ Hdc) as (oc & k & Hoc & Hcs & _).
  destruct g_connected as [Hto _].
  destruct (Hto (child, 0%nat) oc p k Hoc) as (pn' & ic & Hp & Hic & Hc).
  { rewrite Hcs. by left. }
  pose proof Hv as (Hp' & Hop & Hact). assert (pn' = pn) as -> by congruence.
  unfold get_input_index.
  destruct (list_find (λ i, connection i = Some (child, 0%nat)) (inputs pn))
    as [[idx ic']|] eqn:Hfind.
  - pose proof Hfind as Hfound. apply list_find_Some in Hfind as (Hidx & Hc' & _).
    exists pn, idx, ic'. split; [done|]. split; [by rewrite Hfound|].
    split; [done|]. split; [done|].
    exists pn, ic', 0%nat. split; [done|]. split; [by eapply list_elem_of_lookup_2|done].
  - apply list_find_None in Hfind. rewrite Forall_forall in Hfind.
    exfalso. eapply Hfind; [by eapply list_elem_of_lookup_2|done].
Qed.

Lemma view_concat_sources (n : node_id) (c : node) :
  view_concat g n c → distinct_sources (inputs c).
Proof.
  intros Hv i i' ic ic' src Hi Hi' Hc Hc'.
  by destruct (g_exclusive n c n c i i' ic ic' src).
Qed.

Lemma below_top_feeds (a m : node_id) : below_top g a m → rtc (feeds g) a m.
Proof.
  induction 1 as [child p Hv|child p m Hv _ IH]; [done|].
  destruct (view_parent_input _ _ Hv) as (_ & _ & _ & _ & _ & _ & _ & Hf).
  by eapply rtc_l.
Qed.

Lemma accumulate_extents (k : nat) (ins : list input_connector) (idx : nat) :
  extent_sum k ins < 2 ^ 31 →
  (idx ≤ length ins)%nat →
  accumulate (extent k <$> ins) idx = Ok (extent_sum k (take idx ins)).
Proof.
  intros Hsmall H. unfold accumulate. rewrite length_fmap, decide_True by done.
  pose proof (extent_sum_take k ins idx) as Hle.
  rewrite <- fmap_take. unfold extent_sum in *.
  rewrite accumulate_int_small, int_to_size_t_small; [done|lia|lia].
Qed.

Lemma shape_add_at_zeros (rank k : nat) (v : N) :
  (k < rank)%nat → shape_add_at (zeros rank) k v = Ok (unit_at rank k v).
Proof.
  intros Hk. rewrite <- (unit_at_zero rank k Hk), shape_add_at_unit by done.
  by rewrite N.add_0_l.
Qed.

(** What [concat_wf] says about one input of a view concat. *)
Lemma concat_wf_input (p : node_id) (pn : node) (idx : nat) (ic : input_connector)
    (src : connector) :
  view_concat g p pn → inputs pn !! idx = Some ic → connection ic = Some src →
  ∃ oc soc,
    outputs pn !! 0%nat = Some oc
    ∧ is_Some (bufs0 !! (p, 0%nat))
    ∧ (axis pn < length (out_shape oc))%nat
    ∧ length (in_shape ic) = length (out_shape oc)
    ∧ is_Some (bufs0 !! src)
    ∧ get_output g src = Ok soc
    ∧ length (out_shape soc) = length (out_shape oc)
    ∧ concat_dims pn = extent (axis pn) <$> inputs pn.
Proof.
  intros Hv Hidx Hc.
  destruct (g_concats _ _ Hv) as (oc & Ho & Hb & _ & Hax & Hall & Hdims).
  rewrite Forall_forall in Hall.
  destruct (Hall ic) as (Hlen & src' & soc & Hc' & Hs & Hso & Hr).
  { by eapply list_elem_of_lookup_2. }
  assert (src' = src) as -> by congruence.
  exists oc, soc. done.
Qed.

Lemma iterate_parent_rises (n : node_id) (c : node) (R : nat) :
  view_concat g n c →
  ∀ (fuel : nat) (child : node_id) (bufs : buffer_map) (acc : nat → shape_t),
  (length g ≤ fuel + rk child)%nat →
  (rk n ≤ rk child)%nat →
  parents_changed bufs0 bufs →
  (∃ cn oc, g !! child = Some cn ∧ outputs cn !! 0%nat = Some oc
            ∧ length (out_shape oc) = R) →
  (∀ m ic src, inputs c !! m = Some ic → connection ic = Some src →
     parent_of bufs src = Some (Some {| parent := (child, 0%nat); begin := acc m |})
     ∧ length (acc m) = R) →
  ∃ bufs' top off,
    iterate_parent fuel g c child bufs = Ok bufs'
    ∧ rises_to g R child top off
    ∧ parents_changed bufs bufs'
    ∧ (∀ m ic src, inputs c !! m = Some ic → connection ic = Some src →
         parent_of bufs' src
         = Some (Some {| parent := (top, 0%nat); begin := vadd (acc m) off |}))
    ∧ (∀ x, not_a_source (inputs c) x → (∀ m, below_top g child m → x ≠ (m, 0%nat)) →
         bufs' !! x = bufs !! x).
Proof.
  intros Hvc. induction fuel as [|fuel IH]; intros child bufs acc Hfuel Hrk Hsame Hchild Hinv.
  { destruct Hchild as (cn & _ & Hcn & _).
    specialize (rk_bound child (lookup_lt_Some _ _ _ Hcn)). lia. }
  destruct Hchild as (cn & child_oc & Hcn & Hco & HR).
  assert (Hstop : ∀ bufs1 : buffer_map, bufs1 = bufs → (∀ p, ¬ view_parent g child p) →
            ∃ bufs' top off,
              Ok bufs1 = Ok bufs'
              ∧ rises_to g R child top off
              ∧ parents_changed bufs bufs'
              ∧ (∀ m ic src, inputs c !! m = Some ic → connection ic = Some src →
                   parent_of bufs' src
                   = Some (Some {| parent := (top, 0%nat); begin := vadd (acc m) off |}))
              ∧ (∀ x, not_a_source (inputs c) x →
                   (∀ m, below_top g child m → x ≠ (m, 0%nat)) → bufs' !! x = bufs !! x)).
  { intros bufs1 -> Hno. exists bufs, child, (zeros R).
    split; [done|]. split; [by constructor|]. split; [apply parents_changed_refl|].
    split; [|done]. intros m ic src Hm Hc. destruct (Hinv m ic src Hm Hc) as [-> Hlen].
    by rewrite <- Hlen, vadd_zeros_r. }
  simpl.
  destruct (try_get_direct_child_concat g child) as [[p|]|e] eqn:Hdc; simpl.
  2:{ apply Hstop; [done|]. intros p [Hp _]. congruence. }
  2:{ exfalso. unfold try_get_direct_child_concat in Hdc.
      rewrite (get_output_ok (child, 0%nat) cn child_oc Hcn Hco) in Hdc. simpl in Hdc.
      destruct (connections child_oc) as [|[q k] [|]] eqn:E; try done. simpl in Hdc.
      destruct g_connected as [Hto _].
      destruct (Hto (child, 0%nat) child_oc q k) as (qn & _ & Hq & _).
      { by apply get_output_ok with cn. }
      { rewrite E. by left. }
      rewrite (opcode_of_ok _ _ _ Hq) in Hdc. simpl in Hdc. by case_decide. }
  destruct (direct_child_inv _ _ Hdc) as (oc' & k & Hoc' & Hcs & Hop).
  assert (∃ pn, g !! p = Some pn ∧ runtime_opcode pn = op_concat) as (pn & Hp & Hpop).
  { unfold opcode_at in Hop. destruct (g !! p) as [pn|]; [|done].
    exists pn. split; [done|]. simpl in Hop. congruence. }
  rewrite (proj2 (get_node_ok _ _ _) Hp). simpl.
  destruct (has_action pn) eqn:Hact.
  { apply Hstop; [done|]. intros p' [Hp' (pn' & Hg' & _ & Hact')].
    assert (p' = p) as -> by congruence. congruence. }
  assert (Hvp : view_concat g p pn) by done.
  assert (Hpar : view_parent g child p) by (split; [done|by exists pn]).
  destruct (view_parent_input _ _ Hpar) as (pn' & idx & ic & Hvp' & Hidx & Hic & Hicc & Hf).
  assert (pn' = pn) as -> by (destruct Hvp' as [? _]; congruence).
  destruct (concat_wf_input p pn idx ic _ Hvp Hic Hicc)
    as (poc & soc & Hpo & Hpb & Hax & _ & Hcb & Hso & Hrank & Hdims).
  assert (soc = child_oc) as ->.
  { rewrite (get_output_ok (child, 0%nat) cn child_oc Hcn Hco) in Hso. congruence. }
  rewrite Hidx. simpl.
  rewrite (get_output_ok (child, 0%nat) cn child_oc Hcn Hco). simpl.
  rewrite Hdims, (accumulate_extents _ _ _ (g_small _ _ Hvp))
    by (apply lookup_lt_Some in Hic; lia).
  simpl.
  rewrite HR, shape_add_at_zeros by lia. simpl.
  destruct (parents_changed_is_Some _ _ _ Hsame Hcb) as [in_buf Hin].
  destruct (parents_changed_is_Some _ _ _ Hsame Hpb) as [out_buf Hout].
  unfold buf_at. rewrite Hin. simpl. rewrite Hout. simpl.
  fold (own_begin R pn idx).
  set (cb := own_begin R pn idx).
  set (bufs1 := <[(child, 0%nat) := set_parent (Some {| parent := (p, 0%nat); begin := cb |}) in_buf]> bufs).
  assert (Hcblen : length cb = R) by apply unit_at_length.
  assert (Hnotsrc : not_a_source (inputs c) (child, 0%nat)).
  { intros ic' Hic' Hc'.
    assert (feeds g child n) as Hfn.
    { destruct Hvc as (Hn & _). by exists c, ic', 0%nat. }
    apply rk_feeds in Hfn. lia. }
  assert (Hlook : ∀ m ic' src, inputs c !! m = Some ic' → connection ic' = Some src →
            ∃ b, bufs1 !! src = Some b
                 ∧ lb_parent b = Some {| parent := (child, 0%nat); begin := acc m |}
                 ∧ length (acc m) = R).
  { intros m ic' src Hm Hc'. destruct (Hinv m ic' src Hm Hc') as [Hpar' Hlen].
    unfold parent_of in Hpar'. destruct (bufs !! src) as [b|] eqn:Hb; [|done].
    exists b. split; [|split; [|done]].
    - unfold bufs1. rewrite lookup_insert_ne; [done|]. intros <-.
      eapply Hnotsrc; [by eapply list_elem_of_lookup_2|done].
    - simpl in Hpar'. congruence. }
  assert (Hsrc : ∀ ic', ic' ∈ inputs c → ∃ src, connection ic' = Some src).
  { intros ic' Hic'. destruct (g_concats _ _ Hvc) as (oc0 & _ & _ & _ & _ & Hall & _).
    rewrite Forall_forall in Hall. destruct (Hall ic' Hic') as (_ & src & soc & ? & _). eauto. }
  destruct (shift_index_fold (p, 0%nat) cb (inputs c) bufs1 (view_concat_sources _ _ Hvc))
    as (bufs2 & Hrun2 & Hsame2 & Hset2 & Hframe2).
  { apply Forall_forall. intros ic' Hic'.
    destruct (Hsrc ic' Hic') as [src Hc'].
    apply list_elem_of_lookup in Hic' as [m Hm].
    destruct (Hlook m ic' src Hm Hc') as (b & Hb & Hbp & Hlen).
    exists src, b, {| parent := (child, 0%nat); begin := acc m |}.
    split; [done|]. split; [done|]. split; [done|]. simpl. congruence. }
  rewrite Hrun2. simpl.
  assert (Hsame1 : parents_changed bufs bufs1) by (by apply parents_changed_insert).
  destruct (IH p bufs2 (λ m, vadd (acc m) cb))
    as (bufs' & top & off & Hrun & Hrise & Hsame' & Hset' & Hframe').
  { apply rk_feeds in Hf. lia. }
  { apply rk_feeds in Hf. lia. }
  { eapply parents_changed_trans; [exact Hsame|].
    by eapply parents_changed_trans. }
  { exists pn, poc. split; [done|]. split; [done|]. congruence. }
  { intros m ic' src Hm Hc'. destruct (Hlook m ic' src Hm Hc') as (b & Hb & Hbp & Hlen).
    split.
    - apply (Hset2 ic' src b {| parent := (child, 0%nat); begin := acc m |});
        [by eapply list_elem_of_lookup_2|done|done|done].
    - rewrite vadd_length; congruence. }
  exists bufs', top, (vadd cb off). split; [done|]. split.
  { by eapply rises_step. }
  split.
  { eapply parents_changed_trans; [exact Hsame1|]. by eapply parents_changed_trans. }
  split.
  - intros m ic' src Hm Hc'. rewrite (Hset' m ic' src Hm Hc'). by rewrite vadd_assoc.
  - intros x Hx Hbelow. rewrite Hframe', Hframe2; [|done|done|].
    + unfold bufs1. rewrite lookup_insert_ne; [done|]. intros <-.
      by apply (Hbelow child (below_top_here g child p Hpar)).
    + intros m Hm. apply Hbelow. by eapply below_top_up.
Qed.

Lemma fix_concat_node_view (n : node_id) (c : node) (bufs : buffer_map) :
  view_concat g n c →
  parents_changed bufs0 bufs →
  ∃ bufs' top off,
    fix_concat_node g bufs n = Ok bufs'
    ∧ rises_to g (output_rank c) n top off
    ∧ parents_changed bufs bufs'
    ∧ (∀ m ic src, inputs c !! m = Some ic → connection ic = Some src →
         parent_of bufs' src
         = Some (Some {| parent := (top, 0%nat);
                         begin := vadd (own_begin (output_rank c) c m) off |}))
    ∧ (∀ x, not_a_source (inputs c) x → (∀ m, below_top g n m → x ≠ (m, 0%nat)) →
         bufs' !! x = bufs !! x).
Proof.
  intros Hvc Hsame. pose proof Hvc as (Hn & Hop & Hact).
  destruct (g_concats _ _ Hvc) as (oc & Ho & Hb & Hne & Hax & Hall & Hdims).
  unfold fix_concat_node. rewrite (proj2 (get_node_ok _ _ _) Hn). simpl.
  rewrite decide_True by done. rewrite Hact.
  destruct (parents_changed_is_Some _ _ _ Hsame Hb) as [out_buf Hout].
  unfold buf_at. rewrite Hout. simpl.
  assert (∃ i0, inputs c !! 0%nat = Some i0) as [i0 Hi0'].
  { destruct (inputs c) as [|i0 ins]; [done|]. by exists i0. }
  rewrite Hi0'. simpl.
  assert (HR : output_rank c = length (out_shape oc)) by (unfold output_rank; by rewrite Ho).
  assert (Hi0 : length (in_shape i0) = output_rank c).
  { rewrite Forall_forall in Hall. destruct (Hall i0) as [-> _]; [|done].
    by eapply list_elem_of_lookup_2. }
  rewrite Hi0, <- (unit_at_zero (output_rank c) (axis c)) by lia.
  destruct (init_index_fold (n, 0%nat) (axis c) (output_rank c) ltac:(lia)
              (inputs c) bufs 0 (view_concat_sources _ _ Hvc))
    as (bufs1 & Hrun1 & Hsame1 & Hset1 & Hframe1).
  { eapply Forall_impl; [exact Hall|]. intros i (Hlen & src & soc & Hc & Hs & _).
    split; [congruence|]. exists src. split; [done|].
    by eapply parents_changed_is_Some. }
  rewrite Hrun1. simpl.
  destruct (iterate_parent_rises n c (output_rank c) Hvc (length g) n bufs1
              (own_begin (output_rank c) c))
    as (bufs' & top & off & Hrun & Hrise & Hsame' & Hset & Hframe).
  { lia. }
  { lia. }
  { by eapply parents_changed_trans. }
  { exists c, oc. done. }
  { intros m ic src Hm Hc. split; [|apply unit_at_length].
    rewrite (Hset1 m ic src Hm Hc). unfold own_begin. by rewrite N.add_0_l. }
  exists bufs', top, off. split; [done|]. split; [done|].
  split; [by eapply parents_changed_trans|]. split; [done|].
  intros x Hx Hbelow. rewrite Hframe by done. by apply Hframe1.
Qed.

Lemma fix_concat_node_frame (n : node_id) (bufs : buffer_map) :
  (n < length g)%nat →
  parents_changed bufs0 bufs →
  ∃ bufs',
    fix_concat_node g bufs n = Ok bufs'
    ∧ parents_changed bufs bufs'
    ∧ ∀ x, (∀ c, view_concat g n c →
              not_a_source (inputs c) x ∧ ∀ m, below_top g n m → x ≠ (m, 0%nat)) →
           bufs' !! x = bufs !! x.
Proof.
  intros Hn Hsame. destruct (lookup_lt_is_Some_2 g n Hn) as [c Hc].
  destruct (decide (runtime_opcode c = op_concat)) as [Hop|Hop].
  - destruct (has_action c) eqn:Hact.
    + exists bufs. split; [|split; [apply parents_changed_refl|done]].
      unfold fix_concat_node. rewrite (proj2 (get_node_ok _ _ _) Hc). simpl.
      rewrite decide_True by done. by rewrite Hact.
    + assert (Hvc : view_concat g n c) by done.
      destruct (fix_concat_node_view n c bufs Hvc Hsame)
        as (bufs' & top & off & Hrun & _ & Hsame' & _ & Hframe).
      exists bufs'. split; [done|]. split; [done|].
      intros x Hx. destruct (Hx c Hvc) as [Hns Hbt]. by apply Hframe.
  - exists bufs. split; [|split; [apply parents_changed_refl|done]].
    unfold fix_concat_node. rewrite (proj2 (get_node_ok _ _ _) Hc). simpl.
    by rewrite decide_False.
Qed.

Lemma fix_concat_indices_frame : ∀ (order : list node_id) (bufs : buffer_map),
  (∀ n, n ∈ order → (n < length g)%nat) →
  parents_changed bufs0 bufs →
  ∃ bufs',
    fix_concat_indices g order bufs = Ok bufs'
    ∧ parents_changed bufs bufs'
    ∧ ∀ x, (∀ n c, n ∈ order → view_concat g n c →
              not_a_source (inputs c) x ∧ ∀ m, below_top g n m → x ≠ (m, 0%nat)) →
           bufs' !! x = bufs !! x.
Proof.
  unfold fix_concat_indices.
  induction order as [|n order IH]; intros bufs Hlt Hsame; simpl.
  - exists bufs. split; [done|]. split; [apply parents_changed_refl|done].
  - destruct (fix_concat_node_frame n bufs) as (bufs1 & Hrun1 & Hsame1 & Hframe1);
      [apply Hlt; by left|done|].
    rewrite Hrun1. simpl.
    destruct (IH bufs1) as (bufs' & Hrun & Hsame' & Hframe).
    { intros n' Hn'. apply Hlt. by right. }
    { by eapply parents_changed_trans. }
    exists bufs'. split; [done|]. split; [by eapply parents_changed_trans|].
    intros x Hx. rewrite Hframe, Hframe1; [done| |].
    + intros c Hvc. apply (Hx n c); [by left|done].
    + intros n' c Hn' Hvc. apply (Hx n' c); [by right|done].
Qed.

Lemma feeds_before (order : list node_id) (a b : node_id) (i : nat) :
  producers_first g order →
  rtc (feeds g) a b → order !! i = Some b →
  ∃ j, (j ≤ i)%nat ∧ order !! j = Some a.
Proof.
  intros Htopo Hrtc. revert i.
  induction Hrtc as [a|a a' b Hf _ IH]; intros i Hi; [eauto|].
  destruct (IH i Hi) as (j' & Hle & Hj').
  destruct (Htopo j' a' Hj' a Hf) as (j & Hlt & Hj).
  exists j. split; [lia|done].
Qed.

End chains.
Lemma below_top_end (g : graph) (a m : node_id) :
  below_top g a m → ∃ p, view_parent g m p.
Proof. induction 1; eauto. Qed.

(** C1, as the code has it.  On an acyclic graph whose connections are
    consistent, whose view concats are well formed, share no input and
    have extents along their axis that sum to less than 2^31, visited
    producers first: after the resolver, input number [m] of every
    visited view concat [n] has as parent the output of the concat [top] at
    which the walk upward from [n] ends, and as begin the sum of its begin
    inside [n]'s output (the extents of the inputs before it, along [n]'s
    axis) and the begin of [n]'s output inside [top]'s (for each concat on
    the way, the extents of the inputs before the chain's input, along that
    concat's axis). *)
Theorem fix_concat_indices_absolute (g : graph) (order : list node_id) (bufs : buffer_map) :
  acyclic g →
  connected g →
  exclusive_inputs g →
  (∀ n c, view_concat g n c → concat_wf g bufs n c) →
  (∀ n c, view_concat g n c → extents_fit_int c) →
  NoDup order →
  producers_first g order →
  (∀ n, n ∈ order → (n < length g)%nat) →
  ∃ bufs',
    fix_concat_indices g order bufs = Ok bufs'
    ∧ ∀ n c m ic src,
        n ∈ order → view_concat g n c →
        inputs c !! m = Some ic → connection ic = Some src →
        ∃ top off,
          rises_to g (output_rank c) n top off
          ∧ parent_of bufs' src
            = Some (Some {| parent := (top, 0%nat);
                            begin := vadd (own_begin (output_rank c) c m) off |}).
Proof.
  intros (rk & Hbound & Hfeeds) Hconn Hexcl Hwf Hsmall Hnd Htopo Hlt.
  destruct (fix_concat_indices_frame g rk bufs Hbound Hfeeds Hconn Hexcl Hwf Hsmall order bufs Hlt
              (parents_changed_refl _)) as (bufs' & Hrun & _ & _).
  exists bufs'. split; [done|].
  intros n c m ic src Hn Hvc Hm Hc.
  apply list_elem_of_split in Hn as (pre & post & ->).
  unfold fix_concat_indices in Hrun. rewrite foldM_app in Hrun.
  destruct (fix_concat_indices_frame g rk bufs Hbound Hfeeds Hconn Hexcl Hwf Hsmall pre bufs)
    as (bufs1 & Hrun1 & Hsame1 & _).
  { intros n' Hn'. apply Hlt, elem_of_app. by left. }
  { apply parents_changed_refl. }
  unfold fix_concat_indices in Hrun1. rewrite Hrun1 in Hrun. simpl in Hrun.
  destruct (fix_concat_node_view g rk bufs Hbound Hfeeds Hconn Hexcl Hwf Hsmall n c bufs1 Hvc Hsame1)
    as (bufs2 & top & off & Hrun2 & Hrise & Hsame2 & Hset & _).
  rewrite Hrun2 in Hrun. simpl in Hrun.
  destruct (fix_concat_indices_frame g rk bufs Hbound Hfeeds Hconn Hexcl Hwf Hsmall post bufs2)
    as (bufs3 & Hrun3 & _ & Hframe).
  { intros n' Hn'. apply Hlt, elem_of_app. right. by right. }
  { by eapply parents_changed_trans. }
  unfold fix_concat_indices in Hrun3. rewrite Hrun3 in Hrun. injection Hrun as <-.
  exists top, off. split; [done|].
  rewrite <- (Hset m ic src Hm Hc). unfold parent_of. f_equal. apply Hframe.
  apply NoDup_app in Hnd as (_ & Hdisj & Hnd').
  apply NoDup_cons in Hnd' as [Hnpost _].
  intros n' c' Hn' Hvc'. split.
  - intros ic' Hic' Hc'. apply list_elem_of_lookup in Hic' as [m' Hm'].
    destruct (Hexcl n c n' c' m m' ic ic' src) as [-> _]; done.
  - intros m' Hbt ->.
    destruct (below_top_end _ _ _ Hbt) as [p Hvp].
    pose proof Hvp as [Hdc _].
    destruct (direct_child_inv _ _ _ Hdc) as (oc & k & Hoc & Hcs & _).
    destruct Hconn as [Hto Hfrom].
    destruct Hvc as (Hgn & _).
    destruct (Hfrom n c m ic (m', 0%nat) Hgn Hm Hc) as (oc' & Hoc' & Hin).
    assert (oc' = oc) as -> by congruence.
    rewrite Hcs in Hin. apply list_elem_of_singleton in Hin. injection Hin as -> ->.
    destruct (view_parent_input g (conj Hto Hfrom) _ _ Hvp) as (_ & _ & _ & _ & _ & _ & _ & Hf).
    assert (Hrtc : rtc (feeds g) n' m') by (by apply below_top_feeds).
    assert (Hidx : (pre ++ p :: post) !! length pre = Some p).
    { by rewrite lookup_app_r, Nat.sub_diag by lia. }
    destruct (Htopo _ _ Hidx m' Hf) as (j1 & Hj1 & Hm1).
    destruct (feeds_before g _ _ _ _ Htopo Hrtc Hm1) as (j & Hj & Hn1).
    rewrite lookup_app_l in Hn1 by lia.
    apply (Hdisj n'); [by eapply list_elem_of_lookup_2|by right].
Qed.
(** C1, as the spec words it, fails on a chain of concats along different
    axes.  The pipeline runs on [mixed_graph 1] up to the resolver: both
    concats become views, and [y], input 1 of the inner concat (axis 1),
    ends with begin [2; 2] inside the outer output: the coordinate off the
    concat axis is not zero. *)
Lemma fix_concat_indices_mixed_axes :
  ∃ bufs g1 bufs1 bufs2 d,
    visit_order (mixed_graph 1) [5%nat] = Ok mixed_order
    ∧ make_logical_buffers (mixed_graph 1) mixed_order ∅ = Ok bufs
    ∧ analyze_buffer_alias (mixed_graph 1) mixed_order bufs = Ok (g1, bufs1)
    ∧ view_concat g1 3%nat (inner_concat 0)
    ∧ view_concat g1 4%nat (outer_concat 0)
    ∧ fix_concat_indices g1 mixed_order bufs1 = Ok bufs2
    ∧ parent_of bufs2 (1, 0)%nat = Some (Some d)
    ∧ d = {| parent := (4, 0)%nat; begin := [2; 2] |}
    ∧ ¬ along_axis_only (axis (inner_concat 0)) (begin d).
Proof.
  eexists _, _, _, _, _.
  split; [vm_compute; reflexivity|].
  split; [vm_compute; reflexivity|].
  split; [vm_compute; reflexivity|].
  split; [by vm_compute|].
  split; [by vm_compute|].
  split; [vm_compute; reflexivity|].
  split; [vm_compute; reflexivity|].
  split; [reflexivity|].
  intros H. specialize (H 0%nat 2 eq_refl). simpl in H. by specialize (H ltac:(lia)).
Qed.
(** The offset of a concat inside its parent is kept in an [int]: extents
    that sum to 2^31 give the begin 2^64 - 2^31. *)
Example accumulate_keeps_an_int :
  accumulate [2147483647; 1; 5] 1 = Ok 2147483647
  ∧ accumulate [2147483647; 1; 5] 2 = Ok (2 ^ 64 - 2 ^ 31).
Proof. split; by vm_compute. Qed.

(** An output that a view concat reads twice has one buffer and one
    parent descriptor: the second input overwrites the begin of the first,
    and the walk upward shifts the descriptor once per input.  In
    [doubled_graph] the buffer of [x] (2x4) ends at begin [4; 0] inside
    the 5x4 output of the outer concat. *)
Example fix_concat_indices_repeated_input :
  ∃ order bufs g1 bufs1 bufs2,
    visit_order doubled_graph [4%nat] = Ok order
    ∧ make_logical_buffers doubled_graph order ∅ = Ok bufs
    ∧ analyze_buffer_alias doubled_graph order bufs = Ok (g1, bufs1)
    ∧ fix_concat_indices g1 order bufs1 = Ok bufs2
    ∧ parent_of bufs2 (0, 0)%nat
      = Some (Some {| parent := (3, 0)%nat; begin := [4; 0] |})
    ∧ lb_shape <$> bufs2 !! (0, 0)%nat = Some [2; 4]
    ∧ lb_shape <$> bufs2 !! (3, 0)%nat = Some [5; 4]
    ∧ ¬ exclusive_inputs g1.
Proof.
  eexists _, _, _, _, _.
  split; [vm_compute; reflexivity|].
  split; [vm_compute; reflexivity|].
  split; [vm_compute; reflexivity|].
  split; [vm_compute; reflexivity|].
  split; [by vm_compute|]. split; [by vm_compute|]. split; [by vm_compute|].
  intros H.
  destruct (H 2%nat (joined 0 0 [2; 2]
                       [ {| in_shape := [2; 4]; connection := Some (0, 0)%nat |};
                         {| in_shape := [2; 4]; connection := Some (0, 0)%nat |} ]
                       [4; 4] (3, 1)%nat) 2%nat _ 0%nat 1%nat _ _ (0, 0)%nat
              ltac:(done) ltac:(done) eq_refl eq_refl eq_refl eq_refl) as [_ ?].
  done.
Qed.

Ltac node_cases n :=
  destruct n as [|[|[|[|[|[|n]]]]]]; simpl in *; try discriminate.

Ltac member_cases H :=
  repeat (apply elem_of_cons in H as [H|H]; [subst|]); try (by apply elem_of_nil in H).

Lemma mixed_graph_feeds (p n : node_id) :
  feeds (mixed_graph 0) p n →
  (p, n) ∈ [(0, 3); (1, 3); (2, 4); (3, 4); (4, 5)]%nat.
Proof.
  intros (nd & i & k & Hg & Hi & Hc).
  node_cases n; injection Hg as <-; simpl in Hi; member_cases Hi;
    simpl in Hc; injection Hc as <- <-; set_solver.
Qed.

Lemma mixed_graph_acyclic : acyclic (mixed_graph 0).
Proof.
  exists (λ n, n). split; [done|]. intros p n Hf.
  apply mixed_graph_feeds in Hf. member_cases Hf; injection Hf as -> ->; simpl; lia.
Qed.
Lemma mixed_graph_connected : connected (mixed_graph 0).
Proof.
  split.
  - intros [a b] oc p k Hoc Hin. unfold get_output, get_node in Hoc. simpl in Hoc.
    node_cases a; destruct b as [|b]; simpl in Hoc; try discriminate;
      injection Hoc as <-; simpl in Hin; member_cases Hin; injection Hin as -> ->;
      eexists _, _; (split; [reflexivity|]); split; reflexivity.
  - intros n nd k ic src Hg Hk Hc.
    node_cases n; injection Hg as <-; simpl in Hk;
      destruct k as [|[|k]]; simpl in Hk; try discriminate;
      injection Hk as <-; simpl in Hc; injection Hc as <-;
      eexists; (split; [reflexivity|]); by left.
Qed.

Lemma mixed_graph_views (n : node_id) (c : node) :
  view_concat (mixed_graph 0) n c →
  (n = 3%nat ∧ c = inner_concat 0) ∨ (n = 4%nat ∧ c = outer_concat 0).
Proof.
  intros (Hg & Hop & _). node_cases n; injection Hg as <-; simpl in Hop; try discriminate.
  - by left.
  - by right.
Qed.

Lemma mixed_graph_exclusive : exclusive_inputs (mixed_graph 0).
Proof.
  intros n c n' c' i i' ic ic' src Hv Hv' Hi Hi' Hc Hc'.
  apply mixed_graph_views in Hv as [[-> ->]|[-> ->]];
    apply mixed_graph_views in Hv' as [[-> ->]|[-> ->]];
    destruct i as [|[|i]]; simpl in Hi; try discriminate;
    destruct i' as [|[|i']]; simpl in Hi'; try discriminate;
    injection Hi as <-; injection Hi' as <-; simpl in *; by simplify_eq.
Qed.

Lemma mixed_graph_concats (n : node_id) (c : node) :
  view_concat (mixed_graph 0) n c → concat_wf (mixed_graph 0) mixed_buffers n c.
Proof.
  intros [[-> ->]|[-> ->]]%mixed_graph_views;
    (eexists; split; [reflexivity|]); (split; [by eexists|]); (split; [done|]);
    (split; [simpl; lia|]); (split; [|reflexivity]);
    repeat (first [apply Forall_nil_2 | apply Forall_cons_2]);
    (split; [reflexivity|]); eexists _, _; (split; [reflexivity|]);
    (split; [by eexists|]); split; reflexivity.
Qed.

Lemma mixed_graph_small (n : node_id) (c : node) :
  view_concat (mixed_graph 0) n c → extents_fit_int c.
Proof. by intros [[-> ->]|[-> ->]]%mixed_graph_views. Qed.

Lemma mixed_order_producers_first : producers_first (mixed_graph 0) mixed_order.
Proof.
  intros i n Hi p Hf. apply mixed_graph_feeds in Hf.
  member_cases Hf; injection Hf as -> ->;
    destruct i as [|[|[|[|[|[|i]]]]]]; simpl in Hi; try discriminate.
  - exists 1%nat. split; [lia|done].
  - exists 2%nat. split; [lia|done].
  - exists 0%nat. split; [lia|done].
  - exists 3%nat. split; [lia|done].
  - exists 4%nat. split; [lia|done].
Qed.

Lemma fix_concat_indices_absolute_witness :
  ∃ bufs' top off,
    fix_concat_indices (mixed_graph 0) mixed_order mixed_buffers = Ok bufs'
    ∧ rises_to (mixed_graph 0) 2 3%nat top off
    ∧ parent_of bufs' (1, 0)%nat
      = Some (Some {| parent := (top, 0%nat);
                      begin := vadd (own_begin 2 (inner_concat 0) 1) off |})
    ∧ top = 4%nat
    ∧ vadd (own_begin 2 (inner_concat 0) 1) off = [2; 2].
Proof.
  destruct (fix_concat_indices_absolute (mixed_graph 0) mixed_order mixed_buffers
              mixed_graph_acyclic mixed_graph_connected mixed_graph_exclusive
              mixed_graph_concats mixed_graph_small) as (bufs' & Hrun & Hall).
  - compute_done.
  - apply mixed_order_producers_first.
  - intros n Hn. unfold mixed_order in Hn. member_cases Hn; simpl; lia.
  - destruct (Hall 3%nat (inner_concat 0) 1%nat
                {| in_shape := [1; 3]; connection := Some (1, 0)%nat |} (1, 0)%nat)
      as (top & off & Hrise & Hpar).
    + unfold mixed_order. set_solver.
    + done.
    + reflexivity.
    + reflexivity.
    + exists bufs', top, off. split; [exact Hrun|]. split; [exact Hrise|].
      split; [exact Hpar|].
      vm_compute in Hrun. injection Hrun as <-. vm_compute in Hpar.
      injection Hpar as -> Hoff. split; [reflexivity|].
      vm_compute. by rewrite <- Hoff.
Defined.
(** ** A second run on the graph the first run leaves behind *)

Lemma foldM_ext {A S} (f f' : S → A → result S) (s : S) (l : list A) :
  (∀ s x, f s x = f' s x) → foldM f s l = foldM f' s l.
Proof.
  intros H. revert s. induction l as [|x l IH]; intros s; simpl; [done|].
  rewrite H. destruct (f' s x); simpl; [apply IH|done].
Qed.

Lemma erase_fields (a b : node) :
  erase a = erase b →
  runtime_opcode a = runtime_opcode b ∧ inputs a = inputs b ∧ outputs a = outputs b
  ∧ axis a = axis b ∧ concat_dims a = concat_dims b.
Proof. destruct a, b. unfold erase. simpl. intros [=]. by subst. Qed.

Lemma erase_clear_action (nd : node) : erase (clear_action nd) = erase nd.
Proof. by destruct nd. Qed.

Lemma same_shape_refl (g : graph) : same_shape g g.
Proof. done. Qed.

Lemma same_shape_lookup (g g' : graph) (n : node_id) :
  same_shape g g' → erase <$> g !! n = erase <$> g' !! n.
Proof. intros H. by rewrite <- !list_lookup_fmap, H. Qed.

Lemma same_shape_length (g g' : graph) : same_shape g g' → length g = length g'.
Proof. intros H. by rewrite <- (length_fmap erase g), H, length_fmap. Qed.

Lemma same_shape_node (g g' : graph) (n : node_id) (nd : node) :
  same_shape g g' → g !! n = Some nd →
  ∃ nd', g' !! n = Some nd' ∧ erase nd' = erase nd.
Proof.
  intros H Hn. pose proof (same_shape_lookup g g' n H) as E. rewrite Hn in E.
  destruct (g' !! n) as [nd'|]; [|done]. exists nd'. split; [done|].
  simpl in E. congruence.
Qed.

Lemma same_shape_cases (g g' : graph) (n : node_id) :
  same_shape g g' →
  (g !! n = None ∧ g' !! n = None)
  ∨ ∃ a b, g !! n = Some a ∧ g' !! n = Some b ∧ erase a = erase b.
Proof.
  intros H. pose proof (same_shape_lookup g g' n H) as E.
  destruct (g !! n) as [a|], (g' !! n) as [b|]; try done; [|by left].
  right. exists a, b. split; [done|]. split; [done|].
  change (Some (erase a) = Some (erase b)) in E. congruence.
Qed.

Lemma same_shape_clear (g : graph) (n : node_id) (nd : node) :
  g !! n = Some nd → same_shape g (<[n := clear_action nd]> g).
Proof.
  intros Hn. unfold same_shape. rewrite list_fmap_insert, erase_clear_action.
  symmetry. apply list_insert_id. by rewrite list_lookup_fmap, Hn.
Qed.

Lemma same_shape_trans (g1 g2 g3 : graph) :
  same_shape g1 g2 → same_shape g2 g3 → same_shape g1 g3.
Proof. unfold same_shape. congruence. Qed.

Lemma same_shape_sym (g1 g2 : graph) : same_shape g1 g2 → same_shape g2 g1.
Proof. unfold same_shape. congruence. Qed.

Lemma opcode_of_shape (g g' : graph) (n : node_id) :
  same_shape g g' → opcode_of g n = opcode_of g' n.
Proof.
  intros H. unfold opcode_of, get_node.
  destruct (same_shape_cases g g' n H) as [[-> ->]|(a & b & -> & -> & E)]; [done|].
  simpl. by destruct (erase_fields _ _ E) as (-> & _).
Qed.

Lemma get_output_shape (g g' : graph) (c : connector) :
  same_shape g g' → get_output g c = get_output g' c.
Proof.
  intros H. unfold get_output, get_node.
  destruct (same_shape_cases g g' c.1 H) as [[-> ->]|(a & b & -> & -> & E)]; [done|].
  simpl. by destruct (erase_fields _ _ E) as (_ & _ & -> & _).
Qed.


Lemma all_ofM_ext {A} (f f' : A → result bool) (l : list A) :
  (∀ x, f x = f' x) → all_ofM f l = all_ofM f' l.
Proof. intros H. induction l as [|x l IH]; simpl; [done|]. by rewrite H, IH. Qed.

Lemma count_ifM_ext {A} (f f' : A → result bool) (l : list A) :
  (∀ x, f x = f' x) → count_ifM f l = count_ifM f' l.
Proof. intros H. induction l as [|x l IH]; simpl; [done|]. by rewrite H, IH. Qed.




Lemma visit_strategy_shape (g g' : graph) :
  same_shape g g' →
  ∀ fuel n st, visit_strategy fuel g n st = visit_strategy fuel g' n st.
Proof.
  intros H. induction fuel as [|fuel IH]; intros n st; simpl; [done|].
  case_decide; [done|]. unfold get_node.
  destruct (same_shape_cases g g' n H) as [[-> ->]|(a & b & -> & -> & E)]; [done|].
  simpl. destruct (erase_fields _ _ E) as (_ & -> & _).
  f_equal. apply foldM_ext. intros s i. destruct (connection i); [apply IH|done].
Qed.

Lemma visit_order_shape (g g' : graph) (outputs_ : list node_id) :
  same_shape g g' → visit_order g outputs_ = visit_order g' outputs_.
Proof.
  intros H. unfold visit_order. rewrite (same_shape_length g g' H).
  f_equal. apply foldM_ext. intros s n. by apply visit_strategy_shape.
Qed.
Ltac step_result H :=
  match type of H with
  | context [rbind ?m _] =>
    let E := fresh "E" in
    destruct m eqn:E; simpl in H |- *; [|discriminate H]
  | context [if ?b then _ else _] =>
    let E := fresh "E" in
    destruct b eqn:E; simpl in H |- *
  end.

Lemma analyze_node_again (ga gb : graph) (bufs bufs' : buffer_map) (n : node_id)
    (ga' : graph) :
  same_shape ga gb →
  analyze_node (ga, bufs) n = Ok (ga', bufs') →
  ∃ (cl : bool) nda ndb,
    ga !! n = Some nda ∧ gb !! n = Some ndb
    ∧ ga' = (if cl then <[n := clear_action nda]> ga else ga)
    ∧ analyze_node (gb, bufs) n
      = Ok (if cl then <[n := clear_action ndb]> gb else gb, bufs').
Proof.
  intros Hs H. unfold analyze_node in *. simpl in *. unfold get_node in *.
  destruct (same_shape_cases ga gb n Hs) as [[Ea Eb]|(a & b & Ea & Eb & E)];
    rewrite Ea in H; rewrite Eb; simpl in *; [done|].
  destruct (erase_fields _ _ E) as (Hop & Hin & Hout & Hax & Hdims).
  rewrite <- Hop.
  destruct (decide (runtime_opcode a = op_bitcast)) as [Hb|Hb].
  - unfold analyze_bitcast in *. rewrite <- Hin.
    repeat step_result H;
      try match goal with
          | E : get_output ga _ = Ok _ |- _ =>
            rewrite <- (get_output_shape ga gb _ Hs), E; simpl
          end;
      injection H as <- <-; first [by exists true, a, b | by exists false, a, b].
  - destruct (decide (runtime_opcode a = op_concat)) as [Hc|Hc].
    + unfold analyze_concat in *. rewrite <- Hout.
      assert (Hax' : concat_axis_ok b = concat_axis_ok a).
      { unfold concat_axis_ok. by rewrite Hax, Hin. }
      rewrite Hax', <- Hin.
      assert (Hall : all_ofM (concat_input_ok gb bufs) (inputs a)
                     = all_ofM (concat_input_ok ga bufs) (inputs a)).
      { apply all_ofM_ext. intros i. unfold concat_input_ok.
        destruct (connection i) as [src|]; simpl; [|done].
        destruct (buf_at bufs src); simpl; [|done].
        by rewrite (opcode_of_shape ga gb _ Hs). }
      rewrite Hall.
      assert (Hcnt : ∀ l, concat_consumers gb l = concat_consumers ga l).
      { intros l. apply count_ifM_ext. intros i. by rewrite (opcode_of_shape ga gb _ Hs). }
      step_result H. step_result H. step_result H.
      * step_result H. step_result H.
        -- rewrite Hcnt. step_result H. step_result H; injection H as <- <-;
             first [by exists true, a, b | by exists false, a, b].
        -- injection H as <- <-. by exists false, a, b.
      * injection H as <- <-. by exists false, a, b.
    + injection H as <- <-. by exists false, a, b.
Qed.
Lemma clear_action_stable (nd : node) : has_action nd = false → clear_action nd = nd.
Proof.
  unfold has_action. intros H. apply negb_false_iff, N.eqb_eq in H.
  assert (N.ldiff (attributes nd) node_attr_action = attributes nd) as E.
  { apply N.bits_inj. intros k. rewrite N.ldiff_spec.
    assert (N.testbit (N.land (attributes nd) node_attr_action) k = false) as Hk
      by (by rewrite H, N.bits_0).
    rewrite N.land_spec in Hk.
    destruct (N.testbit (attributes nd) k), (N.testbit node_attr_action k); done. }
  destruct nd. unfold clear_action. simpl in *. by rewrite E.
Qed.

Lemma analyze_keeps_cleared : ∀ (order : list node_id) (g g' : graph) (b b' : buffer_map),
  foldM analyze_node (g, b) order = Ok (g', b') →
  same_shape g g'
  ∧ ∀ n nd, g !! n = Some nd → has_action nd = false →
      ∃ nd', g' !! n = Some nd' ∧ has_action nd' = false.
Proof.
  induction order as [|n order IH]; intros g g' b b' H; simpl in H.
  - injection H as <- <-. split; [done|]. eauto.
  - destruct (analyze_node (g, b) n) as [[g1 b1]|] eqn:E; simpl in H; [|done].
    destruct (analyze_node_again g g b b1 n g1 (same_shape_refl _) E)
      as (cl & nda & _ & Hn & _ & -> & _).
    destruct (IH _ _ _ _ H) as [Hs Hkeep]. split.
    + eapply same_shape_trans; [|exact Hs]. destruct cl; [|done].
      by apply same_shape_clear.
    + intros m nd Hm Hact. destruct cl; [|by eapply Hkeep].
      destruct (decide (m = n)) as [->|Hne].
      * eapply (Hkeep n (clear_action nda)); [|apply has_action_clear].
        apply list_lookup_insert_eq. by eapply lookup_lt_Some.
      * eapply Hkeep; [|done]. by rewrite list_lookup_insert_ne.
Qed.




(** Both walks list the keys of the map, each once. *)
Lemma walk_reversed_enumerates (keys : gset connector) :
  walk_reversed keys ≡ₚ walk_listed keys ∧ NoDup (walk_reversed keys).
Proof.
  unfold walk_reversed, walk_listed. split; [apply reverse_Permutation|].
  rewrite reverse_Permutation. apply NoDup_elements.
Qed.


(** The maps of a scheduler are members which [schedule] does not reset,
    and the statement above is about two schedulers.  On the map a first
    pass has left, [make_logical_buffers] finds every counter at zero and
    throws at the first release. *)
Example make_logical_buffers_on_used_map :
  ∃ order bufs,
    visit_order concat_graph [3%nat] = Ok order
    ∧ make_logical_buffers concat_graph order ∅ = Ok bufs
    ∧ make_logical_buffers concat_graph order bufs
      = Err (runtime_error lifetime_recorder.released_msg).
Proof.
  eexists _, _. split; [by vm_compute|]. split; [by vm_compute|]. by vm_compute.
Qed.

(** * What the passes keep, and where they stop *)

(** ** The lifetime builder *)

Section builder.

Import lifetime_recorder.

Lemma node_fold_rel (g : graph) (R : t → t → Prop) :
  (∀ lr, R lr lr) →
  (∀ a b c, R a b → R b c → R a c) →
  (∀ lr c lr', allocate g lr c = Ok lr' → R lr lr') →
  (∀ lr, R lr (grow_age lr)) →
  (∀ lr c lr', release lr c = Ok lr' → R lr lr') →
  ∀ l lr lr', foldM (make_logical_buffers_node g) lr l = Ok lr' → R lr lr'.
Proof.
  intros Hrefl Htrans Ha Hg Hr.
  assert (Hfa : ∀ cs lr lr', foldM (allocate g) lr cs = Ok lr' → R lr lr').
  { induction cs as [|c cs IH]; intros lr lr' H; simpl in H.
    - injection H as <-. apply Hrefl.
    - destruct (allocate g lr c) as [lr1|] eqn:E; simpl in H; [|done].
      eapply Htrans; [by eapply Ha|by apply IH]. }
  assert (Hfr : ∀ ins lr lr', foldM release_input lr ins = Ok lr' → R lr lr').
  { induction ins as [|i ins IH]; intros lr lr' H; simpl in H.
    - injection H as <-. apply Hrefl.
    - unfold release_input at 1 in H.
      destruct (connection i) as [out|]; simpl in H; [|done].
      destruct (release lr out) as [lr1|] eqn:E; simpl in H; [|done].
      eapply Htrans; [by eapply Hr|by apply IH]. }
  induction l as [|n l IH]; intros lr lr' H; simpl in H.
  - injection H as <-. apply Hrefl.
  - destruct (make_logical_buffers_node g lr n) as [lr1|] eqn:E; simpl in H; [|done].
    eapply Htrans; [|by apply IH].
    unfold make_logical_buffers_node in E.
    destruct (get_node g n) as [nd|]; simpl in E; [|done].
    destruct (foldM (allocate g) lr (output_refs n nd)) as [lr2|] eqn:E2; simpl in E; [|done].
    eapply Htrans; [by eapply Hfa|]. eapply Htrans; [apply Hg|]. by eapply Hfr.
Qed.

Lemma any_ofM_output (g : graph) (l : list (node_id * nat)) (r : bool) :
  any_ofM (λ c, let* o := opcode_of g c.1 in Ok (bool_decide (o = op_output_node))) l = Ok r →
  if r then Exists (λ k, consumer_opcode g k = Some op_output_node) l
  else Forall (λ k, consumer_opcode g k ≠ Some op_output_node) l.
Proof.
  revert r. induction l as [|k l IH]; intros r H; simpl in H.
  - injection H as <-. constructor.
  - unfold opcode_of at 1, get_node at 1 in H.
    destruct (g !! k.1) as [nd|] eqn:Hk; simpl in H; [|done].
    case_bool_decide as Hop.
    + injection H as <-. apply Exists_cons_hd.
      unfold consumer_opcode, opcode_at. by rewrite Hk, <- Hop.
    + specialize (IH _ H). destruct r.
      * by apply Exists_cons_tl.
      * constructor; [|done]. unfold consumer_opcode, opcode_at. rewrite Hk. simpl. congruence.
Qed.

Lemma decide_memory_location_rule (g : graph) (c : connector) (m : memory_location_t) :
  decide_memory_location g c = Ok m → location_rule g c m.
Proof.
  unfold decide_memory_location, opcode_of, get_node. intros H.
  destruct (g !! c.1) as [nd|] eqn:Hn; simpl in H; [|done].
  exists nd. split; [done|].
  destruct (decide (runtime_opcode nd = op_input_node)) as [->|Hi].
  { by injection H as <-. }
  destruct (decide (runtime_opcode nd = op_constant)) as [->|Hc].
  { by injection H as <-. }
  unfold get_output, get_node in H. rewrite Hn in H. simpl in H.
  destruct (outputs nd !! c.2) as [oc|] eqn:Ho; simpl in H; [|done].
  destruct (any_ofM _ (connections oc)) as [r|] eqn:Hany; simpl in H; [|done].
  apply any_ofM_output in Hany.
  assert (∃ oc0, Some oc = Some oc0 ∧
    ((Exists (λ k, consumer_opcode g k = Some op_output_node) (connections oc0) ∧ m = mem_output)
     ∨ (Forall (λ k, consumer_opcode g k ≠ Some op_output_node) (connections oc0) ∧ m = mem_data))).
  { exists oc. split; [done|]. destruct r; injection H as <-; [by left|by right]. }
  by destruct (runtime_opcode nd).
Qed.

Lemma allocate_inv (g : graph) (lr : t) (c : connector) (lr' : t) :
  allocate g lr c = Ok lr' →
  (is_Some (buffers lr !! c) ∧ lr' = lr)
  ∨ (buffers lr !! c = None ∧ ∃ loc oc,
       decide_memory_location g c = Ok loc ∧ get_output g c = Ok oc
       ∧ lr' = {| next_buffer_id := next_buffer_id lr + 1; cnt_age := cnt_age lr;
                  buffers := <[c := {| id := next_buffer_id lr; owner := c;
                      memory_location := loc; lb_shape := out_shape oc;
                      lb_type := out_type oc;
                      lifetime := {| birth := cnt_age lr; age := 0;
                                     used_count := N.of_nat (length (connections oc)) |};
                      lb_parent := None; physical := None |}]> (buffers lr) |}).
Proof.
  unfold allocate. intros H. destruct (buffers lr !! c) as [b|] eqn:Hb.
  - left. injection H as <-. eauto.
  - right. split; [done|].
    destruct (decide_memory_location g c) as [loc|]; simpl in H; [|done].
    destruct (get_output g c) as [oc|]; simpl in H; [|done].
    injection H as <-. eauto.
Qed.

Lemma release_inv (lr : t) (c : connector) (lr' : t) :
  release lr c = Ok lr' →
  (buffers lr !! c = None ∧ lr' = lr)
  ∨ (∃ b, buffers lr !! c = Some b ∧ 0 < used_count (lifetime b)
       ∧ lr' = {| next_buffer_id := next_buffer_id lr; cnt_age := cnt_age lr;
                  buffers := <[c := set_lifetime
                      {| birth := birth (lifetime b); age := age (lifetime b);
                         used_count := used_count (lifetime b) - 1 |} b]> (buffers lr) |}).
Proof.
  unfold release. intros H. destruct (buffers lr !! c) as [b|] eqn:Hb.
  - right. exists b. split; [done|]. unfold is_alive in H.
    destruct (0 <? used_count (lifetime b)) eqn:Hu; simpl in H; [|done].
    apply N.ltb_lt in Hu. split; [done|]. by injection H as <-.
  - left. by injection H as <-.
Qed.

Lemma grow_fields (b : logical_buffer) :
  id (grow b) = id b ∧ owner (grow b) = owner b
  ∧ memory_location (grow b) = memory_location b
  ∧ lb_shape (grow b) = lb_shape b ∧ lb_type (grow b) = lb_type b
  ∧ lb_parent (grow b) = lb_parent b ∧ physical (grow b) = physical b
  ∧ birth (lifetime (grow b)) = birth (lifetime b)
  ∧ used_count (lifetime (grow b)) = used_count (lifetime b)
  ∧ age (lifetime (grow b))
    = if is_alive (lifetime b) then age (lifetime b) + 1 else age (lifetime b).
Proof. unfold grow. by destruct (is_alive (lifetime b)). Qed.

Lemma grow_age_lookup (lr : t) (c : connector) :
  buffers (grow_age lr) !! c = grow <$> buffers lr !! c.
Proof. simpl. apply lookup_fmap. Qed.

Lemma make_logical_buffers_run (g : graph) (order : list node_id) (bufs0 bufs : buffer_map) :
  make_logical_buffers g order bufs0 = Ok bufs ↔
  ∃ lr, foldM (make_logical_buffers_node g) (init bufs0) order = Ok lr ∧ buffers lr = bufs.
Proof.
  unfold make_logical_buffers. split.
  - intros H. destruct (foldM _ _ order) as [lr|]; simpl in H; [|done].
    injection H as <-. eauto.
  - intros (lr & -> & <-). done.
Qed.

(** The keys after one node. *)
Lemma node_keys (g : graph) (lr : t) (n : node_id) (lr' : t) (c : connector) :
  make_logical_buffers_node g lr n = Ok lr' →
  is_Some (buffers lr' !! c) ↔ is_Some (buffers lr !! c) ∨ output_of g [n] c.
Proof.
  unfold make_logical_buffers_node, get_node. intros H.
  destruct (g !! n) as [nd|] eqn:Hn; simpl in H; [|done].
  destruct (foldM (allocate g) lr (output_refs n nd)) as [lr1|] eqn:E1; simpl in H; [|done].
  assert (H1 : ∀ cs a a', foldM (allocate g) a cs = Ok a' →
            is_Some (buffers a' !! c) ↔ is_Some (buffers a !! c) ∨ c ∈ cs).
  { induction cs as [|x cs IH]; intros a a' Ha; simpl in Ha.
    - injection Ha as <-. rewrite elem_of_nil. tauto.
    - destruct (allocate g a x) as [a1|] eqn:Ea; simpl in Ha; [|done].
      rewrite (IH _ _ Ha), elem_of_cons.
      apply allocate_inv in Ea as [[Hs ->]|(Hnone & loc & oc & _ & _ & ->)].
      + split; [tauto|]. intros [?|[->|?]]; tauto.
      + simpl. rewrite lookup_insert_is_Some. destruct (decide (x = c)) as [->|]; [tauto|].
        split; [intros [[?|[_ ?]]|?]|intros [?|[?|?]]]; try tauto; congruence. }
  assert (H2 : ∀ ins a a', foldM release_input a ins = Ok a' →
            is_Some (buffers a' !! c) ↔ is_Some (buffers a !! c)).
  { induction ins as [|i ins IH]; intros a a' Ha; simpl in Ha.
    - by injection Ha as <-.
    - unfold release_input at 1 in Ha.
      destruct (connection i) as [out|]; simpl in Ha; [|done].
      destruct (release a out) as [a1|] eqn:Ea; simpl in Ha; [|done].
      rewrite (IH _ _ Ha).
      apply release_inv in Ea as [[_ ->]|(b & Hb & _ & ->)]; [done|].
      simpl. rewrite lookup_insert_is_Some. destruct (decide (out = c)) as [->|]; [|tauto].
      rewrite Hb. split; eauto. }
  rewrite (H2 _ _ _ H), grow_age_lookup, fmap_is_Some, (H1 _ _ _ E1).
  unfold output_of, output_refs. rewrite list_elem_of_singleton, list_elem_of_fmap.
  setoid_rewrite elem_of_seq. split; (intros [?|Hc]; [by left|right]).
  - destruct Hc as (k & -> & Hk). simpl. split; [done|]. exists nd. split; [done|lia].
  - destruct Hc as (Hc1 & nd' & Hnd' & Hlt). rewrite Hc1 in Hnd'.
    assert (nd' = nd) as -> by congruence. exists c.2. split; [|lia].
    destruct c; simpl in *; congruence.
Qed.

Lemma fold_keys (g : graph) (l : list node_id) (lr lr' : t) (c : connector) :
  foldM (make_logical_buffers_node g) lr l = Ok lr' →
  is_Some (buffers lr' !! c) ↔ is_Some (buffers lr !! c) ∨ output_of g l c.
Proof.
  revert lr. induction l as [|n l IH]; intros lr H; simpl in H.
  - injection H as <-. unfold output_of. rewrite elem_of_nil. tauto.
  - destruct (make_logical_buffers_node g lr n) as [lr1|] eqn:E; simpl in H; [|done].
    rewrite (IH _ H), (node_keys _ _ _ _ c E). unfold output_of.
    rewrite list_elem_of_singleton, elem_of_cons. tauto.
Qed.

(** X1.  The lifetime builder, started on an empty map, leaves a buffer
    for exactly the outputs of the nodes it visited. *)
Theorem make_logical_buffers_keys (g : graph) (order : list node_id) (bufs : buffer_map)
    (c : connector) :
  make_logical_buffers g order ∅ = Ok bufs →
  is_Some (bufs !! c) ↔ output_of g order c.
Proof.
  intros (lr & H & <-)%make_logical_buffers_run.
  rewrite (fold_keys _ _ _ _ c H). simpl. rewrite lookup_empty, is_Some_alt. tauto.
Qed.

Lemma describes_fields (g : graph) (c : connector) (b b' : logical_buffer) :
  owner b' = owner b → lb_parent b' = lb_parent b → physical b' = physical b →
  memory_location b' = memory_location b → lb_shape b' = lb_shape b →
  lb_type b' = lb_type b →
  describes g c b → describes g c b'.
Proof.
  intros H1 H2 H3 H4 H5 H6 (D1 & D2 & D3 & D4 & oc & D5 & D6 & D7).
  unfold describes. rewrite H1, H2, H3, H4, H5, H6. eauto 10.
Qed.

(** X2.  Every buffer the lifetime builder leaves describes its own
    connector: it is owned by it, has its shape and element type, carries
    the tag the graph gives it, and has neither a parent nor a physical
    buffer yet. *)
Theorem make_logical_buffers_describes (g : graph) (order : list node_id)
    (bufs : buffer_map) (c : connector) (b : logical_buffer) :
  make_logical_buffers g order ∅ = Ok bufs →
  bufs !! c = Some b →
  describes g c b.
Proof.
  intros (lr & H & <-)%make_logical_buffers_run. revert c b.
  refine (node_fold_rel g
    (λ a a', (∀ c b, buffers a !! c = Some b → describes g c b) →
             (∀ c b, buffers a' !! c = Some b → describes g c b))
    _ _ _ _ _ order _ _ H _); clear.
  - auto.
  - auto.
  - intros lr x lr' Ha P c b Hb.
    apply allocate_inv in Ha as [[_ ->]|(_ & loc & oc & Hloc & Hoc & ->)]; [eauto|].
    simpl in Hb. destruct (decide (x = c)) as [->|Hne].
    + rewrite lookup_insert_eq in Hb. injection Hb as <-.
      unfold describes. simpl. repeat split; try done.
      * by apply decide_memory_location_rule.
      * eauto.
    + rewrite lookup_insert_ne in Hb by done. eauto.
  - intros lr P c b Hb. rewrite grow_age_lookup in Hb.
    destruct (buffers lr !! c) as [b0|] eqn:Hb0; simpl in Hb; [|done].
    injection Hb as <-. destruct (grow_fields b0) as (_ & ? & ? & ? & ? & ? & ? & _).
    eapply describes_fields; eauto.
  - intros lr x lr' Hr P c b Hb.
    apply release_inv in Hr as [[_ ->]|(b0 & Hb0 & _ & ->)]; [eauto|].
    simpl in Hb. destruct (decide (x = c)) as [->|Hne].
    + rewrite lookup_insert_eq in Hb. injection Hb as <-.
      eapply describes_fields; [..|by eapply P]; done.
    + rewrite lookup_insert_ne in Hb by done. eauto.
  - intros c b. simpl. by rewrite lookup_empty.
Qed.

(** X3.  The lifetime builder numbers the buffers from zero in the order
    in which it creates them: every id is below the number of buffers and
    no two buffers share an id. *)
Theorem make_logical_buffers_ids (g : graph) (order : list node_id) (bufs : buffer_map) :
  make_logical_buffers g order ∅ = Ok bufs → ids_dense bufs.
Proof.
  intros (lr & H & <-)%make_logical_buffers_run.
  cut (next_buffer_id lr = N.of_nat (size (buffers lr)) ∧ ids_dense (buffers lr)); [tauto|].
  refine (node_fold_rel g
    (λ a a', next_buffer_id a = N.of_nat (size (buffers a)) ∧ ids_dense (buffers a) →
             next_buffer_id a' = N.of_nat (size (buffers a')) ∧ ids_dense (buffers a'))
    _ _ _ _ _ order _ _ H _); clear.
  - auto.
  - auto.
  - intros lr x lr' Ha (Hn & Hlt & Hinj).
    apply allocate_inv in Ha as [[_ ->]|(Hx & loc & oc & _ & _ & ->)]; [done|].
    unfold ids_dense. simpl. rewrite map_size_insert_None by done.
    rewrite Nat2N.inj_succ. split; [lia|]. split.
    + intros c b Hb. destruct (decide (x = c)) as [->|Hne].
      * rewrite lookup_insert_eq in Hb. injection Hb as <-. cbn [id]. lia.
      * rewrite lookup_insert_ne in Hb by done. specialize (Hlt _ _ Hb). lia.
    + intros c c' b b' Hb Hb' Hid.
      destruct (decide (x = c)) as [Hc|Hne], (decide (x = c')) as [Hc'|Hne'];
        [congruence|subst c|subst c'|].
      * rewrite lookup_insert_eq in Hb. rewrite lookup_insert_ne in Hb' by done.
        injection Hb as <-. simpl in Hid. specialize (Hlt _ _ Hb'). lia.
      * rewrite lookup_insert_eq in Hb'. rewrite lookup_insert_ne in Hb by done.
        injection Hb' as <-. simpl in Hid. specialize (Hlt _ _ Hb). lia.
      * rewrite lookup_insert_ne in Hb, Hb' by done. eauto.
  - intros lr (Hn & Hlt & Hinj). unfold ids_dense. simpl. rewrite map_size_fmap.
    split; [done|]. split.
    + intros c b Hb. rewrite lookup_fmap in Hb.
      destruct (buffers lr !! c) as [b0|] eqn:Hb0; simpl in Hb; [|done].
      injection Hb as <-. destruct (grow_fields b0) as (-> & _). eauto.
    + intros c c' b b' Hb Hb' Hid. rewrite lookup_fmap in Hb, Hb'.
      destruct (buffers lr !! c) as [b0|] eqn:Hb0; simpl in Hb; [|done].
      destruct (buffers lr !! c') as [b0'|] eqn:Hb0'; simpl in Hb'; [|done].
      injection Hb as <-. injection Hb' as <-.
      destruct (grow_fields b0) as (E & _), (grow_fields b0') as (E' & _).
      rewrite E, E' in Hid. eauto.
  - intros lr x lr' Hr (Hn & Hlt & Hinj).
    apply release_inv in Hr as [[_ ->]|(b0 & Hb0 & _ & ->)]; [done|].
    unfold ids_dense. simpl. rewrite map_size_insert_Some by eauto. split; [done|]. split.
    + intros c b Hb. destruct (decide (x = c)) as [->|Hne].
      * rewrite lookup_insert_eq in Hb. injection Hb as <-. simpl. eauto.
      * rewrite lookup_insert_ne in Hb by done. eauto.
    + intros c c' b b' Hb Hb' Hid.
      destruct (decide (x = c)) as [Hc|Hne], (decide (x = c')) as [Hc'|Hne'];
        [congruence|subst c|subst c'|].
      * rewrite lookup_insert_eq in Hb. rewrite lookup_insert_ne in Hb' by done.
        injection Hb as <-. simpl in Hid. eauto.
      * rewrite lookup_insert_eq in Hb'. rewrite lookup_insert_ne in Hb by done.
        injection Hb' as <-. simpl in Hid. eauto.
      * rewrite lookup_insert_ne in Hb, Hb' by done. eauto.
  - simpl. rewrite map_size_empty. split; [done|]. split.
    + intros c b. by rewrite lookup_empty.
    + intros c c' b b'. by rewrite lookup_empty.
Qed.

Lemma allocate_fold_rel (g : graph) (R : t → t → Prop) :
  (∀ lr, R lr lr) →
  (∀ a b c, R a b → R b c → R a c) →
  (∀ lr c lr', allocate g lr c = Ok lr' → R lr lr') →
  ∀ cs lr lr', foldM (allocate g) lr cs = Ok lr' → R lr lr'.
Proof.
  intros Hrefl Htrans Ha. induction cs as [|c cs IH]; intros lr lr' H; simpl in H.
  - injection H as <-. apply Hrefl.
  - destruct (allocate g lr c) as [lr1|] eqn:E; simpl in H; [|done].
    eapply Htrans; [by eapply Ha|by apply IH].
Qed.

Lemma release_fold_rel (R : t → t → Prop) :
  (∀ lr, R lr lr) →
  (∀ a b c, R a b → R b c → R a c) →
  (∀ lr c lr', release lr c = Ok lr' → R lr lr') →
  ∀ ins lr lr', foldM release_input lr ins = Ok lr' → R lr lr'.
Proof.
  intros Hrefl Htrans Hr. induction ins as [|i ins IH]; intros lr lr' H; simpl in H.
  - injection H as <-. apply Hrefl.
  - unfold release_input at 1 in H.
    destruct (connection i) as [out|]; simpl in H; [|done].
    destruct (release lr out) as [lr1|] eqn:E; simpl in H; [|done].
    eapply Htrans; [by eapply Hr|by apply IH].
Qed.

Lemma aged_refl (bufs : buffer_map) : aged bufs bufs.
Proof. intros c b Hb. exists b. repeat split; [done|lia|lia]. Qed.

Lemma aged_trans (a b c : buffer_map) : aged a b → aged b c → aged a c.
Proof.
  intros H1 H2 k x Hx. destruct (H1 _ _ Hx) as (y & Hy & E1 & E2 & E3).
  destruct (H2 _ _ Hy) as (z & Hz & F1 & F2 & F3). exists z.
  repeat split; [done|congruence|lia|lia].
Qed.

Lemma allocate_aged (g : graph) (lr : t) (c : connector) (lr' : t) :
  allocate g lr c = Ok lr' → aged (buffers lr) (buffers lr').
Proof.
  intros [[_ ->]|(Hx & loc & oc & _ & _ & ->)]%allocate_inv; [apply aged_refl|].
  intros k b Hb. exists b. simpl. rewrite lookup_insert_ne by congruence.
  repeat split; [done|lia|lia].
Qed.

Lemma grow_aged (lr : t) : aged (buffers lr) (buffers (grow_age lr)).
Proof.
  intros k b Hb. exists (grow b). rewrite grow_age_lookup, Hb.
  destruct (grow_fields b) as (_ & _ & _ & _ & _ & _ & _ & E1 & E2 & E3).
  rewrite E1, E2, E3. repeat split; [|lia]. destruct (is_alive (lifetime b)); lia.
Qed.

Lemma release_aged (lr : t) (c : connector) (lr' : t) :
  release lr c = Ok lr' → aged (buffers lr) (buffers lr').
Proof.
  intros [[_ ->]|(b0 & Hb0 & Hpos & ->)]%release_inv; [apply aged_refl|].
  intros k b Hb. simpl. destruct (decide (c = k)) as [->|Hne].
  - rewrite lookup_insert_eq. eexists. split; [done|]. simpl.
    assert (b = b0) as -> by congruence. repeat split; lia.
  - rewrite lookup_insert_ne by done. exists b. repeat split; [done|lia|lia].
Qed.

Lemma fold_aged (g : graph) (l : list node_id) (lr lr' : t) :
  foldM (make_logical_buffers_node g) lr l = Ok lr' → aged (buffers lr) (buffers lr').
Proof.
  apply (node_fold_rel g (λ a a', aged (buffers a) (buffers a'))).
  - intros a. apply aged_refl.
  - intros a b c. apply aged_trans.
  - apply allocate_aged.
  - apply grow_aged.
  - apply release_aged.
Qed.

Lemma allocate_clocked (g : graph) (lr : t) (c : connector) (lr' : t) :
  allocate g lr c = Ok lr' →
  clocked (cnt_age lr) (buffers lr) → clocked (cnt_age lr') (buffers lr').
Proof.
  intros [[_ ->]|(Hx & loc & oc & _ & _ & ->)]%allocate_inv K; [done|].
  intros k b Hb. simpl in *. destruct (decide (c = k)) as [->|Hne].
  - rewrite lookup_insert_eq in Hb. injection Hb as <-. unfold lt_end. simpl. lia.
  - rewrite lookup_insert_ne in Hb by done. eauto.
Qed.

Lemma grow_clocked (lr : t) :
  clocked (cnt_age lr) (buffers lr) → clocked (cnt_age (grow_age lr)) (buffers (grow_age lr)).
Proof.
  intros K k b Hb. rewrite grow_age_lookup in Hb.
  destruct (buffers lr !! k) as [b0|] eqn:Hb0; simpl in Hb; [|done].
  injection Hb as <-. destruct (K _ _ Hb0) as [K1 K2]. unfold grow. cbn [cnt_age grow_age].
  destruct (is_alive (lifetime b0)) eqn:Ha.
  - specialize (K2 eq_refl). unfold lt_end in *. simpl. lia.
  - rewrite Ha. split; [lia|done].
Qed.

Lemma release_clocked (lr : t) (c : connector) (lr' : t) :
  release lr c = Ok lr' →
  clocked (cnt_age lr) (buffers lr) → clocked (cnt_age lr') (buffers lr').
Proof.
  intros [[_ ->]|(b0 & Hb0 & Hpos & ->)]%release_inv K; [done|].
  intros k b Hb. simpl in *. destruct (decide (c = k)) as [->|Hne].
  - rewrite lookup_insert_eq in Hb. injection Hb as <-.
    destruct (K _ _ Hb0) as [K1 K2]. unfold lt_end, is_alive in *. simpl.
    assert ((0 <? used_count (lifetime b0)) = true) as Hal by (by apply N.ltb_lt).
    specialize (K2 Hal). split; [lia|]. intros _. lia.
  - rewrite lookup_insert_ne in Hb by done. eauto.
Qed.

Lemma fold_clocked (g : graph) (l : list node_id) (lr lr' : t) :
  foldM (make_logical_buffers_node g) lr l = Ok lr' →
  clocked (cnt_age lr) (buffers lr) → clocked (cnt_age lr') (buffers lr').
Proof.
  apply (node_fold_rel g
    (λ a a', clocked (cnt_age a) (buffers a) → clocked (cnt_age a') (buffers a'))).
  - auto.
  - auto.
  - apply allocate_clocked.
  - apply grow_clocked.
  - apply release_clocked.
Qed.

Lemma node_clock (g : graph) (lr : t) (n : node_id) (lr' : t) :
  make_logical_buffers_node g lr n = Ok lr' → cnt_age lr' = cnt_age lr + 1.
Proof.
  unfold make_logical_buffers_node. intros H.
  destruct (get_node g n) as [nd|]; simpl in H; [|done].
  destruct (foldM (allocate g) lr (output_refs n nd)) as [lr1|] eqn:E1; simpl in H; [|done].
  apply (allocate_fold_rel g (λ a a', cnt_age a' = cnt_age a)) in E1.
  - apply (release_fold_rel (λ a a', cnt_age a' = cnt_age a)) in H.
    + rewrite H. simpl. by rewrite E1.
    + done.
    + congruence.
    + by intros a c a' [[_ ->]|(b0 & _ & _ & ->)]%release_inv.
  - done.
  - congruence.
  - by intros a c a' [[_ ->]|(_ & loc & oc & _ & _ & ->)]%allocate_inv.
Qed.

Lemma fold_clock (g : graph) (l : list node_id) (lr lr' : t) :
  foldM (make_logical_buffers_node g) lr l = Ok lr' →
  cnt_age lr' = cnt_age lr + N.of_nat (length l).
Proof.
  revert lr. induction l as [|n l IH]; intros lr H; simpl in H.
  - injection H as <-. simpl. lia.
  - destruct (make_logical_buffers_node g lr n) as [lr1|] eqn:E; simpl in H; [|done].
    rewrite (IH _ H), (node_clock _ _ _ _ E). cbn [length]. lia.
Qed.

Lemma clocked_empty (now : N) : clocked now ∅.
Proof. intros c b. by rewrite lookup_empty. Qed.

(** X4.  No lifetime reaches beyond the pass: the end of every interval is
    at most the number of nodes visited, and a buffer that still has uses
    left when the pass is over lives up to that very end. *)
Theorem make_logical_buffers_ends (g : graph) (order : list node_id) (bufs : buffer_map) :
  make_logical_buffers g order ∅ = Ok bufs →
  clocked (N.of_nat (length order)) bufs.
Proof.
  intros (lr & H & <-)%make_logical_buffers_run.
  pose proof (fold_clock _ _ _ _ H) as Hc.
  change (cnt_age (init ∅)) with 0 in Hc. rewrite N.add_0_l in Hc. rewrite <- Hc.
  apply (fold_clocked _ _ _ _ H). apply clocked_empty.
Qed.

Lemma release_fold_keys (ins : list input_connector) (lr lr' : t) (k : connector) :
  foldM release_input lr ins = Ok lr' →
  is_Some (buffers lr' !! k) → is_Some (buffers lr !! k).
Proof.
  intros H. revert k.
  apply (release_fold_rel (λ a a', ∀ k, is_Some (buffers a' !! k) → is_Some (buffers a !! k)))
    with (4 := H).
  - auto.
  - auto.
  - intros a x a' [[_ ->]|(b0 & Hb0 & _ & ->)]%release_inv k; [done|].
    simpl. rewrite lookup_insert_is_Some. intros [<-|[_ ?]]; eauto.
Qed.

Lemma allocate_fold_births (g : graph) (cs : list connector) (lr lr' : t) :
  foldM (allocate g) lr cs = Ok lr' →
  cnt_age lr' = cnt_age lr ∧ aged (buffers lr) (buffers lr')
  ∧ ∀ k x', buffers lr' !! k = Some x' → buffers lr !! k = None →
      birth (lifetime x') = cnt_age lr.
Proof.
  apply (allocate_fold_rel g (λ a a', cnt_age a' = cnt_age a ∧ aged (buffers a) (buffers a')
    ∧ ∀ k x', buffers a' !! k = Some x' → buffers a !! k = None →
        birth (lifetime x') = cnt_age a)).
  - intros a. split; [done|]. split; [apply aged_refl|]. congruence.
  - intros a1 a2 a3 (C12 & A12 & H12) (C23 & A23 & H23).
    split; [congruence|]. split; [by eapply aged_trans|]. intros k x3 Hx3 Hx1.
    destruct (buffers a2 !! k) as [x2|] eqn:Hx2.
    + destruct (A23 _ _ Hx2) as (x3' & Hx3' & E & _).
      assert (x3' = x3) as -> by congruence. rewrite E. by apply (H12 k).
    + rewrite <- C12. by apply (H23 k).
  - intros a x a' Ha. split; [|split; [by eapply allocate_aged|]].
    + by apply allocate_inv in Ha as [[_ ->]|(Hx & loc & oc & _ & _ & ->)].
    + apply allocate_inv in Ha as [[_ ->]|(Hx & loc & oc & _ & _ & ->)]; [congruence|].
      intros k x' Hx' Hk. simpl in Hx'. destruct (decide (x = k)) as [->|Hne].
      * rewrite lookup_insert_eq in Hx'. by injection Hx' as <-.
      * rewrite lookup_insert_ne in Hx' by done. congruence.
Qed.

Lemma release_fold_aged (ins : list input_connector) (lr lr' : t) :
  foldM release_input lr ins = Ok lr' → aged (buffers lr) (buffers lr').
Proof.
  apply (release_fold_rel (λ a a', aged (buffers a) (buffers a'))).
  - intros a. apply aged_refl.
  - intros a b c. apply aged_trans.
  - apply release_aged.
Qed.

(** The births after one node: an old buffer keeps its birth, a new one is
    born at the age the node found. *)
Lemma node_births (g : graph) (lr : t) (n : node_id) (lr' : t) (c : connector)
    (b' : logical_buffer) :
  make_logical_buffers_node g lr n = Ok lr' →
  buffers lr' !! c = Some b' →
  match buffers lr !! c with
  | Some b => birth (lifetime b') = birth (lifetime b)
  | None => birth (lifetime b') = cnt_age lr
  end.
Proof.
  unfold make_logical_buffers_node. intros H Hb'.
  destruct (get_node g n) as [nd|]; simpl in H; [|done].
  destruct (foldM (allocate g) lr (output_refs n nd)) as [lr1|] eqn:E1; simpl in H; [|done].
  destruct (allocate_fold_births _ _ _ _ E1) as (_ & A1 & B1).
  pose proof (release_fold_aged _ _ _ H) as A3.
  pose proof (grow_aged lr1) as A2.
  pose proof (aged_trans _ _ _ A2 A3) as A23.
  destruct (buffers lr !! c) as [b|] eqn:Hb.
  - destruct (aged_trans _ _ _ A1 A23 _ _ Hb) as (b'' & Hb'' & E & _). congruence.
  - assert (is_Some (buffers lr1 !! c)) as [b1 Hb1].
    { assert (is_Some (buffers (grow_age lr1) !! c)) as Hs
        by (apply (release_fold_keys _ _ _ c H); eauto).
      by rewrite grow_age_lookup, fmap_is_Some in Hs. }
    destruct (A23 _ _ Hb1) as (b'' & Hb'' & E & _).
    assert (b'' = b') as -> by congruence. rewrite E. by apply (B1 c).
Qed.

Lemma first_occurrence {A} `{EqDecision A} (x : A) (l : list A) :
  x ∈ l → ∃ i, l !! i = Some x ∧ ∀ j, (j < i)%nat → l !! j ≠ Some x.
Proof.
  induction l as [|y l IH]; [by rewrite elem_of_nil|].
  destruct (decide (y = x)) as [->|Hne].
  - intros _. exists 0%nat. split; [done|]. lia.
  - rewrite elem_of_cons. intros [?|Hin]; [congruence|].
    destruct (IH Hin) as (i & Hi & Hfirst). exists (S i). split; [done|].
    intros [|j] Hj; simpl; [congruence|]. apply Hfirst. lia.
Qed.

(** X5.  A buffer is born when its node is visited: its birth is the
    position of the first visit of the owning node in the order of the
    traversal. *)
Theorem make_logical_buffers_births (g : graph) (order : list node_id) (bufs : buffer_map)
    (c : connector) (b : logical_buffer) :
  make_logical_buffers g order ∅ = Ok bufs →
  bufs !! c = Some b →
  ∃ i, order !! i = Some c.1
       ∧ (∀ j, (j < i)%nat → order !! j ≠ Some c.1)
       ∧ birth (lifetime b) = N.of_nat i.
Proof.
  intros (lr & H & <-)%make_logical_buffers_run Hb.
  assert (output_of g order c) as [Hin (nd & Hnd & Hlt)].
  { assert (is_Some (buffers lr !! c)) as Hs by eauto.
    rewrite (fold_keys _ _ _ _ c H) in Hs. simpl in Hs.
    rewrite lookup_empty, is_Some_alt in Hs. by destruct Hs as [[]|?]. }
  destruct (first_occurrence _ _ Hin) as (i & Hi & Hfirst).
  exists i. split; [done|]. split; [done|].
  rewrite <- (take_drop_middle _ _ _ Hi), foldM_app in H.
  destruct (foldM _ _ (take i order)) as [lr1|] eqn:E1; simpl in H; [|done].
  destruct (make_logical_buffers_node g lr1 c.1) as [lr2|] eqn:E2; simpl in H; [|done].
  assert (buffers lr1 !! c = None) as Hnone.
  { apply eq_None_not_Some. rewrite (fold_keys _ _ _ _ c E1). simpl.
    rewrite lookup_empty, is_Some_alt. intros [[]|[Hc _]].
    apply list_elem_of_lookup in Hc as [j Hj]. apply lookup_take_Some in Hj as [Hj Hlt'].
    by eapply Hfirst. }
  assert (is_Some (buffers lr2 !! c)) as [b2 Hb2].
  { rewrite (node_keys _ _ _ _ c E2). right. split; [apply list_elem_of_singleton; done|eauto]. }
  pose proof (node_births _ _ _ _ _ _ E2 Hb2) as Hbirth. rewrite Hnone in Hbirth.
  destruct (fold_aged _ _ _ _ H _ _ Hb2) as (b' & Hb' & E & _).
  assert (b' = b) as -> by congruence. rewrite E, Hbirth.
  pose proof (fold_clock _ _ _ _ E1) as Hc.
  change (cnt_age (init ∅)) with 0 in Hc. rewrite N.add_0_l in Hc.
  rewrite length_take_le in Hc by (apply lookup_lt_Some in Hi; lia). done.
Qed.

Lemma aged_end (bufs bufs' : buffer_map) (c : connector) (b b' : logical_buffer) :
  aged bufs bufs' → bufs !! c = Some b → bufs' !! c = Some b' →
  birth (lifetime b') = birth (lifetime b) ∧ lt_end (lifetime b) ≤ lt_end (lifetime b').
Proof.
  intros A Hb Hb'. destruct (A _ _ Hb) as (b'' & Hb'' & E1 & E2 & _).
  assert (b'' = b') as -> by congruence. unfold lt_end. split; [done|lia].
Qed.

Lemma release_fold_uses (ins : list input_connector) (lr lr' : t) (inp : input_connector)
    (c : connector) (b' : logical_buffer) :
  foldM release_input lr ins = Ok lr' →
  clocked (cnt_age lr) (buffers lr) →
  inp ∈ ins → connection inp = Some c →
  buffers lr' !! c = Some b' →
  cnt_age lr ≤ lt_end (lifetime b').
Proof.
  revert lr. induction ins as [|i ins IH]; intros lr H K Hin Hc Hb'; [by apply elem_of_nil in Hin|].
  simpl in H. unfold release_input at 1 in H.
  destruct (connection i) as [out|] eqn:Hout; simpl in H; [|done].
  destruct (release lr out) as [lr1|] eqn:E; simpl in H; [|done].
  apply elem_of_cons in Hin as [->|Hin].
  - assert (out = c) as -> by congruence.
    assert (is_Some (buffers lr1 !! c)) as [b1 Hb1]
      by (apply (release_fold_keys _ _ _ c H); eauto).
    destruct (aged_end _ _ _ _ _ (release_fold_aged _ _ _ H) Hb1 Hb') as [_ Hle].
    apply release_inv in E as [[Hnone ->]|(b0 & Hb0 & Hpos & ->)]; [congruence|].
    simpl in Hb1. rewrite lookup_insert_eq in Hb1. injection Hb1 as <-.
    destruct (K _ _ Hb0) as [_ K2]. unfold is_alive in K2.
    rewrite (proj2 (N.ltb_lt _ _) Hpos) in K2. specialize (K2 eq_refl).
    unfold lt_end in *. simpl in Hle. lia.
  - assert (cnt_age lr1 = cnt_age lr) as Hcnt
      by by apply release_inv in E as [[_ ->]|(b0 & _ & _ & ->)].
    rewrite <- Hcnt. apply IH; try done. rewrite Hcnt.
    rewrite <- Hcnt. by eapply release_clocked.
Qed.

Lemma node_uses (g : graph) (lr : t) (n : node_id) (lr' : t) (nd : node)
    (inp : input_connector) (c : connector) (b' : logical_buffer) :
  make_logical_buffers_node g lr n = Ok lr' →
  clocked (cnt_age lr) (buffers lr) →
  g !! n = Some nd → inp ∈ inputs nd → connection inp = Some c →
  buffers lr' !! c = Some b' →
  cnt_age lr + 1 ≤ lt_end (lifetime b').
Proof.
  unfold make_logical_buffers_node, get_node. intros H K Hn Hin Hc Hb'.
  rewrite Hn in H. simpl in H.
  destruct (foldM (allocate g) lr (output_refs n nd)) as [lr1|] eqn:E1; simpl in H; [|done].
  assert (clocked (cnt_age lr1) (buffers lr1)) as K1.
  { revert K. apply (allocate_fold_rel g
      (λ a a', clocked (cnt_age a) (buffers a) → clocked (cnt_age a') (buffers a')))
      with (4 := E1); auto. apply allocate_clocked. }
  destruct (allocate_fold_births _ _ _ _ E1) as (C1 & _).
  apply grow_clocked in K1.
  pose proof (release_fold_uses _ _ _ _ _ _ H K1 Hin Hc Hb') as Hle.
  simpl in Hle. lia.
Qed.

(** X6.  A consumer is visited inside the lifetime of what it consumes:
    when the nodes are visited producers first, the position of every
    visited node lies in the interval of each buffer it reads, from its
    birth up to but not including its end. *)
Theorem make_logical_buffers_covers_uses (g : graph) (order : list node_id)
    (bufs : buffer_map) (j : nat) (n : node_id) (nd : node) (inp : input_connector)
    (c : connector) (oc : output_connector) :
  make_logical_buffers g order ∅ = Ok bufs →
  producers_first g order →
  order !! j = Some n → g !! n = Some nd →
  inp ∈ inputs nd → connection inp = Some c →
  get_output g c = Ok oc →
  ∃ b, bufs !! c = Some b
       ∧ birth (lifetime b) ≤ N.of_nat j
       ∧ N.of_nat j < lt_end (lifetime b).
Proof.
  intros (lr & H & <-)%make_logical_buffers_run Hpf Hj Hn Hin Hc Hoc.
  destruct (Hpf j n Hj c.1) as (i & Hij & Hi).
  { exists nd, inp, c.2. by destruct c. }
  rewrite <- (take_drop_middle _ _ _ Hj), foldM_app in H.
  destruct (foldM _ _ (take j order)) as [lr1|] eqn:E1; simpl in H; [|done].
  destruct (make_logical_buffers_node g lr1 n) as [lr2|] eqn:E2; simpl in H; [|done].
  pose proof (fold_clock _ _ _ _ E1) as Hc1.
  change (cnt_age (init ∅)) with 0 in Hc1. rewrite N.add_0_l in Hc1.
  rewrite length_take_le in Hc1 by (apply lookup_lt_Some in Hj; lia).
  pose proof (fold_clocked _ _ _ _ E1 (clocked_empty _)) as K1.
  assert (is_Some (buffers lr1 !! c)) as [b1 Hb1].
  { rewrite (fold_keys _ _ _ _ c E1). right. split.
    - apply list_elem_of_lookup. exists i. by apply lookup_take_Some.
    - unfold get_output, get_node in Hoc.
      destruct (g !! c.1) as [pn|]; simpl in Hoc; [|done].
      exists pn. split; [done|]. destruct (outputs pn !! c.2) eqn:Ho; simpl in Hoc; [|done].
      by eapply lookup_lt_Some. }
  destruct (fold_aged g [n] lr1 lr2) with (c := c) (b := b1) as (b2 & Hb2 & B2 & _);
    [by simpl; rewrite E2|done|].
  pose proof (node_uses _ _ _ _ _ _ _ _ E2 K1 Hn Hin Hc Hb2) as Huse.
  destruct (fold_aged _ _ _ _ H _ _ Hb2) as (b & Hb & B & _).
  destruct (aged_end _ _ _ _ _ (fold_aged _ _ _ _ H) Hb2 Hb) as [_ Hle].
  exists b. split; [done|]. destruct (K1 _ _ Hb1) as [K _]. unfold lt_end in K.
  rewrite Hc1 in *. split; lia.
Qed.

(** X7.  An output that nothing consumes is born dead: its buffer never
    ages and has no uses, so its interval is empty. *)
Theorem make_logical_buffers_unused (g : graph) (order : list node_id) (bufs : buffer_map)
    (c : connector) (b : logical_buffer) (oc : output_connector) :
  make_logical_buffers g order ∅ = Ok bufs →
  bufs !! c = Some b →
  get_output g c = Ok oc → connections oc = [] →
  age (lifetime b) = 0 ∧ used_count (lifetime b) = 0.
Proof.
  intros (lr & H & <-)%make_logical_buffers_run Hb Hoc Hcs. revert b Hb.
  refine (node_fold_rel g
    (λ a a', (∀ b, buffers a !! c = Some b →
                age (lifetime b) = 0 ∧ used_count (lifetime b) = 0) →
             (∀ b, buffers a' !! c = Some b →
                age (lifetime b) = 0 ∧ used_count (lifetime b) = 0))
    _ _ _ _ _ order _ _ H _).
  - auto.
  - auto.
  - intros a x a' [[_ ->]|(Hx & loc & oc' & _ & Hoc' & ->)]%allocate_inv P b Hb; [eauto|].
    simpl in Hb. destruct (decide (x = c)) as [->|Hne].
    + rewrite lookup_insert_eq in Hb. injection Hb as <-. simpl.
      assert (oc' = oc) as -> by congruence. by rewrite Hcs.
    + rewrite lookup_insert_ne in Hb by done. eauto.
  - intros a P b Hb. rewrite grow_age_lookup in Hb.
    destruct (buffers a !! c) as [b0|] eqn:Hb0; simpl in Hb; [|done].
    injection Hb as <-. destruct (P _ eq_refl) as [P1 P2].
    unfold grow, is_alive. rewrite P2. done.
  - intros a x a' [[_ ->]|(b0 & Hb0 & Hpos & ->)]%release_inv P b Hb; [eauto|].
    simpl in Hb. destruct (decide (x = c)) as [->|Hne].
    + destruct (P _ Hb0) as [_ P2]. lia.
    + rewrite lookup_insert_ne in Hb by done. eauto.
  - intros b. simpl. by rewrite lookup_empty.
Qed.

Lemma reads_elem (n : node_id) (c : connector) (ins : list input_connector) (k : nat)
    (p : node_id) (j : nat) :
  (p, j) ∈ reads n c k ins ↔
  p = n ∧ (k ≤ j)%nat ∧ ∃ i, ins !! (j - k)%nat = Some i ∧ connection i = Some c.
Proof.
  revert k. induction ins as [|i ins IH]; intros k; simpl.
  - rewrite elem_of_nil. split; [done|]. by intros (_ & _ & i & Hi & _).
  - rewrite elem_of_app, IH. split.
    + intros [Hh|(-> & Hk & i' & Hi' & Hc)].
      * destruct (decide (connection i = Some c)) as [Hc|]; [|by apply elem_of_nil in Hh].
        apply list_elem_of_singleton in Hh as [= -> ->]. split; [done|]. split; [lia|].
        exists i. by rewrite Nat.sub_diag.
      * split; [done|]. split; [lia|]. exists i'. split; [|done].
        replace (j - k)%nat with (S (j - S k)) by lia. done.
    + intros (-> & Hk & i' & Hi' & Hc). destruct (decide (j = k)) as [->|Hne].
      * left. rewrite Nat.sub_diag in Hi'. injection Hi' as ->.
        rewrite decide_True by done. by apply list_elem_of_singleton.
      * right. split; [done|]. split; [lia|]. exists i'. split; [|done].
        replace (j - k)%nat with (S (j - S k)) in Hi' by lia. done.
Qed.

Lemma reads_NoDup (n : node_id) (c : connector) (ins : list input_connector) (k : nat) :
  NoDup (reads n c k ins).
Proof.
  revert k. induction ins as [|i ins IH]; intros k; simpl; [constructor|].
  destruct (decide (connection i = Some c)); simpl; [|apply IH].
  constructor; [|apply IH]. rewrite reads_elem. lia.
Qed.

Lemma uses_elem (g : graph) (l : list node_id) (c : connector) (p : node_id) (j : nat) :
  (p, j) ∈ uses g l c ↔
  p ∈ l ∧ ∃ nd i, g !! p = Some nd ∧ inputs nd !! j = Some i ∧ connection i = Some c.
Proof.
  unfold uses. rewrite list_elem_of_bind. split.
  - intros (n & Hin & Hn). destruct (g !! n) as [nd|] eqn:Hg; [|by apply elem_of_nil in Hin].
    apply reads_elem in Hin as (-> & _ & i & Hi & Hc). rewrite Nat.sub_0_r in Hi.
    split; [done|]. eauto.
  - intros (Hp & nd & i & Hg & Hi & Hc). exists p. split; [|done]. rewrite Hg.
    apply reads_elem. split; [done|]. split; [lia|]. exists i. by rewrite Nat.sub_0_r.
Qed.

Lemma uses_NoDup (g : graph) (l : list node_id) (c : connector) :
  NoDup l → NoDup (uses g l c).
Proof.
  unfold uses. induction 1 as [|n l Hn Hl IH]; simpl; [constructor|].
  apply NoDup_app. split; [|split; [|done]].
  - destruct (g !! n); [apply reads_NoDup|constructor].
  - intros [p j] H1 H2. apply (uses_elem g l c) in H2 as [H2 _].
    destruct (g !! n); [|by apply elem_of_nil in H1].
    apply reads_elem in H1 as [-> _]. done.
Qed.

Lemma uses_app (g : graph) (l1 l2 : list node_id) (c : connector) :
  uses g (l1 ++ l2) c = uses g l1 c ++ uses g l2 c.
Proof. unfold uses. apply bind_app. Qed.

Lemma uses_bound (g : graph) (l : list node_id) (c : connector) (oc : output_connector) :
  connected g → NoDup l → get_output g c = Ok oc →
  (length (uses g l c) ≤ length (connections oc))%nat.
Proof.
  intros [_ Hcon] Hl Hoc. apply submseteq_length, NoDup_submseteq; [by apply uses_NoDup|].
  intros [p j] (_ & nd & i & Hg & Hi & Hc)%uses_elem.
  destruct (Hcon _ _ _ _ _ Hg Hi Hc) as (oc' & Hoc' & Hin). congruence.
Qed.

Lemma decide_memory_location_total (g : graph) (c : connector) (oc : output_connector) :
  connected g → get_output g c = Ok oc → ∃ loc, decide_memory_location g c = Ok loc.
Proof.
  intros [Hcon _] Hoc. unfold decide_memory_location.
  pose proof Hoc as Hoc'. unfold get_output, get_node in Hoc'. unfold opcode_of at 1, get_node.
  destruct (g !! c.1) as [nd|] eqn:Hn; simpl in *; [|done].
  destruct (decide (runtime_opcode nd = op_input_node)); [eauto|].
  destruct (decide (runtime_opcode nd = op_constant)); [eauto|].
  rewrite Hoc. simpl.
  assert (∃ r, any_ofM (λ k : node_id * nat,
                 let* o := opcode_of g k.1 in Ok (bool_decide (o = op_output_node)))
               (connections oc) = Ok r) as [r ->].
  { assert (∀ p k, (p, k) ∈ connections oc → is_Some (g !! p)) as Hall.
    { intros p k Hin. destruct (Hcon _ _ _ _ Hoc Hin) as (pn & _ & -> & _). eauto. }
    clear -Hall. induction (connections oc) as [|[p k] l IH]; simpl; [eauto|].
    destruct (Hall p k) as [pn Hp]; [by left|].
    unfold opcode_of at 1, get_node. rewrite Hp. simpl.
    destruct (bool_decide _); [eauto|]. apply IH. intros p' k' Hin. eapply Hall. by right. }
  simpl. destruct r; eauto.
Qed.

Lemma allocate_fold_total (g : graph) (cs : list connector) (lr : t) :
  connected g →
  (∀ x, x ∈ cs → ∃ oc, get_output g x = Ok oc) →
  ∃ lr', foldM (allocate g) lr cs = Ok lr'
    ∧ ∀ c b', buffers lr' !! c = Some b' →
        buffers lr !! c = Some b'
        ∨ (buffers lr !! c = None ∧ c ∈ cs
           ∧ ∃ oc, get_output g c = Ok oc
               ∧ used_count (lifetime b') = N.of_nat (length (connections oc))).
Proof.
  intros Hcon. revert lr. induction cs as [|x cs IH]; intros lr Hcs; simpl.
  - exists lr. split; [done|]. eauto.
  - destruct (Hcs x) as [oc Hoc]; [by left|].
    destruct (decide_memory_location_total _ _ _ Hcon Hoc) as [loc Hloc].
    assert (∃ lr1, allocate g lr x = Ok lr1 ∧
              ∀ c b', buffers lr1 !! c = Some b' →
                buffers lr !! c = Some b'
                ∨ (buffers lr !! c = None ∧ c = x
                   ∧ used_count (lifetime b') = N.of_nat (length (connections oc))))
      as (lr1 & E & H1).
    { unfold allocate. destruct (buffers lr !! x) eqn:Hx; [eauto|].
      rewrite Hloc, Hoc. simpl. eexists. split; [done|]. intros c b'. simpl.
      destruct (decide (x = c)) as [->|Hne].
      - rewrite lookup_insert_eq. intros [= <-]. right. done.
      - rewrite lookup_insert_ne by done. eauto. }
    rewrite E. simpl.
    destruct (IH lr1) as (lr' & -> & H'). { intros y Hy. apply Hcs. by right. }
    exists lr'. split; [done|]. intros c b' Hb'.
    destruct (H' _ _ Hb') as [Hold|(Hnone & Hin & oc' & Hoc' & Hu)].
    + destruct (H1 _ _ Hold) as [?|(? & -> & ?)]; [by left|].
      right. split; [done|]. split; [by left|]. eauto.
    + right. split.
      * destruct (buffers lr !! c) as [b0|] eqn:Hb0; [|done].
        destruct (allocate_aged _ _ _ _ E _ _ Hb0) as (? & ? & _). congruence.
      * split; [by right|]. eauto.
Qed.

Lemma release_fold_total (n : node_id) (ins : list input_connector) (k : nat) (lr : t) :
  (∀ i, i ∈ ins → is_Some (connection i)) →
  (∀ c b, buffers lr !! c = Some b →
     N.of_nat (length (reads n c k ins)) ≤ used_count (lifetime b)) →
  ∃ lr', foldM release_input lr ins = Ok lr'
    ∧ ∀ c b, buffers lr !! c = Some b →
        ∃ b', buffers lr' !! c = Some b'
          ∧ used_count (lifetime b') + N.of_nat (length (reads n c k ins))
            = used_count (lifetime b).
Proof.
  revert k lr. induction ins as [|i ins IH]; intros k lr Hins Hle; simpl.
  - exists lr. split; [done|]. intros c b Hb. exists b. split; [done|]. simpl. lia.
  - destruct (Hins i) as [out Hout]; [by left|].
    unfold release_input at 1. rewrite Hout. simpl.
    assert (∃ lr1, release lr out = Ok lr1 ∧
              ∀ c b, buffers lr !! c = Some b →
                ∃ b1, buffers lr1 !! c = Some b1
                  ∧ used_count (lifetime b1)
                    + N.of_nat (length (if decide (connection i = Some c)
                                        then [(n, k)] else []))
                    = used_count (lifetime b)) as (lr1 & E & H1).
    { unfold release. destruct (buffers lr !! out) as [b0|] eqn:Hb0.
      - specialize (Hle _ _ Hb0). simpl in Hle. rewrite decide_True in Hle by done.
        simpl in Hle. unfold is_alive.
        rewrite (proj2 (N.ltb_lt 0 (used_count (lifetime b0)))) by lia. simpl.
        eexists. split; [done|]. intros c b Hb. simpl.
        destruct (decide (out = c)) as [->|Hne].
        + rewrite lookup_insert_eq. eexists. split; [done|].
          rewrite decide_True by done. assert (b = b0) as -> by congruence. simpl. lia.
        + rewrite lookup_insert_ne by done. exists b. split; [done|].
          rewrite decide_False by congruence. simpl. lia.
      - exists lr. split; [done|]. intros c b Hb. exists b. split; [done|].
        rewrite decide_False by congruence. simpl. lia. }
    rewrite E. simpl. destruct (IH (S k) lr1) as (lr' & -> & H').
    { intros j Hj. apply Hins. by right. }
    { intros c b1 Hb1.
      assert (is_Some (buffers lr !! c)) as [b Hb].
      { apply release_inv in E as [[_ ->]|(b0 & Hb0 & _ & ->)]; [eauto|].
        simpl in Hb1. apply (mk_is_Some _ b1), lookup_insert_is_Some in Hb1.
        destruct Hb1 as [<-|[_ ?]]; eauto. }
      destruct (H1 _ _ Hb) as (b1' & Hb1' & E1). assert (b1' = b1) as -> by congruence.
      specialize (Hle _ _ Hb). simpl in Hle. rewrite length_app, Nat2N.inj_add in Hle. lia. }
    exists lr'. split; [done|]. intros c b Hb.
    destruct (H1 _ _ Hb) as (b1 & Hb1 & E1). destruct (H' _ _ Hb1) as (b' & Hb' & E').
    exists b'. split; [done|]. rewrite length_app, Nat2N.inj_add.
    rewrite Hout in E1. lia.
Qed.

Lemma uses_single (g : graph) (n : node_id) (nd : node) (c : connector) :
  g !! n = Some nd → uses g [n] c = reads n c 0 (inputs nd).
Proof. intros Hn. unfold uses. simpl. rewrite Hn. apply app_nil_r. Qed.

Lemma uses_before_birth (g : graph) (pre post : list node_id) (n : node_id) (c : connector) :
  NoDup (pre ++ n :: post) → producers_first g (pre ++ n :: post) →
  c.1 = n → uses g pre c = [].
Proof.
  intros Hnd Hpf Hc. destruct (uses g pre c) as [|[p j] l] eqn:Hu; [done|]. exfalso.
  assert ((p, j) ∈ uses g pre c) as Hin by (rewrite Hu; left).
  apply uses_elem in Hin as (Hp & nd & i & Hg & Hi & Hci).
  apply list_elem_of_lookup in Hp as [ip Hip].
  destruct (Hpf ip p) with (p := n) as (jn & Hlt & Hjn).
  { by apply lookup_app_l_Some. }
  { exists nd, i, c.2. split; [done|]. split; [by eapply list_elem_of_lookup_2|].
    rewrite Hci, <- Hc. by destruct c. }
  apply NoDup_app in Hnd as (_ & Hnd & _). apply (Hnd n); [|by left].
  apply list_elem_of_lookup. exists jn.
  apply lookup_lt_Some in Hip. rewrite lookup_app_l in Hjn by lia. done.
Qed.

Lemma node_total (g : graph) (pre post : list node_id) (n : node_id) (lr : t) :
  connected g → NoDup (pre ++ n :: post) → producers_first g (pre ++ n :: post) →
  wired g (pre ++ n :: post) →
  accounted g pre (buffers lr) →
  ∃ lr', make_logical_buffers_node g lr n = Ok lr'
         ∧ accounted g (pre ++ [n]) (buffers lr').
Proof.
  intros Hcon Hnd Hpf Hw Hacc.
  destruct (Hw n) as (nd & Hn & Hins). { apply elem_of_app. right. by left. }
  unfold make_logical_buffers_node, get_node. rewrite Hn. simpl.
  destruct (allocate_fold_total g (output_refs n nd) lr Hcon) as (lr1 & -> & H1).
  { intros x (k & -> & Hk)%list_elem_of_fmap. apply elem_of_seq in Hk.
    unfold get_output, get_node. simpl. rewrite Hn. simpl.
    destruct (lookup_lt_is_Some_2 (outputs nd) k) as [oc ->]; [lia|]. eauto. }
  simpl.
  assert (accounted g pre (buffers (grow_age lr1))) as Hacc2.
  { intros c b2 Hb2. rewrite grow_age_lookup in Hb2.
    destruct (buffers lr1 !! c) as [b1|] eqn:Hb1; simpl in Hb2; [|done].
    injection Hb2 as <-.
    destruct (grow_fields b1) as (_ & _ & _ & _ & _ & _ & _ & _ & -> & _).
    destruct (H1 _ _ Hb1) as [Hold|(_ & Hin & oc & Hoc & Hu)]; [eauto|].
    exists oc. split; [done|]. rewrite Hu.
    apply list_elem_of_fmap in Hin as (k & -> & _).
    rewrite (uses_before_birth g pre post n) by done. simpl. lia. }
  assert (NoDup (pre ++ [n])) as Hnd'.
  { rewrite (assoc_L (++) pre [n] post : pre ++ n :: post = (pre ++ [n]) ++ post) in Hnd.
    by apply NoDup_app in Hnd as [? _]. }
  destruct (release_fold_total n (inputs nd) 0 (grow_age lr1) Hins) as (lr' & Hrun & H').
  { intros c b2 Hb2. destruct (Hacc2 _ _ Hb2) as (oc & Hoc & E).
    pose proof (uses_bound g (pre ++ [n]) c oc Hcon Hnd' Hoc) as Hle.
    rewrite uses_app, (uses_single g n nd) , length_app in Hle by done. lia. }
  exists lr'. split; [done|]. intros c b' Hb'.
  assert (is_Some (buffers (grow_age lr1) !! c)) as [b2 Hb2]
    by (apply (release_fold_keys _ _ _ c Hrun); eauto).
  destruct (Hacc2 _ _ Hb2) as (oc & Hoc & E). exists oc. split; [done|].
  destruct (H' _ _ Hb2) as (b'' & Hb'' & E'). assert (b'' = b') as -> by congruence.
  rewrite uses_app, (uses_single g n nd), length_app, Nat2N.inj_add by done. lia.
Qed.

Lemma fold_total (g : graph) (post pre : list node_id) (lr : t) :
  connected g → NoDup (pre ++ post) → producers_first g (pre ++ post) →
  wired g (pre ++ post) →
  accounted g pre (buffers lr) →
  ∃ lr', foldM (make_logical_buffers_node g) lr post = Ok lr'
         ∧ accounted g (pre ++ post) (buffers lr').
Proof.
  intros Hcon. revert pre lr. induction post as [|n post IH]; intros pre lr Hnd Hpf Hw Hacc.
  - exists lr. split; [done|]. by rewrite app_nil_r.
  - destruct (node_total g pre post n lr) as (lr1 & E & Hacc1); try done.
    simpl. rewrite E. simpl.
    replace (pre ++ n :: post) with ((pre ++ [n]) ++ post) in * by (by rewrite <- app_assoc).
    exact (IH _ _ Hnd Hpf Hw Hacc1).
Qed.

(** X8.  On a graph whose connections are recorded at both ends, visited
    producers first and every node once, the lifetime builder never throws:
    no buffer is released more often than it has consumers, and what is
    left of [used_count] when the pass is over is the number of consumers
    that were not visited. *)
Theorem make_logical_buffers_total (g : graph) (order : list node_id) :
  connected g → NoDup order → producers_first g order → wired g order →
  ∃ bufs, make_logical_buffers g order ∅ = Ok bufs ∧ accounted g order bufs.
Proof.
  intros Hcon Hnd Hpf Hw.
  destruct (fold_total g order [] (init ∅)) as (lr & H & Hacc); try done.
  exists (buffers lr). split; [|done]. apply make_logical_buffers_run. eauto.
Qed.

Lemma allocate_ended (g : graph) (order : list node_id) (lr : t) (c : connector) (lr' : t) :
  allocate g lr c = Ok lr' → ended g order (buffers lr) → ended g order (buffers lr').
Proof.
  intros [[_ ->]|(Hx & loc & oc & _ & _ & ->)]%allocate_inv E; [done|].
  intros k b Hb Hu. simpl in Hb. destruct (decide (c = k)) as [->|Hne].
  - rewrite lookup_insert_eq in Hb. injection Hb as <-. by left.
  - rewrite lookup_insert_ne in Hb by done. eauto.
Qed.

Lemma grow_ended (g : graph) (order : list node_id) (lr : t) :
  ended g order (buffers lr) → ended g order (buffers (grow_age lr)).
Proof.
  intros E k b Hb Hu. rewrite grow_age_lookup in Hb.
  destruct (buffers lr !! k) as [b0|] eqn:Hb0; simpl in Hb; [|done].
  injection Hb as <-. destruct (grow_fields b0) as (_ & _ & _ & _ & _ & _ & _ & _ & Eu & _).
  rewrite Eu in Hu. unfold grow, is_alive. rewrite Hu. simpl. eauto.
Qed.

Lemma release_fold_ended (g : graph) (order : list node_id) (j : nat) (n : node_id)
    (nd : node) :
  order !! j = Some n → g !! n = Some nd →
  ∀ (ins : list input_connector) (lr lr' : t),
  (∀ inp, inp ∈ ins → inp ∈ inputs nd) →
  cnt_age lr = N.of_nat j + 1 →
  clocked (cnt_age lr) (buffers lr) → ended g order (buffers lr) →
  foldM release_input lr ins = Ok lr' →
  ended g order (buffers lr').
Proof.
  intros Hj Hn. induction ins as [|i ins IH]; intros lr lr' Hsub Hcnt K E H; simpl in H.
  - by injection H as <-.
  - unfold release_input at 1 in H.
    destruct (connection i) as [out|] eqn:Hout; simpl in H; [|done].
    destruct (release lr out) as [lr1|] eqn:Hr; simpl in H; [|done].
    pose proof (release_clocked _ _ _ Hr K) as K1.
    apply (IH lr1 lr'); [intros inp Hinp; apply Hsub; by right| | | |done].
    + by apply release_inv in Hr as [[_ ->]|(b0 & _ & _ & ->)].
    + done.
    + apply release_inv in Hr as [[_ ->]|(b0 & Hb0 & Hpos & ->)]; [done|].
      intros k b Hb Hu. simpl in Hb. destruct (decide (out = k)) as [->|Hne].
      * rewrite lookup_insert_eq in Hb. injection Hb as <-. right. exists j. split.
        -- exists n, nd, i. split; [done|]. split; [done|]. split; [|done].
           apply Hsub. by left.
        -- destruct (K _ _ Hb0) as [_ K2]. unfold is_alive in K2.
           rewrite (proj2 (N.ltb_lt _ _) Hpos) in K2. specialize (K2 eq_refl).
           unfold lt_end in *. simpl. lia.
      * rewrite lookup_insert_ne in Hb by done. eauto.
Qed.

Lemma node_ended (g : graph) (order : list node_id) (j : nat) (n : node_id) (lr lr' : t) :
  order !! j = Some n → cnt_age lr = N.of_nat j →
  clocked (cnt_age lr) (buffers lr) → ended g order (buffers lr) →
  make_logical_buffers_node g lr n = Ok lr' →
  ended g order (buffers lr').
Proof.
  intros Hj Hcnt K E H. unfold make_logical_buffers_node, get_node in H.
  destruct (g !! n) as [nd|] eqn:Hn; simpl in H; [|done].
  destruct (foldM (allocate g) lr (output_refs n nd)) as [lr1|] eqn:E1; simpl in H; [|done].
  assert (clocked (cnt_age lr1) (buffers lr1) ∧ ended g order (buffers lr1)) as [K1 E1'].
  { revert K E. apply (allocate_fold_rel g
      (λ a a', clocked (cnt_age a) (buffers a) → ended g order (buffers a) →
               clocked (cnt_age a') (buffers a') ∧ ended g order (buffers a')))
      with (4 := E1).
    - auto.
    - intros a b c Hab Hbc Ka Ea. destruct (Hab Ka Ea). auto.
    - intros a c a' Ha Ka Ea. split; [by eapply allocate_clocked|by eapply allocate_ended]. }
  destruct (allocate_fold_births _ _ _ _ E1) as (C1 & _).
  apply (release_fold_ended g order j n nd Hj Hn (inputs nd) (grow_age lr1) lr'); try done.
  - simpl. lia.
  - by apply grow_clocked.
  - by apply grow_ended.
Qed.

Lemma fold_ended (g : graph) (order : list node_id) :
  ∀ (l pre : list node_id) (lr lr' : t),
  order = pre ++ l → cnt_age lr = N.of_nat (length pre) →
  clocked (cnt_age lr) (buffers lr) → ended g order (buffers lr) →
  foldM (make_logical_buffers_node g) lr l = Ok lr' →
  ended g order (buffers lr').
Proof.
  induction l as [|n l IH]; intros pre lr lr' Ho Hcnt K E H; simpl in H.
  - by injection H as <-.
  - destruct (make_logical_buffers_node g lr n) as [lr1|] eqn:E1; simpl in H; [|done].
    apply (IH (pre ++ [n]) lr1 lr'); [by rewrite <- app_assoc| | | |done].
    + rewrite (node_clock _ _ _ _ E1), Hcnt, length_app. simpl. lia.
    + apply (fold_clocked g [n] lr lr1); [by simpl; rewrite E1|done].
    + apply (node_ended g order (length pre) n lr lr1); try done.
      rewrite Ho. by rewrite lookup_app_r, Nat.sub_diag by lia.
Qed.

(** X9.  No interval is longer than its uses: the interval of a buffer
    with no uses left is empty, if nothing ever read it, or ends right after
    the visit of a node that reads it. *)
Theorem make_logical_buffers_ends_at_use (g : graph) (order : list node_id)
    (bufs : buffer_map) :
  make_logical_buffers g order ∅ = Ok bufs → ended g order bufs.
Proof.
  intros (lr & H & <-)%make_logical_buffers_run.
  apply (fold_ended g order order [] (init ∅) lr); [done|done| | |done].
  - apply clocked_empty.
  - intros c b. simpl. by rewrite lookup_empty.
Qed.

Lemma release_fold_dead (ins : list input_connector) (lr lr' : t) (inp : input_connector)
    (c : connector) (b : logical_buffer) :
  foldM release_input lr ins = Ok lr' →
  inp ∈ ins → connection inp = Some c →
  buffers lr !! c = Some b → used_count (lifetime b) = 0 → False.
Proof.
  revert lr b. induction ins as [|i ins IH]; intros lr b H Hin Hc Hb Hu;
    [by apply elem_of_nil in Hin|].
  simpl in H. unfold release_input at 1 in H.
  destruct (connection i) as [out|] eqn:Hout; simpl in H; [|done].
  destruct (release lr out) as [lr1|] eqn:E; simpl in H; [|done].
  destruct (release_aged _ _ _ E _ _ Hb) as (b1 & Hb1 & _ & _ & Hu1).
  apply elem_of_cons in Hin as [->|Hin].
  - assert (out = c) as -> by congruence.
    apply release_inv in E as [[Hnone _]|(b0 & Hb0 & Hpos & _)]; [congruence|].
    assert (b0 = b) as -> by congruence. lia.
  - apply (IH lr1 b1); try done. lia.
Qed.

(** X10.  [make_logical_buffers] works on the map it finds and does not
    reset it: started on a map in which a buffer has no uses left, as a
    finished pass leaves it, the pass fails as soon as it visits a node that
    reads that buffer. *)
Theorem make_logical_buffers_on_dead_buffer (g : graph) (order : list node_id)
    (bufs0 : buffer_map) (c : connector) (b0 : logical_buffer) (j : nat) (n : node_id)
    (nd : node) (inp : input_connector) :
  bufs0 !! c = Some b0 → used_count (lifetime b0) = 0 →
  order !! j = Some n → g !! n = Some nd →
  inp ∈ inputs nd → connection inp = Some c →
  ∃ e, make_logical_buffers g order bufs0 = Err e.
Proof.
  intros Hb0 Hu Hj Hn Hin Hc.
  destruct (make_logical_buffers g order bufs0) as [bufs|e] eqn:H; [exfalso|eauto].
  apply make_logical_buffers_run in H as (lr & H & _).
  rewrite <- (take_drop_middle _ _ _ Hj), foldM_app in H.
  destruct (foldM _ _ (take j order)) as [lr1|] eqn:E1; simpl in H; [|done].
  destruct (make_logical_buffers_node g lr1 n) as [lr2|] eqn:E2; simpl in H; [|done].
  destruct (fold_aged _ _ _ _ E1 _ _ Hb0) as (b1 & Hb1 & _ & _ & Hu1).
  unfold make_logical_buffers_node, get_node in E2. rewrite Hn in E2. simpl in E2.
  destruct (foldM (allocate g) lr1 (output_refs n nd)) as [lr1'|] eqn:E3; simpl in E2; [|done].
  destruct (allocate_fold_births _ _ _ _ E3) as (_ & A & _).
  destruct (A _ _ Hb1) as (b2 & Hb2 & _ & _ & Hu2).
  destruct (grow_aged lr1' _ _ Hb2) as (b3 & Hb3 & _ & _ & Hu3).
  apply (release_fold_dead _ _ _ _ _ _ E2 Hin Hc Hb3). lia.
Qed.

End builder.

(** *** Instances on the sample graphs *)

Lemma make_logical_buffers_keys_witness :
  ∃ bufs,
    make_logical_buffers concat_graph concat_order ∅ = Ok bufs
    ∧ (is_Some (bufs !! (2, 0)%nat) ↔ output_of concat_graph concat_order (2, 0)%nat).
Proof.
  assert (∃ bufs, make_logical_buffers concat_graph concat_order ∅ = Ok bufs) as [bufs H]
    by (vm_compute; eauto).
  exists bufs. split; [exact H|].
  exact (make_logical_buffers_keys concat_graph concat_order bufs (2, 0)%nat H).
Defined.

Lemma make_logical_buffers_describes_witness :
  ∃ bufs b,
    make_logical_buffers concat_graph concat_order ∅ = Ok bufs
    ∧ bufs !! (2, 0)%nat = Some b
    ∧ describes concat_graph (2, 0)%nat b.
Proof.
  assert (∃ bufs b, make_logical_buffers concat_graph concat_order ∅ = Ok bufs
                    ∧ bufs !! (2, 0)%nat = Some b) as (bufs & b & H & Hb).
  { eexists _, _. split; by vm_compute. }
  exists bufs, b. split; [exact H|]. split; [exact Hb|].
  exact (make_logical_buffers_describes concat_graph concat_order bufs (2, 0)%nat b H Hb).
Defined.

Lemma make_logical_buffers_ids_witness :
  ∃ bufs,
    make_logical_buffers concat_graph concat_order ∅ = Ok bufs ∧ ids_dense bufs.
Proof.
  assert (∃ bufs, make_logical_buffers concat_graph concat_order ∅ = Ok bufs) as [bufs H]
    by (vm_compute; eauto).
  exists bufs. split; [exact H|].
  exact (make_logical_buffers_ids concat_graph concat_order bufs H).
Defined.

Lemma make_logical_buffers_ends_witness :
  ∃ bufs,
    make_logical_buffers concat_graph concat_order ∅ = Ok bufs ∧ clocked 4 bufs.
Proof.
  assert (∃ bufs, make_logical_buffers concat_graph concat_order ∅ = Ok bufs) as [bufs H]
    by (vm_compute; eauto).
  exists bufs. split; [exact H|].
  exact (make_logical_buffers_ends concat_graph concat_order bufs H).
Defined.

Lemma make_logical_buffers_births_witness :
  ∃ bufs b,
    make_logical_buffers concat_graph concat_order ∅ = Ok bufs
    ∧ bufs !! (2, 0)%nat = Some b
    ∧ ∃ i, concat_order !! i = Some 2%nat
           ∧ (∀ j, (j < i)%nat → concat_order !! j ≠ Some 2%nat)
           ∧ birth (lifetime b) = N.of_nat i.
Proof.
  assert (∃ bufs b, make_logical_buffers concat_graph concat_order ∅ = Ok bufs
                    ∧ bufs !! (2, 0)%nat = Some b) as (bufs & b & H & Hb).
  { eexists _, _. split; by vm_compute. }
  exists bufs, b. split; [exact H|]. split; [exact Hb|].
  exact (make_logical_buffers_births concat_graph concat_order bufs (2, 0)%nat b H Hb).
Defined.

Lemma make_logical_buffers_covers_uses_witness :
  ∃ bufs,
    make_logical_buffers (mixed_graph 0) mixed_order ∅ = Ok bufs
    ∧ ∃ b, bufs !! (0, 0)%nat = Some b
           ∧ birth (lifetime b) ≤ 3 ∧ 3 < lt_end (lifetime b).
Proof.
  assert (∃ bufs, make_logical_buffers (mixed_graph 0) mixed_order ∅ = Ok bufs) as [bufs H]
    by (vm_compute; eauto).
  exists bufs. split; [exact H|].
  exact (make_logical_buffers_covers_uses (mixed_graph 0) mixed_order bufs 3 3%nat
           (inner_concat 0) {| in_shape := [1; 2]; connection := Some (0, 0)%nat |}
           (0, 0)%nat {| out_shape := [1; 2]; out_type := 0%nat;
                         connections := [(3, 0)%nat] |}
           H mixed_order_producers_first eq_refl eq_refl
           ltac:(by left) eq_refl eq_refl).
Defined.

Lemma make_logical_buffers_unused_witness :
  ∃ bufs b,
    make_logical_buffers orphan_graph [0%nat] ∅ = Ok bufs
    ∧ bufs !! (0, 0)%nat = Some b
    ∧ age (lifetime b) = 0 ∧ used_count (lifetime b) = 0.
Proof.
  assert (∃ bufs b, make_logical_buffers orphan_graph [0%nat] ∅ = Ok bufs
                    ∧ bufs !! (0, 0)%nat = Some b) as (bufs & b & H & Hb).
  { eexists _, _. split; by vm_compute. }
  exists bufs, b. split; [exact H|]. split; [exact Hb|].
  exact (make_logical_buffers_unused orphan_graph [0%nat] bufs (0, 0)%nat b
           {| out_shape := [2]; out_type := 0%nat; connections := [] |}
           H Hb eq_refl eq_refl).
Defined.

Lemma mixed_graph_wired : wired (mixed_graph 0) mixed_order.
Proof.
  intros n Hn. unfold mixed_order in Hn.
  member_cases Hn; (eexists; split; [reflexivity|]); intros i Hi; simpl in Hi;
    member_cases Hi; by eexists.
Qed.

Lemma make_logical_buffers_total_witness :
  ∃ bufs,
    make_logical_buffers (mixed_graph 0) mixed_order ∅ = Ok bufs
    ∧ accounted (mixed_graph 0) mixed_order bufs.
Proof.
  apply (make_logical_buffers_total (mixed_graph 0) mixed_order
           mixed_graph_connected ltac:(compute_done)
           mixed_order_producers_first mixed_graph_wired).
Defined.

Lemma make_logical_buffers_ends_at_use_witness :
  ∃ bufs,
    make_logical_buffers concat_graph concat_order ∅ = Ok bufs
    ∧ ended concat_graph concat_order bufs.
Proof.
  assert (∃ bufs, make_logical_buffers concat_graph concat_order ∅ = Ok bufs) as [bufs H]
    by (vm_compute; eauto).
  exists bufs. split; [exact H|].
  exact (make_logical_buffers_ends_at_use concat_graph concat_order bufs H).
Defined.

Lemma make_logical_buffers_on_dead_buffer_witness :
  ∃ bufs e,
    make_logical_buffers concat_graph concat_order ∅ = Ok bufs
    ∧ make_logical_buffers concat_graph concat_order bufs = Err e.
Proof.
  assert (∃ bufs b0, make_logical_buffers concat_graph concat_order ∅ = Ok bufs
                     ∧ bufs !! (0, 0)%nat = Some b0 ∧ used_count (lifetime b0) = 0)
    as (bufs & b0 & H & Hb0 & Hu).
  { eexists _, _. split; [by vm_compute|]. split; by vm_compute. }
  destruct (make_logical_buffers_on_dead_buffer concat_graph concat_order bufs (0, 0)%nat
              b0 2 2%nat (concat_node 0 [2; 3] concat_inputs [concat_output])
              {| in_shape := [2; 4]; connection := Some (0, 0)%nat |}
              Hb0 Hu eq_refl eq_refl ltac:(by left) eq_refl) as [e He].
  exists bufs, e. by split.
Defined.

(** ** The alias analyser *)

Lemma analyze_bitcast_inv (g : graph) (bufs : buffer_map) (n : node_id) (nd : node)
    (g' : graph) (bufs' : buffer_map) :
  analyze_bitcast g bufs n nd = Ok (g', bufs') →
  ∃ ic input in_buf out_buf bufs1,
    inputs nd !! 0%nat = Some ic ∧ connection ic = Some input
    ∧ bufs !! input = Some in_buf ∧ bufs !! (n, 0%nat) = Some out_buf
    ∧ (bufs1 = bufs
       ∨ (memory_location out_buf = mem_output ∧ memory_location in_buf = mem_data
          ∧ bufs1 = <[input := set_memory_location mem_output in_buf]> bufs))
    ∧ ((g' = g ∧ bufs' = bufs1)
       ∨ ∃ out_buf1 in_oc,
           bufs1 !! (n, 0%nat) = Some out_buf1 ∧ get_output g input = Ok in_oc
           ∧ g' = <[n := clear_action nd]> g
           ∧ bufs' = <[(n, 0%nat) := set_parent
                         (Some {| parent := input;
                                  begin := zeros (length (out_shape in_oc)) |})
                         out_buf1]> bufs1).
Proof.
  unfold analyze_bitcast, buf_at. intros H.
  destruct (inputs nd !! 0%nat) as [ic|]; simpl in H; [|done].
  destruct (connection ic) as [input|] eqn:Hic; simpl in H; [|done].
  destruct (bufs !! input) as [in_buf|] eqn:Hin; simpl in H; [|done].
  destruct (bufs !! (n, 0%nat)) as [out_buf|] eqn:Hout; simpl in H; [|done].
  exists ic, input, in_buf, out_buf.
  set (bufs1 := if bool_decide (memory_location out_buf = mem_output)
                   && bool_decide (memory_location in_buf = mem_data)
                then <[input := set_memory_location mem_output in_buf]> bufs
                else bufs) in *.
  exists bufs1. do 4 (split; [done|]). split.
  - subst bufs1. do 2 case_bool_decide; simpl; eauto.
  - destruct (bufs1 !! input) as [in_buf1|]; simpl in H; [|done].
    destruct (bufs1 !! (n, 0%nat)) as [out_buf1|] eqn:Hout1; simpl in H; [|done].
    destruct (may_alias _ _).
    + destruct (get_output g input) as [in_oc|]; simpl in H; [|done].
      injection H as <- <-. right. eauto 10.
    + injection H as <- <-. by left.
Qed.

Lemma analyze_concat_inv (g : graph) (bufs : buffer_map) (n : node_id) (nd : node)
    (g' : graph) (bufs' : buffer_map) :
  analyze_concat g bufs n nd = Ok (g', bufs') →
  bufs' = bufs ∧ (g' = g ∨ g' = <[n := clear_action nd]> g).
Proof.
  unfold analyze_concat. intros H.
  destruct (outputs nd !! 0%nat); simpl in H; [|done].
  destruct (concat_axis_ok nd) as [[]|]; simpl in H; [| |done].
  - destruct (all_ofM _ _) as [[]|]; simpl in H; [| |done].
    + destruct (concat_consumers _ _); simpl in H; [|done].
      destruct (decide _); injection H as <- <-; eauto.
    + injection H as <- <-. eauto.
  - injection H as <- <-. eauto.
Qed.

Lemma analyze_node_inv (g : graph) (bufs : buffer_map) (n : node_id)
    (g' : graph) (bufs' : buffer_map) :
  analyze_node (g, bufs) n = Ok (g', bufs') →
  ∃ nd, g !! n = Some nd
    ∧ ((runtime_opcode nd = op_bitcast ∧ analyze_bitcast g bufs n nd = Ok (g', bufs'))
       ∨ (runtime_opcode nd = op_concat ∧ analyze_concat g bufs n nd = Ok (g', bufs'))
       ∨ (runtime_opcode nd ≠ op_bitcast ∧ runtime_opcode nd ≠ op_concat
          ∧ g' = g ∧ bufs' = bufs)).
Proof.
  unfold analyze_node, get_node. simpl. intros H.
  destruct (g !! n) as [nd|]; simpl in H; [|done]. exists nd. split; [done|].
  destruct (decide (runtime_opcode nd = op_bitcast)); [by left|].
  destruct (decide (runtime_opcode nd = op_concat)); [right; by left|].
  injection H as <- <-. right. by right.
Qed.

Lemma clear_action_idemp (nd : node) : clear_action (clear_action nd) = clear_action nd.
Proof. apply clear_action_stable, has_action_clear. Qed.

Lemma cleared_only_refl (g : graph) : cleared_only [] g g.
Proof. split; [done|]. eauto. Qed.

Lemma cleared_only_step (g g1 g' : graph) (n : node_id) (nd : node) (order : list node_id) :
  g !! n = Some nd →
  g1 = g ∨ (g1 = <[n := clear_action nd]> g
            ∧ (runtime_opcode nd = op_bitcast ∨ runtime_opcode nd = op_concat)) →
  cleared_only order g1 g' → cleared_only (n :: order) g g'.
Proof.
  intros Hn Hstep [Hlen H']. destruct Hstep as [->|[-> Hop]].
  - split; [done|]. intros m md Hm. destruct (H' _ _ Hm) as [?|(? & ? & ?)]; [by left|].
    right. split; [done|]. split; [by right|done].
  - split; [by rewrite Hlen, length_insert|]. intros m md Hm.
    destruct (decide (m = n)) as [->|Hne].
    + assert (md = nd) as -> by congruence.
      destruct (H' n (clear_action nd)) as [?|(E & _)].
      { apply list_lookup_insert_eq. by eapply lookup_lt_Some. }
      * right. split; [done|]. split; [by left|done].
      * rewrite clear_action_idemp in E. right. split; [done|]. split; [by left|done].
    + destruct (H' m md) as [?|(? & ? & ?)].
      { by rewrite list_lookup_insert_ne. }
      * by left.
      * right. split; [done|]. split; [by right|done].
Qed.

Lemma analyze_cleared (g : graph) (order : list node_id) (bufs : buffer_map)
    (g' : graph) (bufs' : buffer_map) :
  analyze_buffer_alias g order bufs = Ok (g', bufs') → cleared_only order g g'.
Proof.
  unfold analyze_buffer_alias. revert g bufs.
  induction order as [|n order IH]; intros g bufs H; simpl in H.
  - injection H as <- <-. apply cleared_only_refl.
  - destruct (analyze_node (g, bufs) n) as [[g1 bufs1]|] eqn:E; simpl in H; [|done].
    apply analyze_node_inv in E as (nd & Hn & Hcase).
    eapply (cleared_only_step g g1 g' n nd); [done| |by eapply IH].
    destruct Hcase as [[Hop Hb]|[[Hop Hc]|(_ & _ & -> & _)]]; [| |by left].
    + apply analyze_bitcast_inv in Hb
        as (ic & input & in_buf & out_buf & bufs0 & _ & _ & _ & _ & _ & Hres).
      destruct Hres as [[-> _]|(? & ? & _ & _ & -> & _)]; [by left|right; eauto].
    + apply analyze_concat_inv in Hc as [_ [->| ->]]; [by left|right; eauto].
Qed.

(** X11.  The alias analyser changes nothing in the graph but the action
    bit, which it clears and never sets, and only on bitcast and concat
    nodes it visits. *)
Theorem analyze_buffer_alias_graph (g : graph) (order : list node_id) (bufs : buffer_map)
    (g' : graph) (bufs' : buffer_map) :
  analyze_buffer_alias g order bufs = Ok (g', bufs') → cleared_only order g g'.
Proof. apply analyze_cleared. Qed.

Lemma retagged_refl (b : logical_buffer) : retagged b b.
Proof. unfold retagged. tauto. Qed.

Lemma retagged_trans (a b c : logical_buffer) : retagged a b → retagged b c → retagged a c.
Proof.
  unfold retagged. intros (A1 & A2 & A3 & A4 & A5 & A6 & A7) (B1 & B2 & B3 & B4 & B5 & B6 & B7).
  repeat split; try congruence. destruct A7 as [A7|[A7 A8]], B7 as [B7|[B7 B8]].
  - left. congruence.
  - right. split; congruence.
  - right. split; congruence.
  - congruence.
Qed.

Lemma related_refl (R : logical_buffer → logical_buffer → Prop) (bufs : buffer_map) :
  (∀ b, R b b) → related R bufs bufs.
Proof. intros HR c. destruct (bufs !! c); [apply HR|done]. Qed.

Lemma related_trans (R : logical_buffer → logical_buffer → Prop) (a b c : buffer_map) :
  (∀ x y z, R x y → R y z → R x z) →
  related R a b → related R b c → related R a c.
Proof.
  intros HR H1 H2 k. specialize (H1 k). specialize (H2 k).
  destruct (a !! k), (b !! k), (c !! k); try done. by eapply HR.
Qed.

Lemma related_insert (R : logical_buffer → logical_buffer → Prop) (bufs : buffer_map)
    (k : connector) (b b' : logical_buffer) :
  (∀ b, R b b) → bufs !! k = Some b → R b b' → related R bufs (<[k := b']> bufs).
Proof.
  intros HR Hk Hr c. destruct (decide (k = c)) as [<-|Hne].
  - by rewrite lookup_insert_eq, Hk.
  - rewrite lookup_insert_ne by done. destruct (bufs !! c); [apply HR|done].
Qed.

Lemma retagged_map_refl (bufs : buffer_map) : related retagged bufs bufs.
Proof. apply related_refl, retagged_refl. Qed.

Lemma retagged_map_trans (a b c : buffer_map) :
  related retagged a b → related retagged b c → related retagged a c.
Proof. apply related_trans, retagged_trans. Qed.

Lemma retagged_map_insert (bufs : buffer_map) (k : connector) (b b' : logical_buffer) :
  bufs !! k = Some b → retagged b b' → related retagged bufs (<[k := b']> bufs).
Proof. apply related_insert, retagged_refl. Qed.

Lemma analyze_node_retagged (g : graph) (bufs : buffer_map) (n : node_id)
    (g' : graph) (bufs' : buffer_map) :
  analyze_node (g, bufs) n = Ok (g', bufs') → related retagged bufs bufs'.
Proof.
  intros (nd & Hn & [[_ Hb]|[[_ Hc]|(_ & _ & _ & ->)]])%analyze_node_inv.
  - apply analyze_bitcast_inv in Hb
      as (ic & input & in_buf & out_buf & bufs1 & _ & _ & Hin & Hout & H1 & Hres).
    assert (related retagged bufs bufs1) as R1.
    { destruct H1 as [->|(Ho & Hi & ->)]; [apply retagged_map_refl|].
      apply (retagged_map_insert _ _ in_buf); [done|].
      unfold retagged. simpl. repeat split; try done. right. done. }
    destruct Hres as [[_ ->]|(out_buf1 & in_oc & Hout1 & _ & _ & ->)]; [done|].
    eapply retagged_map_trans; [exact R1|].
    apply (retagged_map_insert _ _ out_buf1); [done|].
    unfold retagged. simpl. repeat split; try done. by left.
  - apply analyze_concat_inv in Hc as [-> _]. apply retagged_map_refl.
  - apply retagged_map_refl.
Qed.

(** X12.  The alias analyser keeps every buffer and, of each, the id, the
    owner, the shape, the element type, the lifetime and the physical
    binding; a tag changes in one way only, from data to output. *)
Theorem analyze_buffer_alias_buffers (g : graph) (order : list node_id) (bufs : buffer_map)
    (g' : graph) (bufs' : buffer_map) :
  analyze_buffer_alias g order bufs = Ok (g', bufs') → related retagged bufs bufs'.
Proof.
  unfold analyze_buffer_alias. revert g bufs.
  induction order as [|n order IH]; intros g bufs H; simpl in H.
  - injection H as <- <-. apply retagged_map_refl.
  - destruct (analyze_node (g, bufs) n) as [[g1 bufs1]|] eqn:E; simpl in H; [|done].
    eapply retagged_map_trans; [by eapply analyze_node_retagged|by eapply IH].
Qed.

Lemma analyze_node_parents (g : graph) (bufs : buffer_map) (n : node_id)
    (g1 : graph) (bufs1 : buffer_map) (c : connector) (b1 : logical_buffer)
    (d : parent_desc) :
  analyze_node (g, bufs) n = Ok (g1, bufs1) →
  bufs1 !! c = Some b1 → lb_parent b1 = Some d →
  (∃ b, bufs !! c = Some b ∧ lb_parent b = Some d)
  ∨ ∃ nd ic in_oc,
      c = (n, 0%nat) ∧ g !! n = Some nd ∧ runtime_opcode nd = op_bitcast
      ∧ inputs nd !! 0%nat = Some ic ∧ connection ic = Some (parent d)
      ∧ get_output g (parent d) = Ok in_oc
      ∧ begin d = zeros (length (out_shape in_oc))
      ∧ g1 = <[n := clear_action nd]> g.
Proof.
  intros (nd & Hn & [[Hop Hb]|[[_ Hc]|(_ & _ & _ & ->)]])%analyze_node_inv Hb1 Hd.
  - apply analyze_bitcast_inv in Hb
      as (ic & input & in_buf & out_buf & bufs0 & Hic & Hcon & Hin & Hout & H1 & Hres).
    assert (∀ k x, bufs0 !! k = Some x →
              ∃ y, bufs !! k = Some y ∧ lb_parent y = lb_parent x) as Hsame.
    { intros k x Hx. destruct H1 as [->|(_ & _ & ->)]; [eauto|].
      destruct (decide (input = k)) as [->|Hne].
      - rewrite lookup_insert_eq in Hx. injection Hx as <-. eauto.
      - rewrite lookup_insert_ne in Hx by done. eauto. }
    destruct Hres as [[_ ->]|(out_buf1 & in_oc & Hout1 & Hoc & -> & ->)].
    + left. destruct (Hsame _ _ Hb1) as (y & Hy & E). exists y. split; [done|congruence].
    + destruct (decide ((n, 0%nat) = c)) as [<-|Hne].
      * rewrite lookup_insert_eq in Hb1. injection Hb1 as <-. simpl in Hd.
        injection Hd as <-. right. exists nd, ic, in_oc. simpl. done.
      * rewrite lookup_insert_ne in Hb1 by done. left.
        destruct (Hsame _ _ Hb1) as (y & Hy & E). exists y. split; [done|congruence].
  - apply analyze_concat_inv in Hc as [-> _]. left. eauto.
  - left. eauto.
Qed.

(** X13.  The alias analyser gives a parent to the output of a bitcast it
    demotes, and to nothing else: a descriptor found after the pass was
    there before, or belongs to the output of a visited bitcast whose action
    bit is cleared, points at what the bitcast reads and begins at zero. *)
Theorem analyze_buffer_alias_parents (g : graph) (order : list node_id) (bufs : buffer_map)
    (g' : graph) (bufs' : buffer_map) (c : connector) (b' : logical_buffer)
    (d : parent_desc) :
  analyze_buffer_alias g order bufs = Ok (g', bufs') →
  bufs' !! c = Some b' → lb_parent b' = Some d →
  (∃ b, bufs !! c = Some b ∧ lb_parent b = Some d) ∨ bitcast_alias g' order c d.
Proof.
  unfold analyze_buffer_alias. revert g bufs.
  induction order as [|n order IH]; intros g bufs H Hb' Hd; simpl in H.
  - injection H as <- <-. left. eauto.
  - destruct (analyze_node (g, bufs) n) as [[g1 bufs1]|] eqn:E; simpl in H; [|done].
    destruct (IH _ _ H Hb' Hd) as [(b1 & Hb1 & Hd1)|Hlater].
    + destruct (analyze_node_parents _ _ _ _ _ _ _ _ E Hb1 Hd1)
        as [?|(nd & ic & in_oc & -> & Hn & Hop & Hic & Hcon & Hoc & Hbeg & ->)]; [by left|].
      right. destruct (analyze_keeps_cleared _ _ _ _ _ H) as [Hs Hkeep].
      destruct (Hkeep n (clear_action nd)) as (nd' & Hn' & Hact).
      { apply list_lookup_insert_eq. by eapply lookup_lt_Some. }
      { apply has_action_clear. }
      destruct (same_shape_node _ _ n (clear_action nd) Hs) as (nd'' & Hn'' & Her).
      { apply list_lookup_insert_eq. by eapply lookup_lt_Some. }
      assert (nd'' = nd') as -> by congruence.
      rewrite erase_clear_action in Her.
      destruct (erase_fields _ _ Her) as (Eop & Ein & _).
      exists n, nd', ic, in_oc. split; [done|]. split; [by left|]. split; [done|].
      split; [congruence|]. split; [done|]. split; [congruence|]. split; [done|].
      split; [|done].
      rewrite <- (get_output_shape _ _ _ Hs).
      by rewrite <- (get_output_shape g _ _ (same_shape_clear g n nd Hn)).
    + right. destruct Hlater as (m & nd & ic & in_oc & -> & Hm & Hrest).
      exists m, nd, ic, in_oc. split; [done|]. split; [by right|done].
Qed.

(** *** Instances on the sample graphs *)

Lemma analyze_buffer_alias_graph_witness :
  ∃ g' bufs',
    analyze_buffer_alias concat_graph concat_order concat_buffers = Ok (g', bufs')
    ∧ cleared_only concat_order concat_graph g'
    ∧ action_at g' 2%nat = Some false.
Proof.
  assert (∃ g' bufs',
            analyze_buffer_alias concat_graph concat_order concat_buffers = Ok (g', bufs')
            ∧ action_at g' 2%nat = Some false) as (g' & bufs' & H & Hact).
  { eexists _, _. split; by vm_compute. }
  exists g', bufs'. split; [exact H|]. split; [|exact Hact].
  exact (analyze_buffer_alias_graph concat_graph concat_order concat_buffers g' bufs' H).
Defined.

Lemma analyze_buffer_alias_buffers_witness :
  ∃ g' bufs',
    analyze_buffer_alias reshape_graph reshape_order reshape_buffers = Ok (g', bufs')
    ∧ related retagged reshape_buffers bufs'
    ∧ tagged bufs' (0, 0)%nat mem_output.
Proof.
  assert (∃ g' bufs',
            analyze_buffer_alias reshape_graph reshape_order reshape_buffers = Ok (g', bufs')
            ∧ tagged bufs' (0, 0)%nat mem_output) as (g' & bufs' & H & Htag).
  { eexists _, _. split; by vm_compute. }
  exists g', bufs'. split; [exact H|]. split; [|exact Htag].
  exact (analyze_buffer_alias_buffers reshape_graph reshape_order reshape_buffers g' bufs' H).
Defined.

Lemma analyze_buffer_alias_parents_witness :
  ∃ g' bufs' b' d,
    analyze_buffer_alias reshape_graph reshape_order reshape_buffers = Ok (g', bufs')
    ∧ bufs' !! (1, 0)%nat = Some b' ∧ lb_parent b' = Some d
    ∧ ((∃ b, reshape_buffers !! (1, 0)%nat = Some b ∧ lb_parent b = Some d)
       ∨ bitcast_alias g' reshape_order (1, 0)%nat d).
Proof.
  assert (∃ g' bufs' b' d,
            analyze_buffer_alias reshape_graph reshape_order reshape_buffers = Ok (g', bufs')
            ∧ bufs' !! (1, 0)%nat = Some b' ∧ lb_parent b' = Some d)
    as (g' & bufs' & b' & d & H & Hb & Hd).
  { eexists _, _, _, _. split; [by vm_compute|]. split; by vm_compute. }
  exists g', bufs', b', d. split; [exact H|]. split; [exact Hb|]. split; [exact Hd|].
  exact (analyze_buffer_alias_parents reshape_graph reshape_order reshape_buffers g' bufs'
           (1, 0)%nat b' d H Hb Hd).
Defined.

(** ** The concat pass *)

Lemma concat_frame_refl (g : graph) (bufs : buffer_map) : concat_frame g bufs bufs.
Proof. split; [apply parents_changed_refl|done]. Qed.

Lemma concat_frame_trans (g : graph) (a b c : buffer_map) :
  concat_frame g a b → concat_frame g b c → concat_frame g a c.
Proof.
  intros [P1 F1] [P2 F2]. split; [by eapply parents_changed_trans|].
  intros x Hx. by rewrite F2, F1.
Qed.

Lemma concat_frame_write (g : graph) (bufs : buffer_map) (src : connector)
    (in_buf : logical_buffer) (p : option parent_desc) (n : node_id) (c : node)
    (ic : input_connector) :
  bufs !! src = Some in_buf →
  view_concat g n c → ic ∈ inputs c → connection ic = Some src →
  concat_frame g bufs (<[src := set_parent p in_buf]> bufs).
Proof.
  intros Hsrc Hvc Hin Hcon. split; [by apply parents_changed_insert|].
  intros x Hx. apply lookup_insert_ne. intros ->. by apply (Hx n c Hvc ic).
Qed.

Lemma init_index_frame (g : graph) (n : node_id) (c : node) (out : connector) (k : nat)
    (ins : list input_connector) (st st' : buffer_map * shape_t) :
  view_concat g n c → (∀ ic, ic ∈ ins → ic ∈ inputs c) →
  foldM (init_index out k) st ins = Ok st' → concat_frame g st.1 st'.1.
Proof.
  intros Hvc. revert st. induction ins as [|i ins IH]; intros st Hsub H; simpl in H.
  - injection H as <-. apply concat_frame_refl.
  - destruct (init_index out k st i) as [st1|] eqn:E; simpl in H; [|done].
    eapply concat_frame_trans; [|apply (IH st1); [|done]].
    2: { intros ic Hic. apply Hsub. by right. }
    unfold init_index, buf_at in E.
    destruct (connection i) as [src|] eqn:Hc; simpl in E; [|done].
    destruct (st.1 !! src) as [in_buf|] eqn:Hb; simpl in E; [|done].
    destruct (in_shape i !! k); simpl in E; [|done].
    destruct (shape_add_at _ _ _); simpl in E; [|done]. injection E as <-. simpl.
    eapply concat_frame_write; [done|done| |done]. apply Hsub. by left.
Qed.

Lemma shift_index_frame (g : graph) (n : node_id) (c : node) (out : connector)
    (cb : shape_t) (ins : list input_connector) (bufs bufs' : buffer_map) :
  view_concat g n c → (∀ ic, ic ∈ ins → ic ∈ inputs c) →
  foldM (shift_index out cb) bufs ins = Ok bufs' → concat_frame g bufs bufs'.
Proof.
  intros Hvc. revert bufs. induction ins as [|i ins IH]; intros bufs Hsub H; simpl in H.
  - injection H as <-. apply concat_frame_refl.
  - destruct (shift_index out cb bufs i) as [bufs1|] eqn:E; simpl in H; [|done].
    eapply concat_frame_trans; [|apply (IH bufs1); [|done]].
    2: { intros ic Hic. apply Hsub. by right. }
    unfold shift_index, buf_at in E.
    destruct (connection i) as [src|] eqn:Hc; simpl in E; [|done].
    destruct (bufs !! src) as [in_buf|] eqn:Hb; simpl in E; [|done].
    destruct (lb_parent in_buf); simpl in E; [|done].
    destruct (shape_add _ _); simpl in E; [|done]. injection E as <-.
    eapply concat_frame_write; [done|done| |done]. apply Hsub. by left.
Qed.

Lemma iterate_parent_frame (g : graph) (n : node_id) (c : node) (fuel : nat) :
  view_concat g n c →
  ∀ (child : node_id) (bufs bufs' : buffer_map),
  iterate_parent fuel g c child bufs = Ok bufs' → concat_frame g bufs bufs'.
Proof.
  intros Hvc. induction fuel as [|fuel IH]; intros child bufs bufs' H; simpl in H; [done|].
  destruct (try_get_direct_child_concat g child) as [[p|]|] eqn:Hdc; simpl in H; [| |done].
  2: { injection H as <-. apply concat_frame_refl. }
  unfold get_node in H. destruct (g !! p) as [pn|] eqn:Hp; simpl in H; [|done].
  destruct (has_action pn) eqn:Hact.
  { injection H as <-. apply concat_frame_refl. }
  destruct (get_input_index pn (child, 0%nat)) as [index|] eqn:Hidx; simpl in H; [|done].
  destruct (get_output g (child, 0%nat)) as [child_oc|]; simpl in H; [|done].
  destruct (accumulate _ _); simpl in H; [|done].
  destruct (shape_add_at _ _ _) as [child_begin|]; simpl in H; [|done].
  unfold buf_at in H.
  destruct (bufs !! (child, 0%nat)) as [in_buf|] eqn:Hin; simpl in H; [|done].
  destruct (bufs !! (p, 0%nat)); simpl in H; [|done].
  destruct (foldM _ _ (inputs c)) as [bufs2|] eqn:Hsh; simpl in H; [|done].
  assert (view_concat g p pn) as Hvp.
  { destruct (direct_child_inv g _ _ Hdc) as (oc & k & _ & _ & Hop).
    unfold opcode_at in Hop. rewrite Hp in Hop. simpl in Hop.
    split; [done|]. split; [congruence|done]. }
  assert (∃ ic, ic ∈ inputs pn ∧ connection ic = Some (child, 0%nat)) as (ic & Hic & Hcon).
  { unfold get_input_index in Hidx.
    destruct (list_find _ (inputs pn)) as [[k ic]|] eqn:Hfind; [|done].
    apply list_find_Some in Hfind as (Hk & Hc & _). exists ic.
    split; [by eapply list_elem_of_lookup_2|done]. }
  eapply concat_frame_trans.
  { by apply (concat_frame_write g bufs (child, 0%nat) in_buf
           (Some {| parent := (p, 0%nat); begin := child_begin |}) p pn ic). }
  eapply concat_frame_trans; [|by eapply IH].
  by apply (shift_index_frame g n c _ _ _ _ _ Hvc (λ ic H, H) Hsh).
Qed.

Lemma fix_concat_node_only_parents (g : graph) (bufs : buffer_map) (n : node_id)
    (bufs' : buffer_map) :
  fix_concat_node g bufs n = Ok bufs' → concat_frame g bufs bufs'.
Proof.
  unfold fix_concat_node, get_node. intros H.
  destruct (g !! n) as [c|] eqn:Hn; simpl in H; [|done].
  destruct (decide (runtime_opcode c = op_concat)) as [Hop|].
  2: { injection H as <-. apply concat_frame_refl. }
  destruct (has_action c) eqn:Hact.
  { injection H as <-. apply concat_frame_refl. }
  destruct (buf_at bufs (n, 0%nat)); simpl in H; [|done].
  destruct (inputs c !! 0%nat) as [i0|]; simpl in H; [|done].
  destruct (foldM _ _ (inputs c)) as [st|] eqn:Hinit; simpl in H; [|done].
  assert (view_concat g n c) as Hvc by done.
  eapply concat_frame_trans.
  - by apply (init_index_frame g n c _ _ _ _ _ Hvc (λ ic H, H) Hinit).
  - by eapply iterate_parent_frame.
Qed.

(** X14.  The concat pass writes parent descriptors and nothing else:
    every buffer keeps its other fields, and a buffer that no view concat
    reads is left exactly as it was. *)
Theorem fix_concat_indices_only_parents (g : graph) (order : list node_id)
    (bufs bufs' : buffer_map) :
  fix_concat_indices g order bufs = Ok bufs' → concat_frame g bufs bufs'.
Proof.
  unfold fix_concat_indices. revert bufs.
  induction order as [|n order IH]; intros bufs H; simpl in H.
  - injection H as <-. apply concat_frame_refl.
  - destruct (fix_concat_node g bufs n) as [bufs1|] eqn:E; simpl in H; [|done].
    eapply concat_frame_trans; [by eapply fix_concat_node_only_parents|by apply IH].
Qed.

(** *** Instances on the sample buffers *)

Lemma fix_concat_indices_only_parents_witness :
  ∃ bufs',
    fix_concat_indices (mixed_graph 0) mixed_order mixed_buffers = Ok bufs'
    ∧ concat_frame (mixed_graph 0) mixed_buffers bufs'.
Proof.
  assert (∃ bufs', fix_concat_indices (mixed_graph 0) mixed_order mixed_buffers = Ok bufs')
    as [bufs' H] by (vm_compute; eauto).
  exists bufs'. split; [exact H|].
  exact (fix_concat_indices_only_parents (mixed_graph 0) mixed_order mixed_buffers bufs' H).
Defined.

(** ** Closing the lifetimes *)

Lemma relifed_refl (b : logical_buffer) : relifed b b.
Proof. unfold relifed. tauto. Qed.

Lemma relifed_trans (a b c : logical_buffer) : relifed a b → relifed b c → relifed a c.
Proof.
  unfold relifed.
  intros (A1 & A2 & A3 & A4 & A5 & A6 & A7 & A8) (B1 & B2 & B3 & B4 & B5 & B6 & B7 & B8).
  repeat split; try congruence; tauto.
Qed.

Lemma assign_parent_relifed (fuel : nat) (bufs : buffer_map) (k : connector)
    (bufs' : buffer_map) :
  assign_parent fuel bufs k = Ok bufs' → related relifed bufs bufs'.
Proof.
  revert bufs. induction fuel as [|fuel IH]; intros bufs H; simpl in H; [done|].
  unfold buf_at in H. destruct (bufs !! k) as [b|] eqn:Hk; simpl in H; [|done].
  destruct (lb_parent b) as [p|] eqn:Hp.
  2: { injection H as <-. apply related_refl, relifed_refl. }
  destruct (bufs !! parent p) as [pb|]; simpl in H; [|done].
  destruct (lb_parent pb) as [pp|].
  2: { injection H as <-. apply related_refl, relifed_refl. }
  eapply related_trans; [apply relifed_trans| |by apply IH].
  apply (related_insert _ _ _ b); [apply relifed_refl|done|].
  unfold relifed. simpl. rewrite Hp. repeat split; eauto.
Qed.

Lemma extend_lifetime_relifed (bufs : buffer_map) (k : connector) (bufs' : buffer_map) :
  extend_lifetime bufs k = Ok bufs' → related relifed bufs bufs'.
Proof.
  unfold extend_lifetime, buf_at. intros H.
  destruct (bufs !! k) as [b|] eqn:Hk; simpl in H; [|done].
  destruct (lb_parent b) as [p|] eqn:Hp.
  2: { injection H as <-. apply related_refl, relifed_refl. }
  destruct (bufs !! parent p) as [pb|] eqn:Hpb; simpl in H; [|done].
  injection H as <-. apply (related_insert _ _ _ pb); [apply relifed_refl|done|].
  unfold relifed. simpl. tauto.
Qed.

Lemma foldM_related (R : logical_buffer → logical_buffer → Prop)
    (f : buffer_map → connector → result buffer_map) (order : list connector)
    (bufs bufs' : buffer_map) :
  (∀ b, R b b) → (∀ x y z, R x y → R y z → R x z) →
  (∀ m k m', f m k = Ok m' → related R m m') →
  foldM f bufs order = Ok bufs' → related R bufs bufs'.
Proof.
  intros Hrefl Htrans Hstep. revert bufs.
  induction order as [|k order IH]; intros bufs H; simpl in H.
  - injection H as <-. by apply related_refl.
  - destruct (f bufs k) as [m|] eqn:E; simpl in H; [|done].
    eapply related_trans; [done|by eapply Hstep|by apply IH].
Qed.

Lemma fix_lifetime_relifed (order : list connector) (bufs bufs' : buffer_map) :
  fix_lifetime order bufs = Ok bufs' → related relifed bufs bufs'.
Proof.
  unfold fix_lifetime, assign_parents. intros H.
  destruct (foldM _ bufs order) as [bufs1|] eqn:E; simpl in H; [|done].
  eapply related_trans; [apply relifed_trans| |].
  - eapply foldM_related; [apply relifed_refl|apply relifed_trans| |exact E].
    intros m k m'. apply assign_parent_relifed.
  - eapply foldM_related; [apply relifed_refl|apply relifed_trans| |exact H].
    apply extend_lifetime_relifed.
Qed.

(** X15.  Closing the lifetimes keeps every buffer and, of each, the id,
    the owner, the tag, the shape, the element type, the physical binding
    and the uses left; a buffer has a parent afterwards exactly when it had
    one before. *)
Theorem fix_lifetime_keeps (order : list connector) (bufs bufs' : buffer_map) :
  fix_lifetime order bufs = Ok bufs' → related relifed bufs bufs'.
Proof. apply fix_lifetime_relifed. Qed.

Lemma related_keys (R : logical_buffer → logical_buffer → Prop) (bufs bufs' : buffer_map)
    (c : connector) :
  related R bufs bufs' → is_Some (bufs !! c) ↔ is_Some (bufs' !! c).
Proof.
  intros H. specialize (H c).
  destruct (bufs !! c), (bufs' !! c); try done; split; eauto; by intros [? ?].
Qed.

(** [fix_lifetime] settles a map whose chains end. *)
Lemma fix_lifetime_settles (order : list connector) (bufs : buffer_map) :
  chains_end bufs → enumerates order bufs →
  ∃ fin, fix_lifetime order bufs = Ok fin ∧ settled fin.
Proof.
  intros Hend Henum.
  destruct (assign_parents_ok order bufs Hend) as (bufs1 & Hrun1 & Hsame & Hpres).
  { intros k Hk. by apply Henum. }
  assert (Htop : ∀ x t m, chain_top bufs x t m → chain_top bufs1 x t 0).
  { intros x t m Hc. destruct (Hpres _ _ _ Hc) as (m' & Hm' & _ & Hz).
    rewrite Hz in Hm'; [done|]. apply Henum.
    destruct (chain_top_has_parent _ _ _ _ Hc) as (? & ? & ? & _). eauto. }
  assert (Hflat : flat bufs1).
  { intros x lb1 t1 Hx1 Hp1.
    destruct (same_but_parents_lookup _ _ _ _ (same_but_parents_sym _ _ Hsame) Hx1)
      as (lb & Hx & _ & Hiff).
    destruct (Hend x lb Hx) as (t & m & Hc).
    { destruct (lb_parent lb); [done|]. destruct Hiff as [Hiff _].
      rewrite Hiff in Hp1 by done. done. }
    specialize (Htop _ _ _ Hc).
    inversion Htop as [? l ? Hl Hlp Hroot|]; subst. congruence. }
  assert (Hkeys1 : ∀ k, k ∈ order ↔ is_Some (bufs1 !! k)).
  { intros k. rewrite (Henum k). split.
    - intros [lb Hk]. destruct (same_but_parents_lookup _ _ _ _ Hsame Hk) as (? & ? & _). eauto.
    - intros [lb Hk].
      destruct (same_but_parents_lookup _ _ _ _ (same_but_parents_sym _ _ Hsame) Hk)
        as (? & ? & _). eauto. }
  destruct (extend_lifetime_fold bufs1 order [] bufs1 Hflat (closed_over_start _))
    as (fin & Hrun2 & Hclosed_a & Hclosed_b).
  { intros k Hk. by apply Hkeys1. }
  simpl in Hclosed_a, Hclosed_b.
  exists fin. split; [unfold fix_lifetime; rewrite Hrun1; exact Hrun2|].
  intros c lc t Hc Ht.
  assert (is_Some (bufs1 !! c)) as [lc1 Hc1].
  { apply (related_keys relifed bufs1 fin c); [|eauto].
    eapply foldM_related; [apply relifed_refl|apply relifed_trans| |exact Hrun2].
    apply extend_lifetime_relifed. }
  destruct (lb_parent lc1) as [t1|] eqn:Ht1.
  - assert (fin !! c = Some lc1) as Hfin by (apply Hclosed_a; [done|by rewrite Ht1]).
    assert (lc1 = lc) as -> by congruence. assert (t1 = t) as -> by congruence.
    destruct (Hflat _ _ _ Hc1 Ht1) as (r1 & Hr1 & Hrp1).
    destruct (Hclosed_b _ _ Hr1 Hrp1) as (r & Hr & Hrp & _ & Hseen & _).
    exists r. split; [done|]. split; [done|].
    apply (Hseen c lc); [by apply Hkeys1|]. split; [done|]. by exists t.
  - destruct (Hclosed_b _ _ Hc1 Ht1) as (lr' & Hr' & Hrp' & _). congruence.
Qed.

Lemma lifetime_union_same (l r : buffer_lifetime) :
  covers r l →
  {| birth := N.min (birth l) (birth r);
     age := N.max (lt_end l) (lt_end r) - N.min (birth l) (birth r);
     used_count := used_count r |} = r.
Proof.
  intros [H1 H2]. unfold lt_end in *. destruct r as [br ar ur]. simpl in *.
  rewrite N.min_r, N.max_r by lia. f_equal. lia.
Qed.

Lemma set_lifetime_same (b : logical_buffer) : set_lifetime (lifetime b) b = b.
Proof. by destruct b. Qed.

(** On a settled map [fix_lifetime] finds nothing to do. *)
Lemma fix_lifetime_fixpoint (order : list connector) (bufs : buffer_map) :
  settled bufs → (∀ k, k ∈ order → is_Some (bufs !! k)) →
  fix_lifetime order bufs = Ok bufs.
Proof.
  intros Hset Hkeys. unfold fix_lifetime, assign_parents.
  assert (foldM (assign_parent (size bufs)) bufs order = Ok bufs) as ->.
  { destruct (size bufs) as [|fuel] eqn:Hsize.
    - apply map_size_empty_iff in Hsize. subst. destruct order as [|k order]; [done|].
      destruct (Hkeys k) as [? Hk]; [by left|]. by rewrite lookup_empty in Hk.
    - clear Hsize. induction order as [|k order IH]; [done|]. cbn [foldM].
      assert (assign_parent (S fuel) bufs k = Ok bufs) as ->.
      { destruct (Hkeys k) as [b Hk]; [by left|]. simpl. unfold buf_at. rewrite Hk. simpl.
        destruct (lb_parent b) as [p|] eqn:Hp; [|done].
        destruct (Hset _ _ _ Hk Hp) as (r & Hr & Hrp & _). rewrite Hr. simpl.
        by rewrite Hrp. }
      simpl. apply IH. intros k' Hk'. apply Hkeys. by right. }
  simpl. induction order as [|k order IH]; [done|]. cbn [foldM].
  assert (extend_lifetime bufs k = Ok bufs) as ->.
  { destruct (Hkeys k) as [b Hk]; [by left|]. unfold extend_lifetime, buf_at.
    rewrite Hk. simpl. destruct (lb_parent b) as [p|] eqn:Hp; [|done].
    destruct (Hset _ _ _ Hk Hp) as (r & Hr & _ & Hcov). rewrite Hr. simpl.
    rewrite (lifetime_union_same _ _ Hcov), set_lifetime_same.
    by rewrite insert_id. }
  simpl. apply IH. intros k' Hk'. apply Hkeys. by right.
Qed.

(** X16.  Closing the lifetimes a second time changes nothing: after one
    pass every alias points at a root whose interval contains its own, which
    is all the pass establishes. *)
Theorem fix_lifetime_idempotent (order : list connector) (bufs bufs' : buffer_map) :
  chains_end bufs → enumerates order bufs →
  fix_lifetime order bufs = Ok bufs' →
  fix_lifetime order bufs' = Ok bufs'.
Proof.
  intros Hend Henum H.
  destruct (fix_lifetime_settles order bufs Hend Henum) as (fin & Hfin & Hset).
  assert (fin = bufs') as -> by congruence.
  apply fix_lifetime_fixpoint; [done|]. intros k Hk.
  apply Henum in Hk.
  by apply (related_keys relifed bufs bufs' k (fix_lifetime_relifed _ _ _ H)).
Qed.

(** *** Instances on the sample buffers *)

Lemma fix_lifetime_keeps_witness :
  ∃ bufs',
    fix_lifetime (elements (dom chain_buffers)) chain_buffers = Ok bufs'
    ∧ related relifed chain_buffers bufs'.
Proof.
  assert (∃ bufs', fix_lifetime (elements (dom chain_buffers)) chain_buffers = Ok bufs') as [bufs' H]
    by (vm_compute; eauto).
  exists bufs'. split; [exact H|].
  exact (fix_lifetime_keeps (elements (dom chain_buffers)) chain_buffers bufs' H).
Defined.

Lemma fix_lifetime_idempotent_witness :
  ∃ bufs',
    fix_lifetime (elements (dom chain_buffers)) chain_buffers = Ok bufs'
    ∧ fix_lifetime (elements (dom chain_buffers)) bufs' = Ok bufs'.
Proof.
  assert (∃ bufs', fix_lifetime (elements (dom chain_buffers)) chain_buffers = Ok bufs') as [bufs' H]
    by (vm_compute; eauto).
  exists bufs'. split; [exact H|].
  exact (fix_lifetime_idempotent (elements (dom chain_buffers)) chain_buffers bufs'
           chain_buffers_end (enumerates_elements _) H).
Defined.


(** ** Physical buffers *)

Lemma bind_physical_fold_fails (ids : gmap connector nat) (phys : list physical_buffer) :
  ∀ (order : list connector) (cur : buffer_map) (x : connector) (lb : logical_buffer),
  x ∈ order → cur !! x = Some lb → ids !! root_of x lb = None →
  foldM (bind_physical ids phys) cur order = Err out_of_range.
Proof.
  induction order as [|k order IH]; intros cur x lb Hin Hx Hnone; [by apply elem_of_nil in Hin|].
  simpl. destruct (decide (k = x)) as [->|Hne].
  - unfold bind_physical at 1, buf_at. rewrite Hx. simpl.
    fold (root_of x lb). by rewrite Hnone.
  - apply elem_of_cons in Hin as [?|Hin]; [congruence|].
    unfold bind_physical at 1, buf_at.
    destruct (cur !! k) as [b|] eqn:Hk; simpl; [|done].
    fold (root_of k b).
    destruct (ids !! root_of k b) as [i|]; simpl; [|done].
    destruct (phys !! i); simpl; [|done].
    apply (IH _ x lb); [done| |done]. by rewrite lookup_insert_ne.
Qed.

(** X17.  [make_physical_buffers] relies on flat chains: when some buffer
    points at a parent that has a parent of its own, the lookup of the
    parent among the physical ids throws [out_of_range]. *)
Theorem make_physical_buffers_needs_flat (order : list connector) (bufs : buffer_map)
    (x : connector) (lb : logical_buffer) (t : parent_desc) (pb : logical_buffer) :
  NoDup order → enumerates order bufs →
  bufs !! x = Some lb → lb_parent lb = Some t →
  bufs !! parent t = Some pb → is_Some (lb_parent pb) →
  make_physical_buffers order bufs = Err out_of_range.
Proof.
  intros Hnd Henum Hx Ht Hpb [pp Hpp].
  destruct (make_physical_fold bufs order ∅ []) as (ids & phys & Hrun1 & Howners & Hinv).
  { intros k Hk. by apply Henum. }
  { done. }
  { intros k _. apply lookup_empty. }
  { split; [done|]. split; [|by intros i b ?].
    intros k i. rewrite lookup_empty. split; [done|]. by intros (b & ? & _). }
  simpl in Howners. destruct Hinv as (_ & Hiff & _).
  unfold make_physical_buffers. rewrite Hrun1. simpl.
  rewrite (bind_physical_fold_fails ids phys order bufs x lb); [done| |done|].
  - apply Henum. eauto.
  - unfold root_of. rewrite Ht. apply eq_None_not_Some. intros [i Hi].
    apply Hiff in Hi as (b & Hb & Ho).
    assert (parent t ∈ pb_owner <$> phys) as Hin.
    { rewrite <- Ho. apply list_elem_of_fmap. exists b. split; [done|].
      by eapply list_elem_of_lookup_2. }
    rewrite Howners in Hin. apply list_elem_of_filter in Hin as [Hroot _].
    unfold rootb in Hroot. rewrite Hpb, Hpp in Hroot. done.
Qed.

(** *** Instances on the sample buffers *)

Lemma make_physical_buffers_needs_flat_witness :
  make_physical_buffers (elements (dom chain_buffers)) chain_buffers = Err out_of_range.
Proof.
  exact (make_physical_buffers_needs_flat (elements (dom chain_buffers)) chain_buffers (2, 0)%nat
           (with_parent (1, 0)%nat [1] (tensor_buffer 2 (2, 0)%nat mem_data [2]))
           {| parent := (1, 0)%nat; begin := [1] |}
           (with_parent (0, 0)%nat [2] (tensor_buffer 1 (1, 0)%nat mem_data [4]))
           (NoDup_elements _) (enumerates_elements _) eq_refl eq_refl eq_refl
           ltac:(by eexists)).
Defined.

(** ** Placing the physical buffers *)

Section placing.

Context {A : Type}.
Variable bank : gmap memory_location_t A.
Variable mark : A → nat → physical_buffer → A.
Variable finish : A → A.
Variable max_usage : A → N.
Variable allocations_of : A → gmap nat memory_span.
Variable sort_by_birth : list (nat * physical_buffer) → list (nat * physical_buffer).

Lemma owner_location_tag (bufs : buffer_map) (b : physical_buffer) (loc : memory_location_t) :
  owner_location bufs b = Ok loc ↔ owner_tag bufs b = Some loc.
Proof.
  unfold owner_location, owner_tag. destruct (bufs !! pb_owner b); simpl; [|done].
  split; congruence.
Qed.

Lemma mark_fold (bufs : buffer_map) :
  ∀ (l : list (nat * physical_buffer)) (M M' : gmap memory_location_t A),
  foldM (λ allocators ib,
           let* loc := owner_location bufs ib.2 in
           let* a := of_option out_of_range (allocators !! loc) in
           Ok (<[loc := mark a ib.1 ib.2]> allocators)) M l = Ok M' →
  ∀ loc, M' !! loc = marked mark bufs loc l <$> M !! loc.
Proof.
  unfold marked. induction l as [|ib l IH]; intros M M' H loc; simpl in H.
  - injection H as <-. by destruct (M !! loc).
  - destruct (owner_location bufs ib.2) as [loc0|] eqn:Hloc; simpl in H; [|done].
    destruct (M !! loc0) as [a|] eqn:Ha; simpl in H; [|done].
    rewrite (IH _ _ H loc). apply owner_location_tag in Hloc.
    destruct (decide (loc0 = loc)) as [->|Hne].
    + rewrite lookup_insert_eq, Ha. simpl. by rewrite filter_cons_True.
    + rewrite lookup_insert_ne by done. rewrite filter_cons_False by congruence. done.
Qed.

Lemma place_fold (bufs : buffer_map) (M : gmap memory_location_t A) :
  ∀ (l : list (nat * physical_buffer)) (acc placed : list physical_buffer),
  foldM (λ acc ib,
           let* loc := owner_location bufs ib.2 in
           let* a := of_option out_of_range (M !! loc) in
           let* span := of_option out_of_range (allocations_of a !! ib.1) in
           Ok (acc ++ [set_allocation span ib.2])) acc l = Ok placed →
  ∃ new, placed = acc ++ new ∧ length new = length l
    ∧ ∀ j ib, l !! j = Some ib →
        ∃ loc a span, owner_tag bufs ib.2 = Some loc ∧ M !! loc = Some a
          ∧ allocations_of a !! ib.1 = Some span
          ∧ new !! j = Some (set_allocation span ib.2).
Proof.
  induction l as [|ib l IH]; intros acc placed H; simpl in H.
  - injection H as <-. exists []. rewrite app_nil_r. split; [done|]. split; [done|].
    intros j ib. by rewrite lookup_nil.
  - destruct (owner_location bufs ib.2) as [loc|] eqn:Hloc; simpl in H; [|done].
    destruct (M !! loc) as [a|] eqn:Ha; simpl in H; [|done].
    destruct (allocations_of a !! ib.1) as [span|] eqn:Hs; simpl in H; [|done].
    destruct (IH _ _ H) as (new & -> & Hlen & Hall).
    exists (set_allocation span ib.2 :: new). split; [by rewrite <- app_assoc|].
    split; [simpl; lia|]. intros [|j] ib' Hj; simpl in Hj.
    + injection Hj as <-. apply owner_location_tag in Hloc. eauto 8.
    + by apply Hall.
Qed.

(** X18.  Every allocator the target registers reports a peak, also one
    that is shown no buffer, and the peak of a region is that of its
    allocator after it has been shown, in the sorted order, exactly the
    buffers whose owner carries the region's tag. *)
Theorem allocate_physical_buffers_usages (bufs : buffer_map)
    (physical_buffers placed : list physical_buffer) (usages : gmap memory_location_t N)
    (loc : memory_location_t) :
  allocate_physical_buffers bank mark finish max_usage allocations_of sort_by_birth
    bufs physical_buffers = Ok (placed, usages) →
  usages !! loc
  = (λ a0, max_usage (finish (marked mark bufs loc
                                (sort_by_birth (indexed physical_buffers)) a0)))
    <$> bank !! loc.
Proof.
  unfold allocate_physical_buffers. intros H.
  destruct (foldM _ bank _) as [M|] eqn:Hmark; simpl in H; [|done].
  destruct (foldM _ [] _) as [pl|] eqn:Hplace; simpl in H; [|done].
  injection H as <- <-. rewrite !lookup_fmap, (mark_fold _ _ _ _ Hmark loc).
  by destruct (bank !! loc).
Qed.

(** X19.  Placing keeps the physical buffers, their order, ids, owners and
    lifetimes, and gives each the span that the allocator of its owner's
    region recorded for it. *)
Theorem allocate_physical_buffers_places (bufs : buffer_map)
    (physical_buffers placed : list physical_buffer) (usages : gmap memory_location_t N) :
  allocate_physical_buffers bank mark finish max_usage allocations_of sort_by_birth
    bufs physical_buffers = Ok (placed, usages) →
  length placed = length physical_buffers
  ∧ ∀ i pb, physical_buffers !! i = Some pb →
      ∃ loc a0 span,
        owner_tag bufs pb = Some loc ∧ bank !! loc = Some a0
        ∧ allocations_of (finish (marked mark bufs loc
                                    (sort_by_birth (indexed physical_buffers)) a0)) !! i
          = Some span
        ∧ placed !! i = Some (set_allocation span pb).
Proof.
  unfold allocate_physical_buffers. intros H.
  destruct (foldM _ bank _) as [M|] eqn:Hmark; simpl in H; [|done].
  destruct (foldM _ [] _) as [pl|] eqn:Hplace; simpl in H; [|done].
  injection H as <- <-.
  destruct (place_fold _ _ _ _ _ Hplace) as (new & -> & Hlen & Hall). simpl.
  split; [by rewrite Hlen, length_imap|].
  intros i pb Hi.
  destruct (Hall i (i, pb)) as (loc & a & span & Htag & Ha & Hs & Hnew).
  { unfold indexed. by rewrite list_lookup_imap, Hi. }
  simpl in *. rewrite lookup_fmap, (mark_fold _ _ _ _ Hmark loc) in Ha.
  destruct (bank !! loc) as [a0|] eqn:Hb; simpl in Ha; [|done].
  injection Ha as <-. exists loc, a0, span. done.
Qed.

Lemma mark_fold_fails (bufs : buffer_map) (loc : memory_location_t) :
  ∀ (l : list (nat * physical_buffer)) (M : gmap memory_location_t A)
    (x : nat * physical_buffer),
  (∀ ib, ib ∈ l → is_Some (bufs !! pb_owner ib.2)) →
  x ∈ l → owner_tag bufs x.2 = Some loc → M !! loc = None →
  foldM (λ allocators ib,
           let* loc := owner_location bufs ib.2 in
           let* a := of_option out_of_range (allocators !! loc) in
           Ok (<[loc := mark a ib.1 ib.2]> allocators)) M l = Err out_of_range.
Proof.
  induction l as [|ib l IH]; intros M x Hown Hx Htag Hnone; [by apply elem_of_nil in Hx|].
  simpl. destruct (Hown ib) as [o Ho]; [by left|].
  unfold owner_location at 1. rewrite Ho. simpl.
  destruct (M !! memory_location o) as [a|] eqn:Ha; simpl; [|done].
  apply elem_of_cons in Hx as [->|Hx].
  - unfold owner_tag in Htag. rewrite Ho in Htag. simpl in Htag. congruence.
  - apply (IH _ x); [|done|done|].
    + intros ib' Hib'. apply Hown. by right.
    + rewrite lookup_insert_ne; [done|]. congruence.
Qed.

(** X20.  A physical buffer whose owner carries a tag for which the target
    registered no allocator stops the placing: [allocators.at] throws
    [out_of_range]. *)
Theorem allocate_physical_buffers_unregistered (bufs : buffer_map)
    (physical_buffers : list physical_buffer) (pb : physical_buffer)
    (loc : memory_location_t) :
  (∀ l, sort_by_birth l ≡ₚ l) →
  (∀ b, b ∈ physical_buffers → is_Some (bufs !! pb_owner b)) →
  pb ∈ physical_buffers → owner_tag bufs pb = Some loc → bank !! loc = None →
  allocate_physical_buffers bank mark finish max_usage allocations_of sort_by_birth
    bufs physical_buffers = Err out_of_range.
Proof.
  intros Hsort Hown Hpb Htag Hnone. unfold allocate_physical_buffers.
  apply list_elem_of_lookup in Hpb as [i Hi].
  rewrite (mark_fold_fails bufs loc _ bank (i, pb)); [done| |  |done|done].
  - intros ib Hib. rewrite Hsort in Hib.
    apply list_elem_of_lookup in Hib as [j Hj]. rewrite list_lookup_imap in Hj.
    destruct (physical_buffers !! j) as [b|] eqn:Hb; simpl in Hj; [|done].
    injection Hj as <-. apply Hown. by eapply list_elem_of_lookup_2.
  - rewrite Hsort. apply list_elem_of_lookup. exists i. by rewrite list_lookup_imap, Hi.
Qed.

End placing.

(** *** Instances on the sample target *)

Lemma allocate_physical_buffers_usages_witness :
  ∃ placed usages,
    allocate_physical_buffers bump_bank bump_mark (λ a, a) fst snd (λ l, l)
      placed_buffers placed_physical = Ok (placed, usages)
    ∧ usages !! mem_output
      = (λ a0, fst (marked bump_mark placed_buffers mem_output
                      (indexed placed_physical) a0)) <$> bump_bank !! mem_output
    ∧ usages !! mem_output = Some 128
    ∧ usages !! mem_data = Some 0.
Proof.
  assert (∃ placed usages,
            allocate_physical_buffers bump_bank bump_mark (λ a, a) fst snd (λ l, l)
              placed_buffers placed_physical = Ok (placed, usages)
            ∧ usages !! mem_output = Some 128 ∧ usages !! mem_data = Some 0)
    as (placed & usages & H & H1 & H2).
  { eexists _, _. split; [by vm_compute|]. split; by vm_compute. }
  exists placed, usages. split; [exact H|]. split; [|by split].
  exact (allocate_physical_buffers_usages bump_bank bump_mark (λ a, a) fst snd (λ l, l)
           placed_buffers placed_physical placed usages mem_output H).
Defined.

Lemma allocate_physical_buffers_places_witness :
  ∃ placed usages,
    allocate_physical_buffers bump_bank bump_mark (λ a, a) fst snd (λ l, l)
      placed_buffers placed_physical = Ok (placed, usages)
    ∧ length placed = length placed_physical
    ∧ pb_allocation <$> placed !! 0%nat = Some {| span_start := 0; span_size := 128 |}.
Proof.
  assert (∃ placed usages,
            allocate_physical_buffers bump_bank bump_mark (λ a, a) fst snd (λ l, l)
              placed_buffers placed_physical = Ok (placed, usages)
            ∧ pb_allocation <$> placed !! 0%nat
              = Some {| span_start := 0; span_size := 128 |})
    as (placed & usages & H & H1).
  { eexists _, _. split; by vm_compute. }
  exists placed, usages. split; [exact H|]. split; [|exact H1].
  exact (proj1 (allocate_physical_buffers_places bump_bank bump_mark (λ a, a) fst snd
                  (λ l, l) placed_buffers placed_physical placed usages H)).
Defined.

Lemma allocate_physical_buffers_unregistered_witness :
  allocate_physical_buffers (delete mem_output bump_bank) bump_mark (λ a, a) fst snd
    (λ l, l) placed_buffers placed_physical = Err out_of_range.
Proof.
  apply (allocate_physical_buffers_unregistered (delete mem_output bump_bank) bump_mark
           (λ a, a) fst snd (λ l, l) placed_buffers placed_physical
           {| pb_id := 0; pb_owner := (2, 0)%nat;
              pb_lifetime := {| birth := 0; age := 3; used_count := 0 |};
              pb_allocation := {| span_start := 0; span_size := 80 |} |} mem_output).
  - done.
  - intros b Hb. apply list_elem_of_singleton in Hb as ->. by eexists.
  - by left.
  - reflexivity.
  - by vm_compute.
Defined.

(** ** Allocation records *)

Lemma offset_within (b s p : shape_t) :
  fits b s p → element_offset (to_strides p) b + product s ≤ product p.
Proof.
  unfold fits, to_strides, element_offset.
  induction 1 as [|bi si pi b s p [Hle Hpos] _ IH]; simpl; [lia|].
  set (off := foldr N.add 0 (zip_with N.mul (compute_strides_row_major p) b)) in *.
  unfold product in *. set (P := foldr N.mul 1 p) in *. set (S := foldr N.mul 1 s) in *.
  assert (S ≤ P) by lia. nia.
Qed.

Section records.

Variable element_bytes : datatype_t → N.

Lemma make_allocation_inv (bufs : buffer_map) (phys : list physical_buffer)
    (opcode : node_opcode) (out : connector) (a : buffer_allocation) :
  make_allocation element_bytes bufs phys opcode out = Ok a →
  ∃ lbuf pid pbuf owner_buf,
    bufs !! out = Some lbuf ∧ physical lbuf = Some pid ∧ phys !! pid = Some pbuf
    ∧ bufs !! pb_owner pbuf = Some owner_buf
    ∧ ba_memory_location a = memory_location owner_buf
    ∧ ba_type a = lb_type lbuf ∧ ba_shape a = lb_shape lbuf
    ∧ ba_size a = element_bytes (lb_type lbuf) * product (lb_shape lbuf)
    ∧ ba_parent_shape a
      = (if bool_decide (is_Some (lb_parent lbuf)) && bool_decide (opcode ≠ op_bitcast)
         then lb_shape owner_buf else lb_shape lbuf)
    ∧ ba_strides a = to_strides (ba_parent_shape a)
    ∧ ba_start a
      = match lb_parent lbuf with
        | Some p => span_start (pb_allocation pbuf)
                    + element_bytes (lb_type lbuf) * element_offset (ba_strides a) (begin p)
        | None => span_start (pb_allocation pbuf)
        end.
Proof.
  unfold make_allocation, buf_at. intros H.
  destruct (bufs !! out) as [lbuf|]; simpl in H; [|done].
  destruct (physical lbuf) as [pid|] eqn:Hpid; simpl in H; [|done].
  destruct (phys !! pid) as [pbuf|] eqn:Hpbuf; simpl in H; [|done].
  destruct (bufs !! pb_owner pbuf) as [owner_buf|] eqn:Ho; simpl in H; [|done].
  injection H as <-. exists lbuf, pid, pbuf, owner_buf. simpl. repeat split; done.
Qed.

(** X21.  The bytes of an alias lie inside the bytes of its root: for an
    output that is not a bitcast's and whose block, at the begin of its
    parent descriptor, fits into the shape of the owner of its physical
    buffer, the record starts no earlier than the owner's allocation and
    ends no later than the owner's tensor does. *)
Theorem make_allocation_within_root (bufs : buffer_map) (phys : list physical_buffer)
    (opcode : node_opcode) (out : connector) (a : buffer_allocation)
    (lbuf : logical_buffer) (p : parent_desc) (pid : nat) (pbuf : physical_buffer)
    (owner_buf : logical_buffer) :
  make_allocation element_bytes bufs phys opcode out = Ok a →
  bufs !! out = Some lbuf → lb_parent lbuf = Some p → opcode ≠ op_bitcast →
  physical lbuf = Some pid → phys !! pid = Some pbuf →
  bufs !! pb_owner pbuf = Some owner_buf →
  fits (begin p) (lb_shape lbuf) (lb_shape owner_buf) →
  span_start (pb_allocation pbuf) ≤ ba_start a
  ∧ ba_start a + ba_size a
    ≤ span_start (pb_allocation pbuf)
      + get_bytes element_bytes (lb_type lbuf) (lb_shape owner_buf).
Proof.
  intros Ha Hout Hp Hop Hpid Hpbuf Ho Hfits.
  apply make_allocation_inv in Ha
    as (lbuf' & pid' & pbuf' & owner' & Hout' & Hpid' & Hpbuf' & Ho' & _ & _ & _
        & Hsize & Hps & Hstr & Hstart).
  assert (lbuf' = lbuf) as -> by congruence.
  assert (pid' = pid) as -> by congruence.
  assert (pbuf' = pbuf) as -> by congruence.
  assert (owner' = owner_buf) as -> by congruence.
  rewrite Hp in Hstart, Hps.
  rewrite bool_decide_eq_true_2, bool_decide_eq_true_2 in Hps by eauto. simpl in Hps.
  rewrite Hstart, Hsize, Hstr, Hps. unfold get_bytes.
  pose proof (offset_within _ _ _ Hfits) as Hin. split; [lia|]. nia.
Qed.

Lemma assign_node_inv (g : graph) (bufs : buffer_map) (phys : list physical_buffer)
    (allocs allocs' : gmap connector buffer_allocation) (n : node_id) :
  assign_node element_bytes g bufs phys allocs n = Ok allocs' →
  ∃ nd, g !! n = Some nd
    ∧ ∀ c, match allocs !! c with
           | Some a => allocs' !! c = Some a
           | None =>
             if decide (c ∈ output_refs n nd)
             then ∃ a, make_allocation element_bytes bufs phys (runtime_opcode nd) c = Ok a
                       ∧ allocs' !! c = Some a
             else allocs' !! c = None
           end.
Proof.
  unfold assign_node, get_node. intros H.
  destruct (g !! n) as [nd|]; simpl in H; [|done]. exists nd. split; [done|].
  revert allocs H. generalize (output_refs n nd) as outs.
  induction outs as [|o outs IH]; intros allocs H c; simpl in H.
  - injection H as <-. destruct (allocs !! c) eqn:Hc; [done|].
    by rewrite decide_False by apply not_elem_of_nil.
  - destruct (make_allocation _ _ _ _ o) as [a|] eqn:Ha; simpl in H; [|done].
    specialize (IH _ H c). unfold emplace in IH.
    destruct (decide (o = c)) as [->|Hne].
    + destruct (allocs !! c) as [a0|] eqn:Hc; [by rewrite Hc in IH|].
      rewrite lookup_insert_eq in IH. rewrite decide_True by left. eauto.
    + assert ((if allocs !! o is Some _ then allocs else <[o := a]> allocs) !! c
              = allocs !! c) as E.
      { destruct (allocs !! o); [done|]. by rewrite lookup_insert_ne. }
      rewrite E in IH. destruct (allocs !! c); [done|].
      destruct (decide (c ∈ outs)) as [Hin|Hnin].
      * by rewrite decide_True by (by right).
      * rewrite decide_False; [done|]. intros [?|?]%elem_of_cons; congruence.
Qed.

Lemma assign_allocations_inv (g : graph) (order : list node_id) (bufs : buffer_map)
    (phys : list physical_buffer) (allocs : gmap connector buffer_allocation)
    (c : connector) :
  assign_allocations element_bytes g order bufs phys = Ok allocs →
  (is_Some (allocs !! c) ↔ output_of g order c)
  ∧ ∀ a, allocs !! c = Some a →
      ∃ nd, g !! c.1 = Some nd
            ∧ make_allocation element_bytes bufs phys (runtime_opcode nd) c = Ok a.
Proof.
  unfold assign_allocations. intros H.
  cut ((is_Some (allocs !! c) ↔ is_Some ((∅ : gmap connector buffer_allocation) !! c)
                                 ∨ output_of g order c)
       ∧ ∀ a, allocs !! c = Some a →
           (∅ : gmap connector buffer_allocation) !! c = Some a
           ∨ ∃ nd, g !! c.1 = Some nd
               ∧ make_allocation element_bytes bufs phys (runtime_opcode nd) c = Ok a).
  { rewrite lookup_empty. intros [H1 H2]. split.
    - rewrite H1. split; [|by right]. by intros [[]%is_Some_None|].
    - intros a Ha. by destruct (H2 a Ha). }
  revert H. generalize (∅ : gmap connector buffer_allocation) as al0.
  induction order as [|n order IH]; intros al0 H; simpl in H.
  - injection H as <-. unfold output_of. rewrite elem_of_nil. split; [tauto|]. eauto.
  - destruct (assign_node _ g bufs phys al0 n) as [al1|] eqn:E; simpl in H; [|done].
    destruct (IH _ H) as [IH1 IH2].
    apply assign_node_inv in E as (nd & Hn & Hal1). specialize (Hal1 c).
    destruct (al0 !! c) as [a0|] eqn:H0.
    + split; [split; eauto|]. { intros _. rewrite IH1, Hal1. eauto. }
      intros a Ha. destruct (IH2 a Ha) as [Ha1|?]; [|by right]. left. congruence.
    + destruct (decide (c ∈ output_refs n nd)) as [Hin|Hnin].
      * pose proof Hin as [Hc1 Hc2]%output_refs_elem.
        destruct Hal1 as (a1 & Ha1 & Hal1).
        split; [split; [intros _; right|]|].
        -- split; [rewrite Hc1; by left|]. exists nd. by rewrite Hc1.
        -- intros _. rewrite IH1, Hal1. eauto.
        -- intros a Ha. destruct (IH2 a Ha) as [Ha'|?]; [|by right].
           right. exists nd. rewrite Hc1. split; [done|]. congruence.
      * split.
        -- rewrite IH1, Hal1, !is_Some_alt. split.
           ++ intros [[]|[Hc Hnd]]. right. split; [by right|done].
           ++ intros [[]|[Hc (nd' & Hnd' & Hlt)]]. right. split; [|eauto].
              apply elem_of_cons in Hc as [Hc|Hc]; [|done].
              exfalso. apply Hnin. apply output_refs_elem. split; [done|].
              rewrite Hc in Hnd'. congruence.
        -- intros a Ha. destruct (IH2 a Ha) as [Ha'|?]; [congruence|by right].
Qed.

(** X22.  The allocations of a schedule are the records of the outputs of
    the visited nodes: every such output has a record, no other connector
    has one, and each record is the one [assign_allocations] builds for
    that output. *)
Theorem assign_allocations_keys (g : graph) (order : list node_id) (bufs : buffer_map)
    (phys : list physical_buffer) (allocs : gmap connector buffer_allocation)
    (c : connector) :
  assign_allocations element_bytes g order bufs phys = Ok allocs →
  (is_Some (allocs !! c) ↔ output_of g order c)
  ∧ ∀ a, allocs !! c = Some a →
      ∃ nd, g !! c.1 = Some nd
            ∧ make_allocation element_bytes bufs phys (runtime_opcode nd) c = Ok a.
Proof. apply assign_allocations_inv. Qed.

End records.

(** *** Instances on the sample records *)

Lemma make_allocation_within_root_witness :
  ∃ a,
    make_allocation (λ _, 4) placed_buffers placed_physical (op_other 1) (1, 0)%nat = Ok a
    ∧ 0 ≤ ba_start a ∧ ba_start a + ba_size a ≤ 0 + get_bytes (λ _, 4) 0%nat [5; 4]
    ∧ ba_start a = 32 ∧ ba_size a = 48.
Proof.
  assert (∃ a, make_allocation (λ _, 4) placed_buffers placed_physical (op_other 1)
                 (1, 0)%nat = Ok a ∧ ba_start a = 32 ∧ ba_size a = 48)
    as (a & H & H1 & H2).
  { eexists. split; [by vm_compute|]. split; by vm_compute. }
  exists a. split; [exact H|].
  destruct (make_allocation_within_root (λ _, 4) placed_buffers placed_physical
              (op_other 1) (1, 0)%nat a
              (placed 0 (with_parent (2, 0)%nat [2; 0]
                           (tensor_buffer 1 (1, 0)%nat mem_data [3; 4])))
              {| parent := (2, 0)%nat; begin := [2; 0] |} 0%nat
              {| pb_id := 0; pb_owner := (2, 0)%nat;
                 pb_lifetime := {| birth := 0; age := 3; used_count := 0 |};
                 pb_allocation := {| span_start := 0; span_size := 80 |} |}
              (placed 0 (tensor_buffer 2 (2, 0)%nat mem_output [5; 4]))
              H eq_refl eq_refl ltac:(done) eq_refl eq_refl eq_refl) as [Hlo Hhi].
  { repeat constructor; simpl; lia. }
  done.
Defined.

Lemma assign_allocations_keys_witness :
  ∃ allocs,
    assign_allocations (λ _, 4) concat_graph concat_order placed_buffers placed_physical
      = Ok allocs
    ∧ (is_Some (allocs !! (1, 0)%nat) ↔ output_of concat_graph concat_order (1, 0)%nat)
    ∧ ¬ is_Some (allocs !! (3, 0)%nat).
Proof.
  assert (∃ allocs,
            assign_allocations (λ _, 4) concat_graph concat_order placed_buffers
              placed_physical = Ok allocs
            ∧ allocs !! (3, 0)%nat = None) as (allocs & H & Hnone).
  { eexists. split; by vm_compute. }
  exists allocs. split; [exact H|]. split.
  - exact (proj1 (assign_allocations_keys (λ _, 4) concat_graph concat_order placed_buffers
                    placed_physical allocs (1, 0)%nat H)).
  - rewrite Hnone. by intros [? ?].
Defined.

Lemma output_of_shape (g g' : graph) (l : list node_id) (c : connector) :
  same_shape g g' → output_of g l c → output_of g' l c.
Proof.
  intros Hs [Hin (nd & Hn & Hlt)]. split; [done|].
  destruct (same_shape_node _ _ _ _ Hs Hn) as (nd' & Hn' & E).
  exists nd'. split; [done|]. destruct (erase_fields _ _ E) as (_ & _ & -> & _). done.
Qed.

Lemma compute_sequence_nodes (g : graph) (order acc sequence : list node_id) (n : node_id) :
  foldM (λ sequence n,
           let* nd := get_node g n in
           if has_action nd then Ok (sequence ++ [n]) else Ok sequence)
        acc order = Ok sequence →
  n ∈ order → is_Some (g !! n).
Proof.
  revert acc. induction order as [|m order IH]; intros acc H Hn; [by apply elem_of_nil in Hn|].
  simpl in H. unfold get_node at 1 in H.
  destruct (g !! m) as [nd|] eqn:Hm; simpl in H; [|done].
  apply elem_of_cons in Hn as [->|Hn]; [eauto|].
  destruct (has_action nd); by eapply IH.
Qed.

Section whole.

Context {A : Type}.
Variable element_bytes : datatype_t → N.
Variable bank : gmap memory_location_t A.
Variable mark : A → nat → physical_buffer → A.
Variable finish : A → A.
Variable max_usage : A → N.
Variable allocations_of : A → gmap nat memory_span.
Variable sort_by_birth : list (nat * physical_buffer) → list (nat * physical_buffer).
Variable iteration : gset connector → list connector.

(** X23.  What a schedule covers.  The graph comes back with nothing
    changed but action bits cleared on visited bitcast and concat nodes;
    the compute sequence is the traversal without the nodes that have lost
    the bit; there is an allocation record for exactly the outputs of the
    visited nodes; and there is a peak usage for exactly the regions the
    target registered. *)
Theorem schedule_covers (g : graph) (outputs_ : list node_id) (r : schedule_result)
    (g1 : graph) :
  schedule element_bytes bank mark finish max_usage allocations_of sort_by_birth iteration
    g outputs_ = Ok (r, g1) →
  ∃ order,
    visit_order g outputs_ = Ok order
    ∧ cleared_only order g g1
    ∧ compute_sequence r = filter (λ n, action_at g1 n = Some true) order
    ∧ (∀ c, is_Some (allocations r !! c) ↔ output_of g order c)
    ∧ dom (max_usages r) = dom bank.
Proof.
  unfold schedule. intros H.
  destruct (visit_order g outputs_) as [order|] eqn:Hvo; simpl in H; [|done].
  destruct (make_logical_buffers g order ∅) as [bufs|] eqn:Hmk; simpl in H; [|done].
  destruct (analyze_buffer_alias g order bufs) as [[ga ba]|] eqn:Han; simpl in H; [|done].
  pose proof (analyze_cleared _ _ _ _ _ Han) as Hcl.
  destruct (analyze_keeps_cleared _ _ _ _ _ Han) as [Hs _].
  rewrite <- (visit_order_shape g ga outputs_ Hs), Hvo in H. simpl in H.
  destruct (fix_concat_indices ga order ba) as [bc|] eqn:Hfc; simpl in H; [|done].
  destruct (fix_lifetime _ bc) as [bl|] eqn:Hfl; simpl in H; [|done].
  destruct (generate_compute_sequence ga order) as [sequence|] eqn:Hseq; simpl in H; [|done].
  destruct (make_physical_buffers _ bl) as [[bp phys]|] eqn:Hph; simpl in H; [|done].
  destruct (allocate_physical_buffers _ _ _ _ _ _ bp phys) as [[placed usages]|] eqn:Hal;
    simpl in H; [|done].
  destruct (assign_allocations _ ga order bp placed) as [allocs|] eqn:Has; simpl in H; [|done].
  injection H as <- <-. simpl. exists order. split; [done|]. split; [done|].
  split; [|split].
  - assert (∀ n, n ∈ order → is_Some (ga !! n)) as Hnodes.
    { intros n Hn. by eapply compute_sequence_nodes. }
    rewrite generate_compute_sequence_filter in Hseq by done. congruence.
  - intros c. destruct (assign_allocations_inv _ _ _ _ _ _ c Has) as [Hk _].
    rewrite Hk. split; apply output_of_shape; [by apply same_shape_sym|done].
  - apply set_eq. intros loc. rewrite !elem_of_dom.
    unfold allocate_physical_buffers in Hal.
    destruct (foldM _ bank _) as [M|] eqn:Hmark; simpl in Hal; [|done].
    destruct (foldM _ [] _) as [pl|]; simpl in Hal; [|done].
    injection Hal as _ <-. rewrite !lookup_fmap, (mark_fold _ _ _ _ _ Hmark loc).
    rewrite !fmap_is_Some. done.
Qed.

End whole.

(** *** An instance on the sample target *)

Lemma schedule_covers_witness :
  ∃ r g1 order,
    bump_schedule concat_graph [3%nat] = Ok (r, g1)
    ∧ visit_order concat_graph [3%nat] = Ok order
    ∧ cleared_only order concat_graph g1
    ∧ compute_sequence r = filter (λ n, action_at g1 n = Some true) order
    ∧ (∀ c, is_Some (allocations r !! c) ↔ output_of concat_graph order c)
    ∧ dom (max_usages r) = dom bump_bank.
Proof.
  assert (∃ r g1, bump_schedule concat_graph [3%nat] = Ok (r, g1)) as (r & g1 & H)
    by (vm_compute; eauto).
  destruct (schedule_covers (λ _, 4) bump_bank bump_mark (λ a, a) fst snd (λ l, l) elements
              concat_graph [3%nat] r g1 H) as (order & H1 & H2 & H3 & H4 & H5).
  exists r, g1, order.
  exact (conj H (conj H1 (conj H2 (conj H3 (conj H4 H5))))).
Defined.

(** ** The ONNX importer *)

(** X24.  The importer splits the bias of an LSTM node without losing or
    repeating a value: the bias of the input weights is the first
    [W_shape[1]] values, the bias of the recurrence is the rest, and the two
    put together are the bias again.  Both constants are declared with
    [W_shape[1]] elements, which is what the second one holds exactly when
    the bias has twice as many. *)
Theorem convert_op_LSTM_bias_split {T} (W_shape : shape_t) (bias W_bias R_bias : list T)
    (n : N) :
  convert_op_LSTM_bias W_shape bias = Imported (W_bias, R_bias) →
  W_shape !! 1%nat = Some n →
  W_bias ++ R_bias = bias
  ∧ length W_bias = N.to_nat n
  ∧ (length R_bias = N.to_nat n ↔ length bias = (2 * N.to_nat n)%nat)
  ∧ W_shape !! 0%nat ≠ Some 2.
Proof.
  unfold convert_op_LSTM_bias. intros H Hn.
  destruct (W_shape !! 0%nat) as [d|]; [|done].
  destruct (d =? 2) eqn:Hd; [done|]. apply N.eqb_neq in Hd.
  rewrite Hn in H. case_decide as Hle; [|done]. injection H as <- <-.
  split; [apply take_drop|]. split; [by rewrite length_take_le|].
  split; [rewrite length_drop; lia|congruence].
Qed.


Lemma convert_op_LSTM_bias_split_witness :
  convert_op_LSTM_bias [1; 4; 3] [1; 2; 3; 4; 5; 6; 7; 8]%nat
    = Imported ([1; 2; 3; 4]%nat, [5; 6; 7; 8]%nat)
  ∧ [1; 2; 3; 4]%nat ++ [5; 6; 7; 8]%nat = [1; 2; 3; 4; 5; 6; 7; 8]%nat
  ∧ length [1; 2; 3; 4]%nat = N.to_nat 4
  ∧ (length [5; 6; 7; 8]%nat = N.to_nat 4
     ↔ length [1; 2; 3; 4; 5; 6; 7; 8]%nat = (2 * N.to_nat 4)%nat)
  ∧ [1; 4; 3] !! 0%nat ≠ Some 2.
Proof.
  split; [reflexivity|].
  exact (convert_op_LSTM_bias_split [1; 4; 3] [1; 2; 3; 4; 5; 6; 7; 8]%nat
           [1; 2; 3; 4]%nat [5; 6; 7; 8]%nat 4 eq_refl eq_refl).
Defined.
